(** * tiny-sdf: the signed-distance-field pipeline of [src/index.js]

    A shallow embedding of the class [TinySDF] (its constructor and its
    methods [getMetrics] and [draw]) and of the two module-level functions
    [edt] and [edt1d], followed by the theorems that settle the
    specification's claims about them and by further properties of the code.

    JavaScript numbers are kept behind the interface [Number], so that the
    same embedded code runs on two carriers:
    - [F64]: IEEE-754 binary64 through Rocq's primitive floats, which is what
      the program computes with, bit for bit;
    - [Exact]: the real numbers, i.e. the same code with no rounding.
    Typed arrays are lists; a read past the end is [undefined] and a write
    past the end is dropped, as for every JavaScript typed array. *)

From Stdlib Require Import ZArith Reals Lra Lia Floats String.
From stdpp Require Import base list.

(** ** The numbers of the program *)

Class Number (num : Type) : Type := {
  INF : num;                          (* const INF = 1e20 *)
  NaN : num;                          (* what [undefined] is in arithmetic *)
  half : num;                         (* the literal 0.5 *)
  idx : nat -> num;                   (* a non-negative integer as a number *)
  nadd : num -> num -> num;
  nsub : num -> num -> num;
  nmul : num -> num -> num;
  ndiv : num -> num -> num;
  nneg : num -> num;
  nlt : num -> num -> bool;           (* <   *)
  nle : num -> num -> bool;           (* <=  *)
  nseq : num -> num -> bool;          (* === *)
  Math_sqrt : num -> num;
  Math_max : num -> num -> num;
  Math_round : num -> num;
  ToUint8Clamp : num -> nat;          (* the store into a Uint8ClampedArray *)
}.

Declare Scope num_scope.
Delimit Scope num_scope with num.
Infix "+" := nadd : num_scope.
Infix "-" := nsub : num_scope.
Infix "*" := nmul : num_scope.
Infix "/" := ndiv : num_scope.
Notation "- x" := (nneg x) : num_scope.

(** The context a canvas offers is external; the embedding keeps the calls
    made on it. *)
Inductive ctx_call : Type :=
  | clearRect (x y w h : nat)
  | fillText (char : string) (x : nat) (y : Z)
  | getImageData (x y w h : nat).

(** The record [getMetrics] returns and [draw] destructures. *)
Record metrics (num : Type) : Type := Metrics {
  width : nat;
  height : nat;
  glyphWidth : nat;
  glyphHeight : nat;
  glyphTop : Z;
  glyphLeft : Z;
  glyphAdvance : num;
}.

(** The object [draw] returns: [data] and the fields of the metrics, which
    are copied unchanged. *)
Record glyph (num : Type) : Type := Glyph {
  data : list nat;
  glyph_metrics : metrics num;
}.

(** The four typed arrays a distance transform works on. *)
Record arrays (num : Type) : Type := Arrays {
  a_grid : list num;                  (* Float64Array *)
  a_f : list num;                     (* Float64Array *)
  a_v : list nat;                     (* Uint16Array  *)
  a_z : list num;                     (* Float64Array *)
}.

(** The fields of a [TinySDF] instance. *)
Record TinySDF (num : Type) : Type := mkTinySDF {
  buffer : nat;
  cutoff : num;
  radius : num;
  size : nat;
  ctx : list ctx_call;
  gridOuter : list num;
  gridInner : list num;
  f : list num;
  z : list num;
  v : list nat;
}.

Arguments Metrics {num}.
Arguments width {num}.
Arguments height {num}.
Arguments glyphWidth {num}.
Arguments glyphHeight {num}.
Arguments glyphTop {num}.
Arguments glyphLeft {num}.
Arguments glyphAdvance {num}.
Arguments Glyph {num}.
Arguments data {num}.
Arguments glyph_metrics {num}.
Arguments Arrays {num}.
Arguments a_grid {num}.
Arguments a_f {num}.
Arguments a_v {num}.
Arguments a_z {num}.
Arguments mkTinySDF {num}.
Arguments buffer {num}.
Arguments cutoff {num}.
Arguments radius {num}.
Arguments size {num}.
Arguments ctx {num}.
Arguments gridOuter {num}.
Arguments gridInner {num}.
Arguments f {num}.
Arguments z {num}.
Arguments v {num}.

Section Program.
Context {num : Type} {N : Number num}.

(** *** Typed-array reads and writes *)

(** [a[i]] used as a number. *)
Definition get (a : list num) (i : nat) : num := default NaN (a !! i).

(** [a[r]] where the index [r] was itself read from [v] and may be
    [undefined]. *)
Definition get_at (a : list num) (r : option nat) : num :=
  match r with Some r => get a r | None => NaN end.

(** An index read from [v], used as a number. *)
Definition num_at (r : option nat) : num :=
  match r with Some r => idx r | None => NaN end.

(** [a[j] = x] for an index computed with a subtraction. *)
Definition set_at (a : list num) (j : Z) (x : num) : list num :=
  if (j <? 0)%Z then a else <[Z.to_nat j := x]> a.

(** [s <= z[k]]: a comparison with [undefined] is false. *)
Definition le_at (s : num) (zk : option num) : bool :=
  match zk with Some zk => nle s zk | None => false end.

(** The store into a Uint16Array. *)
Definition ToUint16 (q : nat) : nat := Z.to_nat (Z.of_nat q mod 2 ^ 16).

(** [a.fill(x, 0, n)] *)
Definition fill (a : list num) (x : num) (n : nat) : list num :=
  replicate (n `min` length a) x ++ drop n a.

(** [Math.pow(x, 2)], taken as the rounded product [x * x]. *)
Definition Math_pow2 (x : num) : num := (x * x)%num.

(** *** edt1d (index.js, lines 113-137) *)

(** [s = (f[q] - f[r] + q * q - r * r) / (q - r) / 2] *)
Definition intersection (f : list num) (q : nat) (r : option nat) : num :=
  ((get f q - get_at f r + idx q * idx q - num_at r * num_at r)
    / (idx q - num_at r) / idx 2)%num.

(** The [do ... while (s <= z[k] && --k > -1)] loop.  It returns [k] as the
    loop leaves it (possibly [-1]) together with [s]. *)
Fixpoint pop (f : list num) (v : list nat) (z : list num) (q k : nat)
  : Z * num :=
  let r := v !! k in
  let s := intersection f q r in
  if le_at s (z !! k) then
    match k with
    | O => ((-1)%Z, s)
    | S k' => pop f v z q k'
    end
  else (Z.of_nat k, s).

(** One turn of the second [for] loop. *)
Definition push (f : list num) (st : nat * list nat * list num) (q : nat)
  : nat * list nat * list num :=
  let '(k, v, z) := st in
  let '(k', s) := pop f v z q k in
  let k := Z.to_nat (k' + 1) in
  (k, <[k := ToUint16 q]> v, <[S k := INF]> (<[k := s]> z)).

(** [while (z[k + 1] < q) k++], reading [z] from index [k + 1] on. *)
Fixpoint cursor (zs : list num) (q : num) (k : nat) : nat :=
  match zs with
  | [] => k
  | zk :: zs' => if nlt zk q then cursor zs' q (S k) else k
  end.

Definition advance (z : list num) (q k : nat) : nat :=
  cursor (drop (S k) z) (idx q) k.

(** One turn of the third [for] loop. *)
Definition emit (f : list num) (v : list nat) (z : list num)
    (offset stride : nat) (st : nat * list num) (q : nat) : nat * list num :=
  let '(k, grid) := st in
  let k := advance z q k in
  let r := v !! k in
  (k, <[offset + q * stride :=
          (get_at f r + (idx q - num_at r) * (idx q - num_at r))%num]> grid).

(** The first [for] loop: [f[q] = grid[offset + q * stride]]. *)
Definition copy_line (grid : list num) (offset stride length : nat)
    (f : list num) : list num :=
  foldl (fun f q => <[q := get grid (offset + q * stride)]> f)
        f (seq 0 length).

Definition edt1d (grid : list num) (offset stride length : nat)
    (f : list num) (v : list nat) (z : list num) : arrays num :=
  let v := <[0 := 0]> v in
  let z := <[0 := (- INF)%num]> z in
  let z := <[1 := INF]> z in
  let f := copy_line grid offset stride length f in
  let '(_, v, z) := foldl (push f) (0, v, z) (seq 1 (length - 1)) in
  let '(_, grid) := foldl (emit f v z offset stride) (0, grid)
                          (seq 0 length) in
  Arrays grid f v z.

(** *** edt (index.js, lines 107-110) *)

(** A call of [edt1d] on the arrays as the previous call left them: the
    arrays are mutated in place. *)
Definition run (a : arrays num) (p : nat * nat * nat) : arrays num :=
  let '(offset, stride, length) := p in
  edt1d (a_grid a) offset stride length (a_f a) (a_v a) (a_z a).

(** [edt1d(data, x, width, height, f, v, z)] *)
Definition column_pass (width height : nat) (a : arrays num) (x : nat)
  : arrays num :=
  run a (x, width, height).

(** [edt1d(data, y * width, 1, width, f, v, z)] *)
Definition row_pass (width : nat) (a : arrays num) (y : nat) : arrays num :=
  run a (y * width, 1, width).

Definition edt (data : list num) (width height : nat)
    (f : list num) (v : list nat) (z : list num) : arrays num :=
  let a := foldl (column_pass width height) (Arrays data f v z)
                 (seq 0 width) in
  foldl (row_pass width) a (seq 0 height).

(** *** The constructor (index.js, lines 4-35) *)

Definition new_TinySDF (fontSize buffer : nat) (radius cutoff : num)
  : TinySDF num :=
  let size := fontSize + buffer * 4 in
  {| buffer := buffer; cutoff := cutoff; radius := radius; size := size;
     ctx := [];
     gridOuter := replicate (size * size) (idx 0);
     gridInner := replicate (size * size) (idx 0);
     f := replicate size (idx 0);
     z := replicate (size + 1) (idx 0);
     v := replicate size 0 |}.

(** *** draw (index.js, lines 67-103) *)

(** The conversion to a 32-bit integer that [>>] applies to its left
    operand. *)
Definition ToInt32 (n : Z) : Z := ((n + 2 ^ 31) mod 2 ^ 32 - 2 ^ 31)%Z.

(** [(width - glyphWidth) >> 1] *)
Definition centre (width glyphWidth : nat) : Z :=
  Z.shiftr (ToInt32 (Z.of_nat width - Z.of_nat glyphWidth)) 1.

(** [imgData.data[4 * (y * glyphWidth + x) + 3] / 255] *)
Definition alpha (imgData : list nat) (glyphWidth x y : nat) : num :=
  let a := imgData !! (4 * (y * glyphWidth + x) + 3) in
  (num_at a / idx 255)%num.

Definition outer_seed (a : num) : num :=
  if nseq a (idx 1) then idx 0
  else if nseq a (idx 0) then INF
  else Math_pow2 (Math_max (idx 0) (half - a)%num).

Definition inner_seed (a : num) : num :=
  if nseq a (idx 1) then INF
  else if nseq a (idx 0) then idx 0
  else Math_pow2 (Math_max (idx 0) (a - half)%num).

(** The body of the two nested loops, lines 87-90. *)
Definition seed_cell (imgData : list nat) (width glyphWidth : nat)
    (offset : Z) (y : nat) (g : list num * list num) (x : nat)
  : list num * list num :=
  let j := ((Z.of_nat y + offset) * Z.of_nat width + Z.of_nat x + offset)%Z in
  let a := alpha imgData glyphWidth x y in
  (set_at g.1 j (outer_seed a), set_at g.2 j (inner_seed a)).

(** Lines 80-92: both grids before the transforms, as (outer, inner). *)
Definition seed (gridOuter gridInner : list num) (imgData : list nat)
    (width height glyphWidth glyphHeight : nat) : list num * list num :=
  let gridOuter := fill gridOuter INF (width * height) in
  let gridInner := fill gridInner (idx 0) (width * height) in
  let offset := centre width glyphWidth in
  foldl (fun g y => foldl (seed_cell imgData width glyphWidth offset y)
                          g (seq 0 glyphWidth))
        (gridOuter, gridInner) (seq 0 glyphHeight).

(** Lines 98-99: the byte of one cell. *)
Definition quantize (radius cutoff : num) (gridOuter gridInner : list num)
    (i : nat) : nat :=
  let d := (Math_sqrt (get gridOuter i) - Math_sqrt (get gridInner i))%num in
  ToUint8Clamp (Math_round (idx 255 - idx 255 * (d / radius + cutoff))%num).

(** [draw(char, metrics)].  [imgData] is what [ctx.getImageData] answers for
    the rectangle of the glyph: four bytes per pixel.  The result is the
    returned glyph and the instance after the call. *)
Definition draw (this : TinySDF num) (char : string) (m : metrics num)
    (imgData : list nat) : glyph num * TinySDF num :=
  let data := replicate (width m * height m) 0 in
  if (glyphWidth m =? 0) || (glyphHeight m =? 0) then (Glyph data m, this)
  else
    let calls :=
      [ clearRect (buffer this) (buffer this) (glyphWidth m) (glyphHeight m);
        fillText char (buffer this)
                 (Z.of_nat (buffer this) + glyphTop m + 1)%Z;
        getImageData (buffer this) (buffer this)
                     (glyphWidth m) (glyphHeight m) ] in
    let '(gO, gI) := seed (gridOuter this) (gridInner this) imgData
                          (width m) (height m)
                          (glyphWidth m) (glyphHeight m) in
    let o := edt gO (width m) (height m) (f this) (v this) (z this) in
    let i := edt gI (width m) (height m) (a_f o) (a_v o) (a_z o) in
    let data :=
      foldl (fun data j =>
               <[j := quantize (radius this) (cutoff this)
                               (a_grid o) (a_grid i) j]> data)
            data (seq 0 (width m * height m)) in
    (Glyph data m,
     {| buffer := buffer this; cutoff := cutoff this; radius := radius this;
        size := size this; ctx := ctx this ++ calls;
        gridOuter := a_grid o; gridInner := a_grid i;
        f := a_f i; z := a_z i; v := a_v i |}).

(** *** Notions the theorems are stated with *)

(** The instance [this] with other scratch arrays. *)
Definition with_scratch (this : TinySDF num) (f' : list num) (v' : list nat)
    (z' : list num) : TinySDF num :=
  {| buffer := buffer this; cutoff := cutoff this; radius := radius this;
     size := size this; ctx := ctx this;
     gridOuter := gridOuter this; gridInner := gridInner this;
     f := f'; z := z'; v := v' |}.

(** The sentinel stands for +infinity on a line of [n] samples when no
    index of the line is above it. *)
Definition sentinel_covers (n : nat) : Prop :=
  forall q, q < n -> nlt INF (idx q) = false.

(** Every index the stack holds up to position [k] was pushed before
    sample [q]. *)
Definition stack_below (q k : nat) (v : list nat) : Prop :=
  forall i r, i <= k -> v !! i = Some r -> r < q.

(** The top of the stack is closed by the sentinel (or lies past [z]). *)
Definition closed (k : nat) (z : list num) : Prop :=
  z !! S k = Some INF \/ z !! S k = None.

(** Two arrays of one length that hold the same elements below [n]. *)
Definition same_upto {A} (n : nat) (l1 l2 : list A) : Prop :=
  length l1 = length l2 /\ forall i, i < n -> l1 !! i = l2 !! i.

(** Two states of the second loop with the same stack. *)
Definition stacks_agree (st1 st2 : nat * list nat * list num) : Prop :=
  st1.1.1 = st2.1.1 /\
  same_upto (S st1.1.1) st1.1.2 st2.1.2 /\
  same_upto (S (S st1.1.1)) st1.2 st2.2.

(** Arrays that differ in the contents of the scratch arrays only. *)
Definition grids_agree (a1 a2 : arrays num) : Prop :=
  a_grid a1 = a_grid a2 /\
  length (a_f a1) = length (a_f a2) /\
  length (a_v a1) = length (a_v a2) /\
  length (a_z a1) = length (a_z a2).

(** The passes in the order the specification words them: every row, then
    every column. *)
Definition edt_rows_first (data : list num) (width height : nat)
    (f : list num) (v : list nat) (z : list num) : arrays num :=
  let a := foldl (row_pass width) (Arrays data f v z) (seq 0 height) in
  foldl (column_pass width height) a (seq 0 width).

(** The index of the grid cell the loops of [draw] write for the pixel
    [p = (x, y)] of the glyph. *)
Definition cell_index (width off : nat) (p : nat * nat) : nat :=
  (p.2 + off) * width + p.1 + off.

(** The mirror images of a [width] by [height] grid. *)
Definition hmirror (width height : nat) (g : list num) : list num :=
  flat_map (fun y => map (fun x => get g (y * width + (width - 1 - x)))
                         (seq 0 width))
           (seq 0 height).

Definition vmirror (width height : nat) (g : list num) : list num :=
  flat_map (fun y => map (fun x => get g ((height - 1 - y) * width + x))
                         (seq 0 width))
           (seq 0 height).

(** *** edt1d under a monitor

    The same three loops with [k] an integer, as in the source, and a fault
    ([None]) where the specification speaks of one: a divisor [q - r] that
    is zero, a read of [v] below index 0, or a [do ... while] that runs
    more often than the stack is high. *)

Fixpoint pop_checked (fuel : nat) (f : list num) (v : list nat)
    (z : list num) (q : nat) (k : Z) : option (Z * num) :=
  match fuel with
  | O => None
  | S fuel =>
      if (k <? 0)%Z then None
      else
        let r := v !! Z.to_nat k in
        if decide (r = Some q) then None
        else
          let s := intersection f q r in
          if le_at s (z !! Z.to_nat k) then
            let k := (k - 1)%Z in
            if (-1 <? k)%Z then pop_checked fuel f v z q k else Some (k, s)
          else Some (k, s)
  end.

Definition push_checked (f : list num)
    (st : option (Z * list nat * list num)) (q : nat)
  : option (Z * list nat * list num) :=
  match st with
  | None => None
  | Some (k, v, z) =>
      match pop_checked (S (Z.to_nat k)) f v z q k with
      | None => None
      | Some (k', s) =>
          let k := (k' + 1)%Z in
          Some (k, <[Z.to_nat k := ToUint16 q]> v,
                <[Z.to_nat (k + 1) := INF]> (<[Z.to_nat k := s]> z))
      end
  end.

Definition emit_checked (f : list num) (v : list nat) (z : list num)
    (offset stride : nat) (st : option (Z * list num)) (q : nat)
  : option (Z * list num) :=
  match st with
  | None => None
  | Some (k, grid) =>
      let k := Z.of_nat (advance z q (Z.to_nat k)) in
      if (k <? 0)%Z then None
      else
        let r := v !! Z.to_nat k in
        Some (k, <[offset + q * stride :=
                     (get_at f r
                      + (idx q - num_at r) * (idx q - num_at r))%num]> grid)
  end.

Definition edt1d_checked (grid : list num) (offset stride length : nat)
    (f : list num) (v : list nat) (z : list num) : option (arrays num) :=
  let v := <[0 := 0]> v in
  let z := <[0 := (- INF)%num]> z in
  let z := <[1 := INF]> z in
  let f := copy_line grid offset stride length f in
  match foldl (push_checked f) (Some (0%Z, v, z)) (seq 1 (length - 1)) with
  | None => None
  | Some (_, v, z) =>
      match foldl (emit_checked f v z offset stride) (Some (0%Z, grid))
                  (seq 0 length) with
      | None => None
      | Some (_, grid) => Some (Arrays grid f v z)
      end
  end.

End Program.

Arguments push : simpl never.
Arguments emit : simpl never.
Arguments edt1d : simpl never.
Arguments run : simpl never.

(** ** edt1d and edt with every array access checked

    The same loops, where a read or a write at an index outside its array
    is a fault ([None]) instead of [undefined] or a dropped store. *)

Section Strict.
Context {num : Type} {N : Number num}.

(** [a[i] = x] inside the array. *)
Definition store {A} (a : list A) (i : nat) (x : A) : option (list A) :=
  if decide (i < length a) then Some (<[i := x]> a) else None.

(** The [do ... while] loop: it reads [v[k]], [f[q]], [f[r]] and [z[k]]. *)
Fixpoint pop_strict (f : list num) (v : list nat) (z : list num) (q k : nat)
  : option (Z * num) :=
  match v !! k with
  | None => None
  | Some r =>
      match f !! q, f !! r, z !! k with
      | Some fq, Some fr, Some zk =>
          let s := ((fq - fr + idx q * idx q - idx r * idx r)
                    / (idx q - idx r) / idx 2)%num in
          if nle s zk then
            match k with
            | O => Some ((-1)%Z, s)
            | S k' => pop_strict f v z q k'
            end
          else Some (Z.of_nat k, s)
      | _, _, _ => None
      end
  end.

(** One turn of the second loop: it writes [v[k]], [z[k]] and [z[k + 1]]. *)
Definition push_strict (f : list num)
    (st : option (nat * list nat * list num)) (q : nat)
  : option (nat * list nat * list num) :=
  match st with
  | None => None
  | Some (k, v, z) =>
      match pop_strict f v z q k with
      | None => None
      | Some (k', s) =>
          let k := Z.to_nat (k' + 1) in
          match store v k (ToUint16 q) with
          | None => None
          | Some v =>
              match store z k s with
              | None => None
              | Some z =>
                  match store z (S k) INF with
                  | None => None
                  | Some z => Some (k, v, z)
                  end
              end
          end
      end
  end.

(** [while (z[k + 1] < q) k++], each turn reading [z[k + 1]]. *)
Fixpoint advance_strict (fuel : nat) (z : list num) (q k : nat)
  : option nat :=
  match fuel with
  | O => None
  | S fuel =>
      match z !! S k with
      | None => None
      | Some zk =>
          if nlt zk (idx q) then advance_strict fuel z q (S k) else Some k
      end
  end.

(** One turn of the third loop: it reads [v[k]] and [f[r]] and writes
    [grid[offset + q * stride]]. *)
Definition emit_strict (f : list num) (v : list nat) (z : list num)
    (offset stride : nat) (st : option (nat * list num)) (q : nat)
  : option (nat * list num) :=
  match st with
  | None => None
  | Some (k, grid) =>
      match advance_strict (length z) z q k with
      | None => None
      | Some k =>
          match v !! k with
          | None => None
          | Some r =>
              match f !! r with
              | None => None
              | Some fr =>
                  match store grid (offset + q * stride)
                              (fr + (idx q - idx r) * (idx q - idx r))%num
                  with
                  | None => None
                  | Some grid => Some (k, grid)
                  end
              end
          end
      end
  end.

(** One turn of the first loop: it reads [grid[offset + q * stride]] and
    writes [f[q]]. *)
Definition copy_strict (grid : list num) (offset stride : nat)
    (f : option (list num)) (q : nat) : option (list num) :=
  match f with
  | None => None
  | Some f =>
      match grid !! (offset + q * stride) with
      | None => None
      | Some x => store f q x
      end
  end.

Definition edt1d_strict (grid : list num) (offset stride length : nat)
    (f : list num) (v : list nat) (z : list num) : option (arrays num) :=
  match store v 0 0 with
  | None => None
  | Some v =>
      match store z 0 (- INF)%num with
      | None => None
      | Some z =>
          match store z 1 INF with
          | None => None
          | Some z =>
              match foldl (copy_strict grid offset stride) (Some f)
                          (seq 0 length) with
              | None => None
              | Some f =>
                  match foldl (push_strict f) (Some (0, v, z))
                              (seq 1 (length - 1)) with
                  | None => None
                  | Some (_, v, z) =>
                      match foldl (emit_strict f v z offset stride)
                                  (Some (0, grid)) (seq 0 length) with
                      | None => None
                      | Some (_, grid) => Some (Arrays grid f v z)
                      end
                  end
              end
          end
      end
  end.

(** A call of [edt1d] on the arrays as the call before left them. *)
Definition run_strict (a : option (arrays num)) (p : nat * nat * nat)
  : option (arrays num) :=
  match a with
  | None => None
  | Some a =>
      let '(offset, stride, length) := p in
      edt1d_strict (a_grid a) offset stride length (a_f a) (a_v a) (a_z a)
  end.

Definition edt_strict (data : list num) (width height : nat)
    (f : list num) (v : list nat) (z : list num) : option (arrays num) :=
  let a := foldl (fun a x => run_strict a (x, width, height))
                 (Some (Arrays data f v z)) (seq 0 width) in
  foldl (fun a y => run_strict a (y * width, 1, width)) a (seq 0 height).

End Strict.

(** ** The carrier the program runs on: IEEE-754 binary64 *)

Definition f64_of_Z (n : Z) : float :=
  if (n <? 0)%Z then (- of_uint63 (Uint63.of_Z (- n)))%float
  else of_uint63 (Uint63.of_Z n).

(** [Math.max] on two arguments: NaN wins, and +0 is above -0. *)
Definition f64_max (a b : float) : float :=
  if is_nan a || is_nan b then nan
  else if (a <? b)%float then b
  else if (b <? a)%float then a
  else if get_sign a then b else a.

(** [Math.round]: the integer nearest to [x], a tie going up; computed on the
    exact value [m * 2 ^ e] of [x]. *)
Definition f64_round (x : float) : float :=
  match Prim2SF x with
  | S754_finite sg m e =>
      if (0 <=? e)%Z then x
      else
        let n := (((if sg then Z.neg m else Z.pos m) * 2 + 2 ^ (- e))
                  / 2 ^ (- e + 1))%Z in
        if (n =? 0)%Z then (if sg then (-0)%float else 0%float)
        else f64_of_Z n
  | _ => x
  end.

(** The integer nearest to [m * 2 ^ e], a tie going to the even one. *)
Definition round_half_even (m e : Z) : Z :=
  if (0 <=? e)%Z then (m * 2 ^ e)%Z
  else
    let d := (2 ^ (- e))%Z in
    let fl := (m / d)%Z in
    let rem := (m mod d)%Z in
    if (d <? 2 * rem)%Z then (fl + 1)%Z
    else if (2 * rem <? d)%Z then fl
    else if Z.even fl then fl else (fl + 1)%Z.

Definition clamp_byte (n : Z) : nat := Z.to_nat (Z.max 0 (Z.min 255 n)).

(** The conversion of a store into a Uint8ClampedArray: NaN is 0, and any
    other value is rounded to the nearest integer, a tie going to the even
    one, and clamped to [0, 255]. *)
Definition f64_to_uint8_clamp (x : float) : nat :=
  match Prim2SF x with
  | S754_finite sg m e =>
      clamp_byte (round_half_even (if sg then Z.neg m else Z.pos m) e)
  | S754_infinity sg => if sg then 0 else 255
  | _ => 0
  end.

#[global] Instance F64 : Number float := {|
  INF := 1e20%float;
  NaN := nan;
  half := 0.5%float;
  idx := fun n => of_uint63 (Uint63.of_Z (Z.of_nat n));
  nadd := PrimFloat.add;
  nsub := PrimFloat.sub;
  nmul := PrimFloat.mul;
  ndiv := PrimFloat.div;
  nneg := PrimFloat.opp;
  nlt := PrimFloat.ltb;
  nle := PrimFloat.leb;
  nseq := PrimFloat.eqb;
  Math_sqrt := PrimFloat.sqrt;
  Math_max := f64_max;
  Math_round := f64_round;
  ToUint8Clamp := f64_to_uint8_clamp;
|}.

(** [below_sentinel n i]: none of the [n] integers from [i] on is above the
    sentinel once converted. *)
Fixpoint below_sentinel (n : nat) (i : Z) : bool :=
  match n with
  | O => true
  | S n => negb (1e20 <? of_uint63 (Uint63.of_Z i))%float
           && below_sentinel n (i + 1)
  end.

(** ** The same operations without rounding: the real numbers

    There is no NaN among the reals; [NaN] is 0 here, and the theorems
    about this carrier assume arrays long enough for every read. *)

Definition R_lt (x y : R) : bool := if Rlt_dec x y then true else false.
Definition R_le (x y : R) : bool := if Rle_dec x y then true else false.
Definition R_eq (x y : R) : bool := if Req_dec_T x y then true else false.
Definition R_floor (x : R) : Z := (up x - 1)%Z.
Definition R_round (x : R) : R := IZR (R_floor (x + / 2)).

Definition R_to_uint8_clamp (x : R) : nat :=
  let fl := R_floor x in
  clamp_byte (if Rlt_dec (IZR fl + / 2) x then fl + 1
              else if Rlt_dec x (IZR fl + / 2) then fl
              else if Z.even fl then fl else fl + 1)%Z.

#[global] Instance Exact : Number R := {|
  INF := 1e20%R;
  NaN := 0%R;
  half := (/ 2)%R;
  idx := INR;
  nadd := Rplus;
  nsub := Rminus;
  nmul := Rmult;
  ndiv := Rdiv;
  nneg := Ropp;
  nlt := R_lt;
  nle := R_le;
  nseq := R_eq;
  Math_sqrt := R_sqrt.sqrt;
  Math_max := Rmax;
  Math_round := R_round;
  ToUint8Clamp := R_to_uint8_clamp;
|}.

(** ** getMetrics (index.js, lines 43-65) *)

(** The functions of [Math] that [getMetrics] calls. *)
Class Rounding (num : Type) : Type := {
  Math_floor : num -> num;
  Math_ceil : num -> num;
  Math_min : num -> num -> num;
}.

(** What [ctx.measureText(char)] answers, as far as [getMetrics] reads
    it. *)
Record TextMetrics (num : Type) : Type := mkTextMetrics {
  tm_width : num;                     (* the field [width] *)
  actualBoundingBoxAscent : num;
  actualBoundingBoxDescent : num;
  actualBoundingBoxLeft : num;
  actualBoundingBoxRight : num;
}.

(** The object [getMetrics] returns; every field is a number. *)
Record measured (num : Type) : Type := Measured {
  m_width : num;
  m_height : num;
  m_glyphWidth : num;
  m_glyphHeight : num;
  m_glyphTop : num;
  m_glyphLeft : num;
  m_glyphAdvance : num;
}.

Arguments mkTextMetrics {num}.
Arguments tm_width {num}.
Arguments actualBoundingBoxAscent {num}.
Arguments actualBoundingBoxDescent {num}.
Arguments actualBoundingBoxLeft {num}.
Arguments actualBoundingBoxRight {num}.
Arguments Measured {num}.
Arguments m_width {num}.
Arguments m_height {num}.
Arguments m_glyphWidth {num}.
Arguments m_glyphHeight {num}.
Arguments m_glyphTop {num}.
Arguments m_glyphLeft {num}.
Arguments m_glyphAdvance {num}.

Section Metrics.
Context {num : Type} {N : Number num} {Rd : Rounding num}.

(** [getMetrics(char)], given the answer [tm] of [ctx.measureText(char)];
    [this.size] and [this.buffer] are read as numbers. *)
Definition getMetrics (this : TinySDF num) (tm : TextMetrics num)
  : measured num :=
  let glyphAdvance := tm_width tm in
  let glyphTop := Math_floor (actualBoundingBoxAscent tm) in
  let glyphLeft := idx 0 in
  let glyphWidth :=
    Math_min (idx (size this) - idx (buffer this))%num
             (Math_ceil (actualBoundingBoxRight tm
                         - actualBoundingBoxLeft tm)%num) in
  let glyphHeight :=
    Math_min (idx (size this) - idx (buffer this))%num
             (Math_ceil (actualBoundingBoxAscent tm
                         + actualBoundingBoxDescent tm)%num) in
  let width := (glyphWidth + idx 2 * idx (buffer this))%num in
  let height := (glyphHeight + idx 2 * idx (buffer this))%num in
  Measured width height glyphWidth glyphHeight glyphTop glyphLeft
           glyphAdvance.

(** An integer as a number. *)
Definition idz (t : Z) : num :=
  if (t <? 0)%Z then (- idx (Z.to_nat (- t)))%num else idx (Z.to_nat t).

(** The metrics [m], whose sizes are natural numbers and whose offsets are
    integers, are the numbers [r] that [getMetrics] returned: [m] is what
    [draw] destructures when it is passed [r]. *)
Definition represents (r : measured num) (m : metrics num) : Prop :=
  m_width r = idx (width m) /\
  m_height r = idx (height m) /\
  m_glyphWidth r = idx (glyphWidth m) /\
  m_glyphHeight r = idx (glyphHeight m) /\
  m_glyphTop r = idz (glyphTop m) /\
  m_glyphLeft r = idz (glyphLeft m) /\
  m_glyphAdvance r = glyphAdvance m.

(** The instance after a sequence of calls of [draw], each with its
    character, its metrics and the pixels the canvas answered. *)
Definition draws (this : TinySDF num)
    (calls : list (string * metrics num * list nat)) : TinySDF num :=
  foldl (fun this c => (draw this c.1.1 c.1.2 c.2).2) this calls.

End Metrics.

(** [Math.floor], computed on the exact value [m * 2 ^ e] of [x]. *)
Definition f64_floor (x : float) : float :=
  match Prim2SF x with
  | S754_finite sg m e =>
      if (0 <=? e)%Z then x
      else f64_of_Z ((if sg then Z.neg m else Z.pos m) / 2 ^ (- e))%Z
  | _ => x
  end.

(** [Math.ceil]; a value between -1 and 0 gives -0. *)
Definition f64_ceil (x : float) : float :=
  match Prim2SF x with
  | S754_finite sg m e =>
      if (0 <=? e)%Z then x
      else
        let n := (- ((if sg then Z.pos m else Z.neg m) / 2 ^ (- e)))%Z in
        if (n =? 0)%Z then (if sg then (-0)%float else 0%float)
        else f64_of_Z n
  | _ => x
  end.

(** [Math.min] on two arguments: NaN wins, and -0 is below +0. *)
Definition f64_min (a b : float) : float :=
  if is_nan a || is_nan b then nan
  else if (a <? b)%float then a
  else if (b <? a)%float then b
  else if get_sign a then a else b.

#[global] Instance F64_rounding : Rounding float := {|
  Math_floor := f64_floor;
  Math_ceil := f64_ceil;
  Math_min := f64_min;
|}.

Definition R_ceil (x : R) : Z := (- R_floor (- x))%Z.

#[global] Instance Exact_rounding : Rounding R := {|
  Math_floor := fun x => IZR (R_floor x);
  Math_ceil := fun x => IZR (R_ceil x);
  Math_min := Rmin;
|}.

(** ** The lower envelope of parabolas, in exact arithmetic *)

(** The parabola rooted at sample [r] of a line with costs [c]. *)
Definition parabola (c : nat -> R) (r : nat) (x : R) : R :=
  (c r + (x - INR r) * (x - INR r))%R.

(** The abscissa where the parabolas of [a] and [b] meet. *)
Definition meet (c : nat -> R) (a b : nat) : R :=
  ((c b - c a + INR b * INR b - INR a * INR a) / (INR b - INR a) / 2)%R.

(** [m] is the least value at [q] of the parabolas of the [n] samples. *)
Definition lower_env (c : nat -> R) (n q : nat) (m : R) : Prop :=
  (exists r, r < n /\ m = parabola c r (INR q)) /\
  (forall r, r < n -> (m <= parabola c r (INR q))%R).

(** That least value, over the samples 0 to [n]. *)
Fixpoint envelope (c : nat -> R) (q : nat) (n : nat) : R :=
  match n with
  | O => parabola c 0 (INR q)
  | S n' => Rmin (envelope c q n') (parabola c n (INR q))
  end.

(** The one-dimensional distance transform of a line of [n] samples. *)
Definition dt (c : nat -> R) (n q : nat) : R := envelope c q (n - 1).

(** The scratch arrays can hold a line of [n] samples, and [v] can hold
    its indices. *)
Definition scratch_fits {num} (n : nat) (f : list num) (v : list nat)
    (z : list num) : Prop :=
  n <= 2 ^ 16 /\ n <= length f /\ n <= length v /\ n < length z.

(** What [edt] computes in exact arithmetic: the lower envelope along the
    column of a cell, then along its row. *)
Definition dt2 (g : list R) (width height x y : nat) : R :=
  dt (fun x' => dt (fun y' => get g (y' * width + x')) height y) width x.

(** The index at position [i] of the stack. *)
Definition vat (v : list nat) (i : nat) : nat := default 0 (v !! i).

(** The state of the second loop of [edt1d], before sample [q] is taken:
    a stack of height [k + 1] that is the lower envelope of the parabolas of
    the samples below [q], for every abscissa from 0 on. *)
Record stack_inv (f : list R) (q k : nat) (v : list nat) (z : list R)
  : Prop := StackInv {
  si_k : k < q;
  si_lenv : k < length v;
  si_lenz : S k < length z;
  si_below : forall i, i <= k -> vat v i < q;
  si_sorted : forall i, i < k -> vat v i < vat v (S i);
  si_meet : forall i, i < k ->
    get z (S i) = meet (get f) (vat v i) (vat v (S i));
  si_incr : forall i, i < k -> (get z i < get z (S i))%R;
  si_z0 : (get z 0 < 0)%R;
  si_top : get z (S k) = 1e20%R;
  si_cover : forall r x, r < q ->
    exists i, i <= k /\
      (parabola (get f) (vat v i) (INR x)
       <= parabola (get f) r (INR x))%R;
}.

(** The parabolas of the stack up to [k], with that of sample [q], lie
    below every parabola up to [q], from abscissa 0 on. *)
Definition covers (f : list R) (v : list nat) (q k : nat) : Prop :=
  forall r x, r <= q ->
    (exists i, i <= k /\
       (parabola (get f) (vat v i) (INR x)
        <= parabola (get f) r (INR x))%R)
    \/ (parabola (get f) q (INR x) <= parabola (get f) r (INR x))%R.

(** What the passes compute in exact arithmetic when the rows come first. *)
Definition dt2_rows_first (g : list R) (width height x y : nat) : R :=
  dt (fun y' => dt (fun x' => get g (y' * width + x')) width x) height y.

(** [m] is the least value of [cost + squared distance] to the cell
    (x, y) over the cells of the grid. *)
Definition lower_env2 (g : list R) (width height x y : nat) (m : R) : Prop :=
  (exists x' y', x' < width /\ y' < height /\
     m = (get g (y' * width + x')
          + (INR x - INR x') * (INR x - INR x')
          + (INR y - INR y') * (INR y - INR y'))%R) /\
  (forall x' y', x' < width -> y' < height ->
     (m <= get g (y' * width + x')
           + (INR x - INR x') * (INR x - INR x')
           + (INR y - INR y') * (INR y - INR y'))%R).

(** ** Concrete inputs *)

(** A [TinySDF] with font size 24 and the default options; the metrics of
    a space (nothing drawn, a canvas of twice the buffer), of a glyph of no
    width but five pixels high, and of a glyph of one pixel. *)
Definition sdf24 : TinySDF float := new_TinySDF 24 3 8%float 0.25%float.
Definition space_metrics : metrics float := Metrics 6 6 0 0 0 0 6%float.
Definition bar_metrics : metrics float := Metrics 6 11 0 5 5 0 1%float.

(** The seed of a pixel of alpha 4/255 in [gridOuter]. *)
Definition faint : float := outer_seed (alpha [0; 0; 0; 4] 1 0 0).

(** [edt] on a grid with one zero cell gives the squared distances, on
    binary64, checked cell by cell.  Subtraction on [nat] stops at 0, so
    the sum of the two products is the square of the difference. *)
Definition single_zero_ok (w h x0 y0 : nat) : bool :=
  let g := flat_map (fun y => map (fun x =>
             if (x =? x0) && (y =? y0) then 0%float else 1e20%float)
             (seq 0 w)) (seq 0 h) in
  let out := a_grid (edt g w h (replicate (Nat.max w h) 0%float)
                         (replicate (Nat.max w h) 0)
                         (replicate (S (Nat.max w h)) 0%float)) in
  forallb (fun y => forallb (fun x =>
     match out !! (y * w + x) with
     | Some d => PrimFloat.eqb d
                   (idx (((x - x0) * (x - x0) + (x0 - x) * (x0 - x))
                         + ((y - y0) * (y - y0) + (y0 - y) * (y0 - y))))
     | None => false
     end) (seq 0 w)) (seq 0 h).

Definition single_zero_upto (n : nat) : bool :=
  forallb (fun w => forallb (fun h => forallb (fun x0 => forallb (fun y0 =>
    single_zero_ok w h x0 y0) (seq 0 h)) (seq 0 w)) (seq 1 n)) (seq 1 n).

(** The seeds of a pixel whose alpha byte is [b], checked on binary64: the
    inner seed is +0 and the outer seed positive below 128, the outer seed
    is +0 and the inner seed positive from 128 on, and a seed is the
    sentinel for the byte 0 (outer) or 255 (inner) and below 1/4
    otherwise. *)
Definition pixel_seeds_ok (b : nat) : bool :=
  let a := (idx b / idx 255)%num in
  let o := outer_seed a in
  let i := inner_seed a in
  (if b <? 128 then Leibniz.eqb i 0%float && (0 <? o)%float
   else Leibniz.eqb o 0%float && (0 <? i)%float)
  && (if b =? 0 then Leibniz.eqb o 1e20%float else (o <? 0.25)%float)
  && (if b =? 255 then Leibniz.eqb i 1e20%float else (i <? 0.25)%float).

(** An instance with the default options on the exact carrier, and what
    [measureText] may answer for a glyph 4 wide that rises 5 above the
    baseline and sinks 1 below it. *)
Definition sdf24_exact : TinySDF R := new_TinySDF 24 3 8%R (/ 4)%R.
Definition box_4_by_6 : TextMetrics R :=
  mkTextMetrics 10%R 5%R 1%R 0%R 4%R.

(** * Theorems *)

(** ** What a pass writes and what it leaves alone *)

Section Frame.
Context {num : Type} {N : Number num}.
Implicit Types (grid f z : list num) (v : list nat).

Lemma edt1d_unfold grid offset stride length f v z :
  edt1d grid offset stride length f v z =
  let f' := copy_line grid offset stride length f in
  let st := foldl (push f')
                  (0, <[0 := 0]> v, <[1 := INF]> (<[0 := (- INF)%num]> z))
                  (seq 1 (length - 1)) in
  let out := foldl (emit f' st.1.2 st.2 offset stride) (0, grid)
                   (seq 0 length) in
  Arrays out.2 f' st.1.2 st.2.
Proof.
  unfold edt1d, copy_line. cbv zeta.
  destruct (foldl (push _) _ _) as [[k1 v1] z1].
  destruct (foldl (emit _ _ _ _ _) _ _) as [k2 g2]. reflexivity.
Qed.

Lemma advance_unfold z q k :
  advance z q k =
  match z !! S k with
  | Some zk => if nlt zk (idx q) then advance z q (S k) else k
  | None => k
  end.
Proof.
  unfold advance. destruct (z !! S k) as [zk|] eqn:E.
  - rewrite (drop_S _ _ _ E). reflexivity.
  - rewrite drop_ge; [reflexivity|]. by apply lookup_ge_None.
Qed.

Lemma emit_length f v z offset stride st q :
  length (emit f v z offset stride st q).2 = length st.2.
Proof.
  destruct st as [k grid]. unfold emit. simpl. by rewrite length_insert.
Qed.

Lemma emit_frame f v z offset stride st q j :
  j <> offset + q * stride ->
  (emit f v z offset stride st q).2 !! j = st.2 !! j.
Proof.
  intros Hj. destruct st as [k grid]. unfold emit. simpl.
  by apply list_lookup_insert_ne.
Qed.

Lemma emit_fold_length f v z offset stride qs st :
  length (foldl (emit f v z offset stride) st qs).2 = length st.2.
Proof.
  revert st. induction qs as [|q qs IH]; intros st; [done|].
  simpl. rewrite IH. apply emit_length.
Qed.

Lemma emit_fold_frame f v z offset stride qs st j :
  (forall q, q ∈ qs -> j <> offset + q * stride) ->
  (foldl (emit f v z offset stride) st qs).2 !! j = st.2 !! j.
Proof.
  revert st. induction qs as [|q qs IH]; intros st Hj; [done|].
  simpl. rewrite IH.
  - apply emit_frame. apply Hj. left.
  - intros q' Hq'. apply Hj. by right.
Qed.

Lemma foldl_insert_seq_length {A} (g : nat -> A) n a (l : list A) :
  length (foldl (fun l q => <[q := g q]> l) l (seq a n)) = length l.
Proof.
  revert a l. induction n as [|n IH]; intros a l; [done|].
  simpl. rewrite IH. by rewrite length_insert.
Qed.

Lemma foldl_insert_seq_lookup {A} (g : nat -> A) n a (l : list A) q :
  foldl (fun l q => <[q := g q]> l) l (seq a n) !! q
  = if decide (a <= q < a + n /\ q < length l) then Some (g q) else l !! q.
Proof.
  revert a l. induction n as [|n IH]; intros a l.
  { simpl. case_decide; [lia|done]. }
  simpl. rewrite IH, length_insert.
  destruct (decide (q = a)) as [->|Hne].
  - rewrite decide_False by lia.
    destruct (decide (a < length l)).
    + rewrite decide_True by lia. by apply list_lookup_insert_eq.
    + rewrite decide_False by lia. rewrite list_insert_ge by lia. done.
  - rewrite list_lookup_insert_ne by done.
    destruct (decide (a <= q < a + S n /\ q < length l)).
    + rewrite decide_True by lia. done.
    + rewrite decide_False by lia. done.
Qed.

Lemma copy_line_length grid offset stride length f :
  Datatypes.length (copy_line grid offset stride length f) = Datatypes.length f.
Proof. apply foldl_insert_seq_length. Qed.

Lemma copy_line_lookup grid offset stride length f q :
  copy_line grid offset stride length f !! q
  = if decide (q < length /\ q < Datatypes.length f)
    then Some (get grid (offset + q * stride)) else f !! q.
Proof.
  unfold copy_line.
  rewrite (foldl_insert_seq_lookup (fun q => get grid (offset + q * stride))).
  repeat case_decide; try lia; done.
Qed.

(** The transform keeps the length of every array. *)
Lemma push_length f st q :
  length (push f st q).1.2 = length st.1.2 /\
  length (push f st q).2 = length st.2.
Proof.
  destruct st as [[k v] z]. unfold push.
  destruct (pop f v z q k) as [k' s]. simpl.
  by rewrite !length_insert.
Qed.

Lemma push_fold_length f qs st :
  length (foldl (push f) st qs).1.2 = length st.1.2 /\
  length (foldl (push f) st qs).2 = length st.2.
Proof.
  revert st. induction qs as [|q qs IH]; intros st; [done|].
  simpl. destruct (IH (push f st q)) as [-> ->]. apply push_length.
Qed.

Lemma edt1d_length grid offset stride length f v z :
  let a := edt1d grid offset stride length f v z in
  Datatypes.length (a_grid a) = Datatypes.length grid /\
  Datatypes.length (a_f a) = Datatypes.length f /\
  Datatypes.length (a_v a) = Datatypes.length v /\
  Datatypes.length (a_z a) = Datatypes.length z.
Proof.
  rewrite edt1d_unfold. cbv zeta. simpl.
  rewrite emit_fold_length, copy_line_length.
  destruct (push_fold_length (copy_line grid offset stride length f)
              (seq 1 (length - 1))
              (0, <[0:=0]> v, <[1:=INF]> (<[0:=(- INF)%num]> z))) as [Hv Hz].
  rewrite Hv, Hz. simpl. by rewrite !length_insert.
Qed.

Lemma edt1d_frame_cell grid offset stride length f v z j :
  (forall i, i < length -> j <> offset + i * stride) ->
  a_grid (edt1d grid offset stride length f v z) !! j = grid !! j.
Proof.
  intros Hj. rewrite edt1d_unfold. cbv zeta. simpl.
  rewrite emit_fold_frame; [done|]. intros q Hq. apply Hj.
  apply elem_of_seq in Hq. lia.
Qed.

(** C10: a call [edt1d(grid, offset, stride, length, f, v, z)] changes no
    element of [grid] other than [grid[offset + i * stride]] for
    [0 <= i < length]; so the pass over column [x] leaves every other column
    as it was, and the pass over row [y] leaves every other row as it was. *)
Theorem edt1d_frame grid f v z :
  (forall offset stride length j,
     (forall i, i < length -> j <> offset + i * stride) ->
     a_grid (edt1d grid offset stride length f v z) !! j = grid !! j) /\
  (forall width height x j, x < width -> j mod width <> x ->
     a_grid (edt1d grid x width height f v z) !! j = grid !! j) /\
  (forall width y j, j `div` width <> y ->
     a_grid (edt1d grid (y * width) 1 width f v z) !! j = grid !! j).
Proof.
  split; [|split].
  - intros. by apply edt1d_frame_cell.
  - intros width height x j Hx Hj. apply edt1d_frame_cell.
    intros i _ ->. apply Hj.
    rewrite Nat.Div0.mod_add. by apply Nat.mod_small.
  - intros width y j Hj. apply edt1d_frame_cell.
    intros i Hi ->. apply Hj.
    rewrite Nat.mul_1_r, Nat.add_comm, Nat.div_add by lia.
    rewrite Nat.div_small by done. done.
Qed.
End Frame.

(** ** The scratch arrays carry nothing from one pass to the next *)

Section Scratch.
Context {num : Type} {N : Number num}.
Implicit Types (grid f z : list num) (v : list nat).

Lemma ToUint16_le q : ToUint16 q <= q.
Proof.
  unfold ToUint16. pose proof (Z.mod_le (Z.of_nat q) (2 ^ 16)). lia.
Qed.

Lemma ToUint16_small q : q < 2 ^ 16 -> ToUint16 q = q.
Proof.
  intros Hq. unfold ToUint16. apply Nat2Z.inj_lt in Hq.
  rewrite Nat2Z.inj_pow in Hq. rewrite Z.mod_small; lia.
Qed.

Lemma pop_range f v z q k :
  (-1 <= (pop f v z q k).1 <= Z.of_nat k)%Z.
Proof.
  induction k as [|k IH]; simpl.
  - destruct (le_at _ _); simpl; lia.
  - destruct (le_at _ _); simpl; lia.
Qed.

Lemma push_inv f q k v z :
  stack_below q k v ->
  (push f (k, v, z) q).1.1 <= S k /\
  stack_below (S q) (push f (k, v, z) q).1.1 (push f (k, v, z) q).1.2 /\
  closed (push f (k, v, z) q).1.1 (push f (k, v, z) q).2.
Proof.
  intros Hb. unfold push.
  pose proof (pop_range f v z q k) as Hr.
  destruct (pop f v z q k) as [k' s]. simpl in *.
  set (kn := Z.to_nat (k' + 1)).
  assert (Hkn : kn <= S k) by lia.
  split; [done|]. split.
  - intros i r Hi Hl. destruct (decide (i = kn)) as [->|Hne].
    + destruct (decide (kn < length v)).
      * rewrite list_lookup_insert_eq in Hl by done.
        injection Hl as <-. pose proof (ToUint16_le q). lia.
      * rewrite list_insert_ge in Hl by lia.
        apply lookup_lt_Some in Hl. lia.
    + rewrite list_lookup_insert_ne in Hl by done.
      assert (r < q); [|lia]. apply (Hb i); [lia|done].
  - unfold closed. destruct (decide (S kn < length z)).
    + left. apply list_lookup_insert_eq. by rewrite length_insert.
    + right. apply lookup_ge_None. rewrite !length_insert. lia.
Qed.

Lemma push_fold_inv f n a k v z :
  stack_below a k v -> closed k z ->
  (foldl (push f) (k, v, z) (seq a n)).1.1 <= k + n /\
  stack_below (a + n) (foldl (push f) (k, v, z) (seq a n)).1.1
              (foldl (push f) (k, v, z) (seq a n)).1.2 /\
  closed (foldl (push f) (k, v, z) (seq a n)).1.1
         (foldl (push f) (k, v, z) (seq a n)).2.
Proof.
  revert a k v z. induction n as [|n IH]; intros a k v z Hb Hc.
  { simpl. rewrite !Nat.add_0_r. auto. }
  simpl. destruct (push_inv f a k v z Hb) as (Hk & Hb' & Hc').
  destruct (push f (k, v, z) a) as [[k1 v1] z1]. simpl in *.
  destruct (IH (S a) k1 v1 z1 Hb' Hc') as (Hk2 & Hb2 & Hc2).
  split; [lia|]. split; [|done].
  replace (a + S n) with (S a + n) by lia. done.
Qed.


Lemma same_upto_insert {A} n m i (x : A) l1 l2 :
  same_upto n l1 l2 -> (forall j, j < m -> j < n \/ j = i) ->
  same_upto m (<[i := x]> l1) (<[i := x]> l2).
Proof.
  intros [Hlen Hag] Hm. split; [by rewrite !length_insert|].
  intros j Hj. destruct (decide (j = i)) as [->|Hne].
  - destruct (decide (i < length l1)).
    + rewrite !list_lookup_insert_eq by lia. done.
    + rewrite !list_insert_ge by lia.
      rewrite !(proj2 (lookup_ge_None _ _)) by lia. done.
  - rewrite !list_lookup_insert_ne by done.
    destruct (Hm j Hj); [by apply Hag|done].
Qed.

Lemma same_upto_weaken {A} n m (l1 l2 : list A) :
  same_upto n l1 l2 -> m <= n -> same_upto m l1 l2.
Proof. intros [Hlen Hag] Hm. split; [done|]. intros i Hi. apply Hag. lia. Qed.

Lemma same_upto_get n f1 f2 i :
  same_upto n f1 f2 -> i < n -> get f1 i = get f2 i.
Proof. intros [_ Hag] Hi. unfold get. by rewrite Hag. Qed.

Lemma intersection_agree n f1 f2 q r :
  same_upto n f1 f2 -> q < n -> (forall r', r = Some r' -> r' < q) ->
  intersection f1 q r = intersection f2 q r.
Proof.
  intros Hf Hq Hr. unfold intersection.
  rewrite (same_upto_get n f1 f2 q Hf Hq).
  destruct r as [r'|]; simpl; [|done].
  rewrite (same_upto_get n f1 f2 r' Hf); [done|].
  specialize (Hr r' eq_refl). lia.
Qed.

Lemma pop_agree n f1 f2 v1 v2 z1 z2 q k :
  same_upto n f1 f2 -> q < n ->
  same_upto (S k) v1 v2 -> same_upto (S k) z1 z2 ->
  stack_below q k v1 ->
  pop f1 v1 z1 q k = pop f2 v2 z2 q k.
Proof.
  intros Hf Hq. induction k as [|k IH]; intros Hv Hz Hb; simpl.
  - rewrite <- (proj2 Hv 0), <- (proj2 Hz 0) by lia.
    rewrite (intersection_agree n f1 f2) by (eauto using Nat.le_refl).
    done.
  - rewrite <- (proj2 Hv (S k)), <- (proj2 Hz (S k)) by lia.
    rewrite (intersection_agree n f1 f2) by (eauto using Nat.le_refl).
    destruct (le_at _ _); [|done]. apply IH.
    + eapply same_upto_weaken; [done|lia].
    + eapply same_upto_weaken; [done|lia].
    + intros i r Hi. apply Hb. lia.
Qed.

Lemma push_agree n f1 f2 st1 st2 q :
  same_upto n f1 f2 -> q < n ->
  stacks_agree st1 st2 -> stack_below q st1.1.1 st1.1.2 ->
  stacks_agree (push f1 st1 q) (push f2 st2 q).
Proof.
  intros Hf Hq (Hk & Hv & Hz) Hb.
  destruct st1 as [[k v1] z1], st2 as [[k2 v2] z2]. simpl in *. subst k2.
  unfold push.
  rewrite <- (pop_agree n f1 f2 v1 v2 z1 z2 q k) by
    (eauto using same_upto_weaken).
  pose proof (pop_range f1 v1 z1 q k) as Hr.
  destruct (pop f1 v1 z1 q k) as [k' s]. simpl in *.
  set (kn := Z.to_nat (k' + 1)).
  assert (Hkn : kn <= S k) by lia.
  split; [done|]. split; simpl.
  - apply (same_upto_insert (S k)); [exact Hv|]. intros j Hj. lia.
  - apply (same_upto_insert (S (S k))).
    + apply (same_upto_insert (S (S k))); [exact Hz|]. intros j Hj. lia.
    + intros j Hj. lia.
Qed.

Lemma push_fold_agree n f1 f2 m a st1 st2 :
  same_upto n f1 f2 -> a + m <= n ->
  stacks_agree st1 st2 -> stack_below a st1.1.1 st1.1.2 ->
  stacks_agree (foldl (push f1) st1 (seq a m)) (foldl (push f2) st2 (seq a m)).
Proof.
  intros Hf. revert a st1 st2.
  induction m as [|m IH]; intros a st1 st2 Ha Hag Hb; [done|].
  simpl. apply IH; [lia| |].
  - eapply push_agree; eauto. lia.
  - destruct st1 as [[k v1] z1]. by apply push_inv.
Qed.

(** The cursor of the third loop stops at the sentinel. *)
Lemma advance_le z q k K :
  k <= K -> closed K z -> nlt INF (idx q) = false ->
  k <= advance z q k <= K.
Proof.
  intros Hk Hc Hq. remember (K - k) as d eqn:Hd.
  revert k Hk Hd. induction d as [|d IH]; intros k Hk Hd.
  - assert (k = K) as -> by lia. rewrite advance_unfold.
    destruct Hc as [-> | ->]; [rewrite Hq|]; lia.
  - rewrite advance_unfold. destruct (z !! S k) as [zk|]; [|lia].
    destruct (nlt zk (idx q)); [|lia].
    specialize (IH (S k)). lia.
Qed.

Lemma advance_agree z1 z2 q k K :
  k <= K -> same_upto (S (S K)) z1 z2 -> closed K z1 ->
  nlt INF (idx q) = false ->
  advance z1 q k = advance z2 q k.
Proof.
  intros Hk Hz Hc Hq. remember (K - k) as d eqn:Hd.
  revert k Hk Hd. induction d as [|d IH]; intros k Hk Hd.
  - assert (k = K) as -> by lia.
    rewrite (advance_unfold z1 q K), (advance_unfold z2 q K).
    rewrite <- (proj2 Hz (S K)) by lia.
    destruct Hc as [-> | ->]; [rewrite Hq|]; done.
  - rewrite (advance_unfold z1 q k), (advance_unfold z2 q k).
    rewrite <- (proj2 Hz (S k)) by lia.
    destruct (z1 !! S k) as [zk|]; [|done].
    destruct (nlt zk (idx q)); [|done].
    apply IH; lia.
Qed.

Lemma emit_fold_agree n f1 f2 v1 v2 z1 z2 offset stride K qs k grid :
  same_upto n f1 f2 ->
  same_upto (S K) v1 v2 -> same_upto (S (S K)) z1 z2 ->
  stack_below n K v1 -> closed K z1 ->
  (forall q, q ∈ qs -> q < n /\ nlt INF (idx q) = false) ->
  k <= K ->
  foldl (emit f1 v1 z1 offset stride) (k, grid) qs
  = foldl (emit f2 v2 z2 offset stride) (k, grid) qs.
Proof.
  intros Hf Hv Hz Hb Hc. revert k grid.
  induction qs as [|q qs IH]; intros k grid Hqs Hk; [done|].
  destruct (Hqs q) as [Hq Hinf]; [left|].
  simpl. unfold emit at 2 4.
  rewrite <- (advance_agree z1 z2 q k K) by done.
  pose proof (advance_le z1 q k K Hk Hc Hinf) as Hle.
  set (k' := advance z1 q k) in *.
  rewrite <- (proj2 Hv k') by lia.
  assert (Hget : get_at f1 (v1 !! k') = get_at f2 (v1 !! k')).
  { destruct (v1 !! k') as [r|] eqn:E; [|done]. simpl.
    apply (same_upto_get n); [done|]. apply (Hb k'); [lia|done]. }
  rewrite Hget. apply IH; [|lia].
  intros q' Hq'. apply Hqs. by right.
Qed.


Lemma copy_line_agree grid offset stride length f1 f2 :
  Datatypes.length f1 = Datatypes.length f2 ->
  same_upto length (copy_line grid offset stride length f1)
                   (copy_line grid offset stride length f2).
Proof.
  intros Hlen. split; [by rewrite !copy_line_length|].
  intros i Hi. rewrite !copy_line_lookup, <- Hlen.
  destruct (decide (i < Datatypes.length f1)).
  - rewrite !decide_True by lia. done.
  - rewrite !decide_False by lia.
    rewrite !(proj2 (lookup_ge_None _ _)) by lia. done.
Qed.

Lemma same_upto_0 {A} (l1 l2 : list A) :
  length l1 = length l2 -> same_upto 0 l1 l2.
Proof. intros H. split; [done|]. intros i Hi. lia. Qed.

Lemma stack_below_init v : stack_below 1 0 (<[0 := 0]> v).
Proof.
  intros i r Hi Hl. assert (i = 0) as -> by lia.
  destruct (decide (0 < length v)).
  - rewrite list_lookup_insert_eq in Hl by done. injection Hl as <-. lia.
  - rewrite list_insert_ge in Hl by lia. apply lookup_lt_Some in Hl. lia.
Qed.

Lemma closed_init z : closed 0 (<[1 := INF]> (<[0 := (- INF)%num]> z)).
Proof.
  unfold closed. destruct (decide (1 < length z)).
  - left. apply list_lookup_insert_eq. by rewrite length_insert.
  - right. apply lookup_ge_None. rewrite !length_insert. lia.
Qed.

Lemma edt1d_scratch grid offset stride length f1 v1 z1 f2 v2 z2 :
  sentinel_covers length ->
  Datatypes.length f1 = Datatypes.length f2 ->
  Datatypes.length v1 = Datatypes.length v2 ->
  Datatypes.length z1 = Datatypes.length z2 ->
  a_grid (edt1d grid offset stride length f1 v1 z1)
  = a_grid (edt1d grid offset stride length f2 v2 z2).
Proof.
  intros Hs Hf Hv Hz. rewrite !edt1d_unfold. cbv zeta. cbn [a_grid].
  destruct length as [|n]; [done|].
  pose proof (copy_line_agree grid offset stride (S n) f1 f2 Hf) as Hcp.
  set (f1' := copy_line grid offset stride (S n) f1) in *.
  set (f2' := copy_line grid offset stride (S n) f2) in *.
  set (st1 := (0, <[0:=0]> v1, <[1:=INF]> (<[0:=(- INF)%num]> z1))).
  set (st2 := (0, <[0:=0]> v2, <[1:=INF]> (<[0:=(- INF)%num]> z2))).
  assert (Hag0 : stacks_agree st1 st2).
  { split; [done|]. split; simpl.
    - apply (same_upto_insert 0); [by apply same_upto_0|]. intros; lia.
    - apply (same_upto_insert 1).
      + apply (same_upto_insert 0); [by apply same_upto_0|]. intros; lia.
      + intros; lia. }
  replace (S n - 1) with n by lia.
  pose proof (push_fold_agree (S n) f1' f2' n 1 st1 st2 Hcp
                ltac:(lia) Hag0 (stack_below_init v1)) as (Hk & Hv' & Hz').
  pose proof (push_fold_inv f1' n 1 0 (<[0:=0]> v1)
                (<[1:=INF]> (<[0:=(- INF)%num]> z1))
                (stack_below_init v1) (closed_init z1)) as (_ & Hb & Hc).
  fold st1 in Hb, Hc.
  destruct (foldl (push f1') st1 (seq 1 n)) as [[K w1] y1].
  destruct (foldl (push f2') st2 (seq 1 n)) as [[K2 w2] y2].
  cbn [fst snd] in *. subst K2.
  f_equal. apply (emit_fold_agree (S n) f1' f2' w1 w2 y1 y2 _ _ K); try done.
  - intros q Hq. apply elem_of_seq in Hq. split; [lia|]. apply Hs. lia.
  - lia.
Qed.


Lemma sentinel_covers_le n m :
  sentinel_covers n -> m <= n -> sentinel_covers m.
Proof. intros H Hm q Hq. apply H. lia. Qed.

Lemma run_agree n a1 a2 p :
  sentinel_covers n -> p.2 <= n ->
  grids_agree a1 a2 -> grids_agree (run a1 p) (run a2 p).
Proof.
  intros Hs Hp (Hg & Hf & Hv & Hz). destruct p as [[offset stride] len].
  unfold run. simpl in Hp. rewrite Hg.
  destruct (edt1d_length (a_grid a2) offset stride len
              (a_f a1) (a_v a1) (a_z a1)) as (_ & Hf1 & Hv1 & Hz1).
  destruct (edt1d_length (a_grid a2) offset stride len
              (a_f a2) (a_v a2) (a_z a2)) as (_ & Hf2 & Hv2 & Hz2).
  split; [|lia].
  apply edt1d_scratch; [|done..]. by apply (sentinel_covers_le n).
Qed.

Lemma run_fold_agree n ps a1 a2 :
  sentinel_covers n -> (forall p, p ∈ ps -> p.2 <= n) ->
  grids_agree a1 a2 -> grids_agree (foldl run a1 ps) (foldl run a2 ps).
Proof.
  intros Hs. revert a1 a2.
  induction ps as [|p ps IH]; intros a1 a2 Hp Ha; [done|].
  simpl. apply IH.
  - intros p' Hp'. apply Hp. by right.
  - apply (run_agree n); [done| |done]. apply Hp. left.
Qed.

(** The passes of [edt], in the order they run. *)
Lemma edt_passes data width height f v z :
  edt data width height f v z
  = foldl run (Arrays data f v z)
      (map (fun x => (x, width, height)) (seq 0 width)
       ++ map (fun y => (y * width, 1, width)) (seq 0 height)).
Proof.
  unfold edt. cbv zeta. rewrite foldl_app, !foldl_fmap. reflexivity.
Qed.

Lemma edt_scratch n data width height f1 v1 z1 f2 v2 z2 :
  sentinel_covers n -> width <= n -> height <= n ->
  length f1 = length f2 -> length v1 = length v2 -> length z1 = length z2 ->
  grids_agree (edt data width height f1 v1 z1) (edt data width height f2 v2 z2).
Proof.
  intros Hs Hw Hh Hf Hv Hz. rewrite !edt_passes.
  apply (run_fold_agree n); [done| |done].
  intros p Hp. apply elem_of_app in Hp as [Hp|Hp];
    apply list_elem_of_fmap in Hp as (x & -> & _); simpl; lia.
Qed.


Lemma draw_scratch n this char m imgData f' v' z' :
  sentinel_covers n -> width m <= n -> height m <= n ->
  length f' = length (f this) -> length v' = length (v this) ->
  length z' = length (z this) ->
  (draw (with_scratch this f' v' z') char m imgData).1
  = (draw this char m imgData).1.
Proof.
  intros Hs Hw Hh Hf Hv Hz. unfold draw. simpl.
  destruct ((glyphWidth m =? 0) || (glyphHeight m =? 0)); [done|].
  destruct (seed _ _ _ _ _ _ _) as [gO gI].
  destruct (edt_scratch n gO (width m) (height m) f' v' z'
              (f this) (v this) (z this) Hs Hw Hh Hf Hv Hz)
    as (Hg & Hf1 & Hv1 & Hz1).
  destruct (edt_scratch n gI (width m) (height m) _ _ _ _ _ _
              Hs Hw Hh Hf1 Hv1 Hz1) as (Hg2 & _).
  simpl. by rewrite Hg, Hg2.
Qed.

(** C9: the grid a pass of [edt1d] produces, hence the grid [edt] produces
    and the glyph [draw] returns, does not depend on what the scratch arrays
    [f], [v] and [z] held before: two runs that differ only in these
    contents give the same grid.  The lines are at most [n] long, where no
    index below [n] is above the sentinel. *)
Theorem scratch_independence (n : nat) (Hn : sentinel_covers n) :
  (forall grid offset stride len f1 v1 z1 f2 v2 z2,
     len <= n ->
     length f1 = length f2 -> length v1 = length v2 ->
     length z1 = length z2 ->
     a_grid (edt1d grid offset stride len f1 v1 z1)
     = a_grid (edt1d grid offset stride len f2 v2 z2)) /\
  (forall data width height f1 v1 z1 f2 v2 z2,
     width <= n -> height <= n ->
     length f1 = length f2 -> length v1 = length v2 ->
     length z1 = length z2 ->
     a_grid (edt data width height f1 v1 z1)
     = a_grid (edt data width height f2 v2 z2)) /\
  (forall this char m imgData f' v' z',
     width m <= n -> height m <= n ->
     length f' = length (f this) -> length v' = length (v this) ->
     length z' = length (z this) ->
     (draw (with_scratch this f' v' z') char m imgData).1
     = (draw this char m imgData).1).
Proof.
  split; [|split].
  - intros. apply edt1d_scratch; [|done..]. by apply (sentinel_covers_le n).
  - intros. by apply (edt_scratch n).
  - intros. by apply (draw_scratch n).
Qed.

End Scratch.

Lemma below_sentinel_spec n i q :
  below_sentinel n i = true -> (i <= Z.of_nat q < i + Z.of_nat n)%Z ->
  @nlt _ F64 (@INF _ F64) (@idx _ F64 q) = false.
Proof.
  revert i. induction n as [|n IH]; intros i Hb Hq; [lia|].
  simpl in Hb. apply andb_prop in Hb as [H1 H2].
  destruct (decide (i = Z.of_nat q)) as [->|Hne].
  - simpl. by apply negb_true_iff in H1.
  - apply (IH (i + 1)%Z); [done|lia].
Qed.

(** On binary64 the sentinel is above every index a Uint16Array can hold. *)
Lemma F64_sentinel : @sentinel_covers _ F64 (2 ^ 16).
Proof.
  intros q Hq. apply (below_sentinel_spec (2 ^ 16) 0).
  - vm_compute. reflexivity.
  - lia.
Qed.

(** ** No fault in a pass *)

Section Monitor.
Context {num : Type} {N : Number num}.
Implicit Types (grid f z : list num) (v : list nat).

Lemma pop_checked_ok f v z q k fuel :
  stack_below q k v -> k < fuel ->
  pop_checked fuel f v z q (Z.of_nat k) = Some (pop f v z q k).
Proof.
  revert fuel. induction k as [|k IH]; intros fuel Hb Hfuel;
    (destruct fuel as [|fuel]; [lia|]); cbn [pop_checked pop].
  - rewrite (proj2 (Z.ltb_ge _ _)) by lia.
    change (Z.to_nat (Z.of_nat 0)) with 0.
    rewrite decide_False.
    2:{ intros Hr. specialize (Hb 0 q (Nat.le_refl _) Hr). lia. }
    destruct (le_at _ _); reflexivity.
  - rewrite (proj2 (Z.ltb_ge _ _)) by lia. rewrite Nat2Z.id.
    rewrite decide_False.
    2:{ intros Hr. specialize (Hb (S k) q (Nat.le_refl _) Hr). lia. }
    destruct (le_at _ _); [|reflexivity].
    rewrite (proj2 (Z.ltb_lt _ _)) by lia.
    replace (Z.of_nat (S k) - 1)%Z with (Z.of_nat k) by lia.
    apply IH; [|lia]. intros i r Hi. apply Hb. lia.
Qed.

Lemma push_checked_ok f k v z q :
  stack_below q k v ->
  push_checked f (Some (Z.of_nat k, v, z)) q
  = Some (Z.of_nat (push f (k, v, z) q).1.1,
          (push f (k, v, z) q).1.2, (push f (k, v, z) q).2).
Proof.
  intros Hb. unfold push_checked, push. rewrite Nat2Z.id.
  rewrite (pop_checked_ok f v z q k (S k) Hb) by lia.
  pose proof (pop_range f v z q k) as Hr.
  destruct (pop f v z q k) as [k' s]. cbn [fst snd] in *.
  rewrite Z2Nat.id by lia.
  replace (Z.to_nat (k' + 1 + 1)) with (S (Z.to_nat (k' + 1))) by lia.
  reflexivity.
Qed.

Lemma push_checked_fold_ok f n a k v z :
  stack_below a k v ->
  foldl (push_checked f) (Some (Z.of_nat k, v, z)) (seq a n)
  = Some (Z.of_nat (foldl (push f) (k, v, z) (seq a n)).1.1,
          (foldl (push f) (k, v, z) (seq a n)).1.2,
          (foldl (push f) (k, v, z) (seq a n)).2).
Proof.
  revert a k v z. induction n as [|n IH]; intros a k v z Hb; [done|].
  cbn [seq foldl]. rewrite push_checked_ok by done.
  destruct (push_inv f a k v z Hb) as (_ & Hb' & _).
  destruct (push f (k, v, z) a) as [[k1 v1] z1]. cbn [fst snd] in *.
  by apply IH.
Qed.

Lemma emit_checked_fold_ok f v z offset stride qs k grid :
  foldl (emit_checked f v z offset stride) (Some (Z.of_nat k, grid)) qs
  = Some (Z.of_nat (foldl (emit f v z offset stride) (k, grid) qs).1,
          (foldl (emit f v z offset stride) (k, grid) qs).2).
Proof.
  revert k grid. induction qs as [|q qs IH]; intros k grid; [done|].
  cbn [foldl]. unfold emit_checked at 2, emit at 2 4.
  rewrite Nat2Z.id. rewrite (proj2 (Z.ltb_ge _ _)) by lia.
  rewrite Nat2Z.id. apply IH.
Qed.

(** C7: for every line, of any length and with any costs (a single sample,
    all sentinel, all zero), and whatever the arrays hold, [edt1d] runs to
    its end without a fault: no divisor [q - r] is zero, the
    [do ... while] loop stops after at most as many turns as the stack is
    high, also when it empties the stack, and no read of [v] is below
    index 0.  The monitored run returns what [edt1d] returns. *)
Theorem edt1d_never_faults grid offset stride length f v z :
  edt1d_checked grid offset stride length f v z
  = Some (edt1d grid offset stride length f v z).
Proof.
  unfold edt1d_checked. rewrite edt1d_unfold. cbv zeta.
  rewrite (push_checked_fold_ok _ _ 1 0) by apply stack_below_init.
  destruct (foldl (push _) _ _) as [[k1 v1] z1]. cbn [fst snd].
  rewrite (emit_checked_fold_ok _ _ _ _ _ _ 0).
  reflexivity.
Qed.

End Monitor.

(** ** The seeds of the two grids *)

Section Seed.
Context {num : Type} {N : Number num}.
Implicit Types (grid f z : list num) (v : list nat).

Lemma fill_length (a : list num) x n : length (fill a x n) = length a.
Proof. unfold fill. rewrite length_app, length_replicate, length_drop. lia. Qed.

Lemma fill_lookup (a : list num) x n i :
  i < n -> i < length a -> fill a x n !! i = Some x.
Proof.
  intros Hn Ha. unfold fill. rewrite lookup_app_l.
  - apply lookup_replicate_2. lia.
  - rewrite length_replicate. lia.
Qed.


Lemma foldl_insert_length {A B} (J : B -> nat) (G : B -> A) ps (l : list A) :
  length (foldl (fun l p => <[J p := G p]> l) l ps) = length l.
Proof.
  revert l. induction ps as [|p ps IH]; intros l; [done|].
  cbn [foldl]. rewrite IH. apply length_insert.
Qed.

Lemma foldl_insert_value {A B} (J : B -> nat) (G : B -> A) ps (l : list A) i x :
  i < length l ->
  (forall p, p ∈ ps -> J p = i -> G p = x) ->
  (l !! i = Some x \/ exists p, p ∈ ps /\ J p = i) ->
  foldl (fun l p => <[J p := G p]> l) l ps !! i = Some x.
Proof.
  revert l. induction ps as [|p ps IH]; intros l Hi Hall Hex.
  { destruct Hex as [H|(p & Hp & _)]; [done|]. by apply elem_of_nil in Hp. }
  cbn [foldl]. apply IH.
  - by rewrite length_insert.
  - intros p' Hp'. apply Hall. by right.
  - destruct (decide (J p = i)) as [Hpi|Hpi].
    + left. rewrite Hpi. rewrite list_lookup_insert_eq by done.
      f_equal. apply Hall; [left|done].
    + rewrite list_lookup_insert_ne by done.
      destruct Hex as [H|(p' & Hp' & HJ)]; [by left|right].
      exists p'. split; [|done].
      apply elem_of_cons in Hp' as [->|Hp']; [done|done].
Qed.

(** The two nested loops visit the pairs (x, y) row by row. *)
Lemma nested_fold {S} (step : nat -> S -> nat -> S) (g : S) xs ys :
  foldl (fun g y => foldl (step y) g xs) g ys
  = foldl (fun g p => step p.2 g p.1) g
          (flat_map (fun y => map (fun x => (x, y)) xs) ys).
Proof.
  revert g. induction ys as [|y ys IH]; intros g; [done|].
  cbn [foldl flat_map]. rewrite foldl_app, foldl_fmap. apply IH.
Qed.

Lemma elem_of_pairs (x y : nat) xs ys :
  (x, y) ∈ flat_map (fun y => map (fun x => (x, y)) xs) ys
  <-> x ∈ xs /\ y ∈ ys.
Proof.
  rewrite list_elem_of_In, in_flat_map. split.
  - intros (y' & Hy' & Hin). apply in_map_iff in Hin as (x' & Heq & Hx').
    injection Heq as -> ->. by rewrite !list_elem_of_In.
  - intros [Hx Hy]. exists y. rewrite <- list_elem_of_In. split; [done|].
    apply in_map_iff. exists x. by rewrite <- list_elem_of_In.
Qed.

Lemma centre_nat width glyphWidth :
  glyphWidth <= width -> (Z.of_nat width < 2 ^ 31)%Z ->
  centre width glyphWidth = Z.of_nat ((width - glyphWidth) / 2).
Proof.
  intros Hle Hw. unfold centre, ToInt32.
  rewrite Z.mod_small by lia.
  rewrite Z.shiftr_div_pow2 by lia.
  rewrite Nat2Z.inj_div, Nat2Z.inj_sub by lia.
  change (2 ^ 1)%Z with 2%Z. f_equal. lia.
Qed.

Lemma seed_cell_fold imgData width glyphWidth off ps (g : list num * list num) :
  foldl (fun g p => seed_cell imgData width glyphWidth (Z.of_nat off) p.2 g p.1)
        g ps
  = (foldl (fun l p => <[cell_index width off p :=
                           outer_seed (alpha imgData glyphWidth p.1 p.2)]> l)
           g.1 ps,
     foldl (fun l p => <[cell_index width off p :=
                           inner_seed (alpha imgData glyphWidth p.1 p.2)]> l)
           g.2 ps).
Proof.
  revert g. induction ps as [|p ps IH]; intros g; [by destruct g|].
  cbn [foldl]. rewrite IH. unfold seed_cell, set_at, cell_index. cbn [fst snd].
  rewrite (proj2 (Z.ltb_ge _ _)) by lia.
  replace (Z.to_nat ((Z.of_nat p.2 + Z.of_nat off) * Z.of_nat width
                     + Z.of_nat p.1 + Z.of_nat off))
    with ((p.2 + off) * width + p.1 + off) by lia.
  reflexivity.
Qed.


Lemma cell_unique w a b c d :
  b < w -> d < w -> a * w + b = c * w + d -> a = c /\ b = d.
Proof.
  intros Hb Hd H.
  assert (a = c); [|subst; lia].
  assert (Ha : a = (a * w + b) / w).
  { rewrite Nat.add_comm, Nat.div_add by lia.
    rewrite Nat.div_small by done. lia. }
  assert (Hc : c = (c * w + d) / w).
  { rewrite Nat.add_comm, Nat.div_add by lia.
    rewrite Nat.div_small by done. lia. }
  rewrite Ha, Hc. by rewrite H.
Qed.

Lemma cell_in_grid w h x y : x < w -> y < h -> y * w + x < w * h.
Proof. intros Hx Hy. nia. Qed.


End Seed.

(** ** draw *)

Section Draw.
Context {num : Type} {N : Number num}.
Implicit Types (grid f z : list num) (v : list nat).

(** C4 (as amended): [edt] applies [edt1d] once per column first (offset
    [x], stride [width], length [height], for [x] from 0 to [width - 1]) and
    then once per row (offset [y * width], stride 1, length [width], for [y]
    from 0 to [height - 1]), each call working in place on the arrays as the
    call before left them. *)
Theorem edt_columns_then_rows data width height f v z :
  edt data width height f v z
  = foldl run (Arrays data f v z)
      (map (fun x => (x, width, height)) (seq 0 width)
       ++ map (fun y => (y * width, 1, width)) (seq 0 height)).
Proof. apply edt_passes. Qed.

(** C6 (as amended): for a metrics record with [glyphWidth = 0] or
    [glyphHeight = 0], [draw] returns the fields of the metrics with a data
    buffer of [width * height] bytes, all zero, and leaves the instance as
    it was: no call on the canvas context, no write to either grid or to a
    scratch array. *)
Theorem draw_empty_glyph this char m imgData :
  glyphWidth m = 0 \/ glyphHeight m = 0 ->
  draw this char m imgData
  = (Glyph (replicate (width m * height m) 0) m, this).
Proof.
  intros H. unfold draw.
  assert ((glyphWidth m =? 0) || (glyphHeight m =? 0) = true) as ->; [|done].
  apply orb_true_iff. destruct H as [H|H]; [left|right]; by apply Nat.eqb_eq.
Qed.

Lemma draw_data_lookup this char m imgData i :
  glyphWidth m <> 0 -> glyphHeight m <> 0 -> i < width m * height m ->
  data (draw this char m imgData).1 !! i
  = Some (quantize (radius this) (cutoff this)
            (gridOuter (draw this char m imgData).2)
            (gridInner (draw this char m imgData).2) i).
Proof.
  intros Hw Hh Hi. unfold draw.
  apply Nat.eqb_neq in Hw, Hh. rewrite Hw, Hh. cbn [orb].
  destruct (seed _ _ _ _ _ _ _) as [gO gI].
  cbn [fst snd data gridOuter gridInner].
  rewrite (foldl_insert_seq_lookup (fun j => quantize _ _ _ _ j)).
  rewrite decide_True; [done|]. rewrite length_replicate. lia.
Qed.

Lemma draw_grids this char m imgData :
  glyphWidth m <> 0 -> glyphHeight m <> 0 ->
  let g := seed (gridOuter this) (gridInner this) imgData (width m)
                (height m) (glyphWidth m) (glyphHeight m) in
  let o := edt g.1 (width m) (height m) (f this) (v this) (z this) in
  let i := edt g.2 (width m) (height m) (a_f o) (a_v o) (a_z o) in
  gridOuter (draw this char m imgData).2 = a_grid o /\
  gridInner (draw this char m imgData).2 = a_grid i.
Proof.
  intros Hw Hh. unfold draw.
  apply Nat.eqb_neq in Hw, Hh. rewrite Hw, Hh. cbn [orb].
  destruct (seed _ _ _ _ _ _ _) as [gO gI]. done.
Qed.

End Draw.




(** ** The transform in exact arithmetic *)

Section Parabolas.
Local Open Scope R_scope.
Variable c : nat -> R.

Lemma meet_spec a b x :
  (a < b)%nat ->
  parabola c a x - parabola c b x = 2 * (INR b - INR a) * (x - meet c a b).
Proof.
  intros Hab. apply lt_INR in Hab. unfold parabola, meet. field. lra.
Qed.

Lemma meet_left a b x :
  (a < b)%nat -> x <= meet c a b -> parabola c a x <= parabola c b x.
Proof.
  intros Hab Hx. pose proof (meet_spec a b x Hab) as H.
  apply lt_INR in Hab.
  assert (2 * (INR b - INR a) * (x - meet c a b) <= 0); [|lra].
  generalize dependent (meet c a b). intros m Hx _. nra.
Qed.

Lemma meet_right a b x :
  (a < b)%nat -> meet c a b <= x -> parabola c b x <= parabola c a x.
Proof.
  intros Hab Hx. pose proof (meet_spec a b x Hab) as H.
  apply lt_INR in Hab.
  assert (0 <= 2 * (INR b - INR a) * (x - meet c a b)); [|lra].
  generalize dependent (meet c a b). intros m Hx _. nra.
Qed.

Lemma envelope_spec q n : lower_env c (S n) q (envelope c q n).
Proof.
  induction n as [|n [(r & Hr & Hm) Hlow]]; cbn [envelope].
  - split; [exists 0%nat; split; [lia|done]|].
    intros r Hr. assert (r = 0)%nat as -> by lia. lra.
  - unfold Rmin. destruct (Rle_dec _ _) as [Hle|Hgt]; split.
    + exists r. split; [lia|done].
    + intros r' Hr'. destruct (decide (r' = S n)) as [->|]; [done|].
      apply Hlow. lia.
    + exists (S n). split; [lia|done].
    + intros r' Hr'. destruct (decide (r' = S n)) as [->|]; [lra|].
      specialize (Hlow r' ltac:(lia)). lra.
Qed.

Lemma lower_env_unique n q m1 m2 :
  lower_env c n q m1 -> lower_env c n q m2 -> m1 = m2.
Proof.
  intros [(r1 & Hr1 & E1) L1] [(r2 & Hr2 & E2) L2].
  specialize (L1 r2 Hr2). specialize (L2 r1 Hr1). lra.
Qed.

Lemma lower_env_dt n q m : lower_env c n q m -> m = dt c n q.
Proof.
  intros H. apply (lower_env_unique n q); [done|].
  unfold dt. destruct n as [|n].
  - destruct H as [(r & Hr & _) _]. lia.
  - replace (S n - 1)%nat with n by lia. apply envelope_spec.
Qed.

Lemma dt_spec n q : (0 < n)%nat -> lower_env c n q (dt c n q).
Proof.
  intros Hn. unfold dt. destruct n as [|n]; [lia|].
  replace (S n - 1)%nat with n by lia. apply envelope_spec.
Qed.

End Parabolas.

Section Envelope.
Variable f : list R.
Local Abbreviation c := (get f).

Lemma lookup_vat v i : i < length v -> v !! i = Some (vat v i).
Proof.
  intros Hi. unfold vat. destruct (v !! i) eqn:E; [done|].
  apply lookup_ge_None in E. lia.
Qed.

Lemma lookup_get (z : list R) i : i < length z -> z !! i = Some (get z i).
Proof.
  intros Hi. unfold get. destruct (z !! i) eqn:E; [reflexivity|].
  apply lookup_ge_None in E. lia.
Qed.

Lemma intersection_meet q r :
  intersection f q (Some r) = meet c r q.
Proof.
  unfold intersection, meet, c. cbn.
  replace (1 + 1)%R with 2%R by lra. reflexivity.
Qed.

Lemma le_at_true (s zk : R) : le_at s (Some zk) = true -> (s <= zk)%R.
Proof. cbn. unfold R_le. destruct (Rle_dec s zk); [done|discriminate]. Qed.

Lemma le_at_false (s zk : R) : le_at s (Some zk) = false -> (zk < s)%R.
Proof. cbn. unfold R_le. destruct (Rle_dec s zk); [done|]. intros _. lra. Qed.

Lemma pop_exact q k v (z : list R) :
  k < length v -> k < length z ->
  (forall i, i <= k -> vat v i < q) ->
  (forall i, i < k -> vat v i < vat v (S i)) ->
  (forall i, i < k -> get z (S i) = meet c (vat v i) (vat v (S i))) ->
  (get z 0 < 0)%R ->
  covers f v q k ->
  let k' := (pop f v z q k).1 in
  let s := (pop f v z q k).2 in
  (k' = (-1)%Z /\ (s < 0)%R /\
   forall r x, r <= q -> (parabola c q (INR x) <= parabola c r (INR x))%R)
  \/
  (exists j, k' = Z.of_nat j /\ j <= k /\ s = meet c (vat v j) q /\
             (get z j < s)%R /\ covers f v q j).
Proof.
  intros Hlv Hlz Hbelow Hsorted Hmeet Hz0.
  induction k as [|k IH]; intros Hcov; cbn [pop].
  - rewrite (lookup_vat v 0 Hlv), (lookup_get z 0 Hlz), intersection_meet.
    destruct (le_at _ _) eqn:E; cbn [fst snd].
    + left. apply le_at_true in E. split; [done|]. split; [lra|].
      intros r x Hr. destruct (Hcov r x Hr) as [(i & Hi & Hle)|Hle]; [|done].
      assert (i = 0) as -> by lia.
      assert (parabola c q (INR x) <= parabola c (vat v 0) (INR x))%R; [|lra].
      apply meet_right; [by apply Hbelow|]. pose proof (pos_INR x). lra.
    + right. exists 0. apply le_at_false in E. done.
  - rewrite (lookup_vat v (S k) Hlv), (lookup_get z (S k) Hlz).
    rewrite intersection_meet.
    destruct (le_at _ _) eqn:E; cbn [fst snd].
    + apply le_at_true in E.
      destruct IH as [H|(j & Hj1 & Hj2 & Hj3)]; try lia.
      * intros i Hi. apply Hbelow. lia.
      * intros i Hi. apply Hsorted. lia.
      * intros i Hi. apply Hmeet. lia.
      * intros r x Hr.
        destruct (Hcov r x Hr) as [(i & Hi & Hle)|Hle]; [|by right].
        destruct (decide (i = S k)) as [->|Hne];
          [|left; exists i; split; [lia|done]].
        destruct (Rle_dec (INR x) (get z (S k))) as [Hx|Hx].
        -- left. exists k. split; [lia|].
           assert (parabola c (vat v k) (INR x)
                   <= parabola c (vat v (S k)) (INR x))%R; [|lra].
           apply meet_left; [apply Hsorted; lia|].
           rewrite <- Hmeet by lia. done.
        -- right.
           assert (parabola c q (INR x)
                   <= parabola c (vat v (S k)) (INR x))%R; [|lra].
           apply meet_right; [apply Hbelow; lia|]. lra.
      * by left.
      * right. exists j. split; [done|]. split; [lia|done].
    + right. exists (S k). apply le_at_false in E. done.
Qed.


Lemma vat_insert_eq v i x : i < length v -> vat (<[i := x]> v) i = x.
Proof. intros Hi. unfold vat. by rewrite list_lookup_insert_eq. Qed.

Lemma vat_insert_ne v i j x : i <> j -> vat (<[i := x]> v) j = vat v j.
Proof. intros Hi. unfold vat. by rewrite list_lookup_insert_ne. Qed.

Lemma get_insert_eq (z : list R) i x : i < length z -> get (<[i := x]> z) i = x.
Proof. intros Hi. unfold get. by rewrite list_lookup_insert_eq. Qed.

Lemma get_insert_ne (z : list R) i j x :
  i <> j -> get (<[i := x]> z) j = get z j.
Proof. intros Hi. unfold get. by rewrite list_lookup_insert_ne. Qed.


Lemma stack_inv_covers q k v z : stack_inv f q k v z -> covers f v q k.
Proof.
  intros H r x Hr. destruct (decide (r = q)) as [->|Hne].
  - right. lra.
  - left. apply (si_cover _ _ _ _ _ H). lia.
Qed.

Lemma push_exact n q k v (z : list R) :
  q < n -> n <= 2 ^ 16 -> n <= length v -> n < length z ->
  stack_inv f q k v z ->
  stack_inv f (S q) (push f (k, v, z) q).1.1
            (push f (k, v, z) q).1.2 (push f (k, v, z) q).2.
Proof.
  intros Hq Hn Hlv Hlz H.
  pose proof (pop_exact q k v z (si_lenv _ _ _ _ _ H)
                ltac:(pose proof (si_lenz _ _ _ _ _ H); lia)
                (si_below _ _ _ _ _ H) (si_sorted _ _ _ _ _ H)
                (si_meet _ _ _ _ _ H) (si_z0 _ _ _ _ _ H)
                (stack_inv_covers q k v z H)) as Hpop.
  unfold push. destruct (pop f v z q k) as [k' s]. cbn [fst snd] in *.
  rewrite ToUint16_small by lia.
  pose proof (si_k _ _ _ _ _ H) as Hk.
  destruct Hpop as [(-> & Hs & Hcov)|(j & -> & Hj & Hsj & Hzs & Hcov)].
  - change (Z.to_nat (-1 + 1)) with 0.
    assert (Hv0 : vat (<[0:=q]> v) 0 = q) by (apply vat_insert_eq; lia).
    assert (Hz0 : get (<[1:=INF]> (<[0:=s]> z)) 0 = s).
    { rewrite get_insert_ne by lia. apply get_insert_eq. lia. }
    constructor; rewrite ?length_insert; try lia.
    + intros i Hi. assert (i = 0) as -> by lia. lia.
    + by rewrite Hz0.
    + apply get_insert_eq. rewrite length_insert. lia.
    + intros r x Hr. exists 0. split; [lia|]. rewrite Hv0. apply Hcov. lia.
  - replace (Z.to_nat (Z.of_nat j + 1)) with (S j) by lia.
    assert (Hvj : vat (<[S j:=q]> v) (S j) = q) by (apply vat_insert_eq; lia).
    assert (Hvi : forall i, i <= j -> vat (<[S j:=q]> v) i = vat v i).
    { intros i Hi. apply vat_insert_ne. lia. }
    assert (Hzj : get (<[S (S j):=INF]> (<[S j:=s]> z)) (S j) = s).
    { rewrite get_insert_ne by lia. apply get_insert_eq. lia. }
    assert (Hzi : forall i, i <= j ->
              get (<[S (S j):=INF]> (<[S j:=s]> z)) i = get z i).
    { intros i Hi. rewrite !get_insert_ne by lia. done. }
    pose proof (si_below _ _ _ _ _ H) as Hb.
    constructor; rewrite ?length_insert; try lia.
    + intros i Hi. destruct (decide (i = S j)) as [->|Hne]; [lia|].
      rewrite Hvi by lia. specialize (Hb i). lia.
    + intros i Hi. destruct (decide (i = j)) as [->|Hne].
      * rewrite Hvj, Hvi by lia. apply Hb. lia.
      * rewrite !Hvi by lia. apply (si_sorted _ _ _ _ _ H). lia.
    + intros i Hi. destruct (decide (i = j)) as [->|Hne].
      * rewrite Hzj, Hvj, Hvi by lia. done.
      * rewrite Hzi, !Hvi by lia. apply (si_meet _ _ _ _ _ H). lia.
    + intros i Hi. destruct (decide (i = j)) as [->|Hne].
      * rewrite Hzj, Hzi by lia. done.
      * rewrite !Hzi by lia. apply (si_incr _ _ _ _ _ H). lia.
    + rewrite Hzi by lia. apply (si_z0 _ _ _ _ _ H).
    + apply get_insert_eq. rewrite length_insert. lia.
    + intros r x Hr. destruct (Hcov r x ltac:(lia)) as [(i & Hi & Hle)|Hle].
      * exists i. split; [lia|]. by rewrite Hvi.
      * exists (S j). split; [lia|]. by rewrite Hvj.
Qed.

Lemma push_fold_exact n m a k v (z : list R) :
  a + m <= n -> n <= 2 ^ 16 -> n <= length v -> n < length z ->
  stack_inv f a k v z ->
  stack_inv f (a + m) (foldl (push f) (k, v, z) (seq a m)).1.1
            (foldl (push f) (k, v, z) (seq a m)).1.2
            (foldl (push f) (k, v, z) (seq a m)).2.
Proof.
  revert a k v z. induction m as [|m IH]; intros a k v z Ha Hn Hlv Hlz H.
  { rewrite Nat.add_0_r. done. }
  cbn [seq foldl].
  pose proof (push_exact n a k v z ltac:(lia) Hn Hlv Hlz H) as H'.
  destruct (push_length f (k, v, z) a) as [Hl1 Hl2].
  destruct (push f (k, v, z) a) as [[k1 v1] z1]. cbn [fst snd] in *.
  replace (a + S m) with (S a + m) by lia.
  apply IH; try done; lia.
Qed.

Lemma stack_inv_init v (z : list R) :
  0 < length v -> 1 < length z ->
  stack_inv f 1 0 (<[0 := 0]> v) (<[1 := INF]> (<[0 := (- INF)%num]> z)).
Proof.
  intros Hv Hz.
  assert (Hv0 : vat (<[0:=0]> v) 0 = 0) by (by apply vat_insert_eq).
  constructor; rewrite ?length_insert; try lia.
  - intros i Hi. assert (i = 0) as -> by lia. lia.
  - rewrite get_insert_ne by lia. rewrite get_insert_eq by lia.
    change (Ropp 1e20 < 0)%R. lra.
  - apply get_insert_eq. rewrite length_insert. lia.
  - intros r x Hr. exists 0. split; [lia|]. rewrite Hv0.
    assert (r = 0) as -> by lia. lra.
Qed.


Lemma lt_at_R (zk q : R) : nlt zk q = true <-> (zk < q)%R.
Proof. cbn. unfold R_lt. destruct (Rlt_dec zk q); split; done. Qed.

Lemma advance_exact (z : list R) q k K :
  k <= K -> S K < length z -> get z (S K) = 1e20%R -> (INR q <= 1e20)%R ->
  k <= advance z q k <= K /\
  (forall i, k < i <= advance z q k -> (get z i < INR q)%R) /\
  (INR q <= get z (S (advance z q k)))%R.
Proof.
  intros Hk Hlz Htop Hq. remember (K - k) as d eqn:Hd.
  revert k Hk Hd. induction d as [|d IH]; intros k Hk Hd.
  - assert (k = K) as -> by lia. rewrite advance_unfold.
    rewrite (lookup_get z (S K)) by lia. rewrite Htop.
    destruct (nlt _ _) eqn:E.
    + apply lt_at_R in E. change (idx q) with (INR q) in E. lra.
    + split; [lia|]. split; [intros i Hi; lia|]. by rewrite Htop.
  - rewrite advance_unfold. rewrite (lookup_get z (S k)) by lia.
    destruct (nlt _ _) eqn:E.
    + apply lt_at_R in E. change (idx q) with (INR q) in E.
      destruct (IH (S k)) as (H1 & H2 & H3); [lia|lia|].
      split; [lia|]. split; [|done].
      intros i Hi. destruct (decide (i = S k)) as [->|Hne]; [done|].
      apply H2. lia.
    + split; [lia|]. split; [intros i Hi; lia|].
      destruct (Rlt_dec (get z (S k)) (INR q)) as [Hlt|Hge]; [|lra].
      apply lt_at_R in Hlt. change (INR q) with (idx q) in Hlt. congruence.
Qed.

Lemma stack_min_down n K v (z : list R) q k' :
  stack_inv f n K v z -> k' <= K ->
  (forall i, 1 <= i <= k' -> (get z i < INR q)%R) ->
  forall d i, i + d = k' ->
    (parabola c (vat v k') (INR q) <= parabola c (vat v i) (INR q))%R.
Proof.
  intros H Hk' Hz. induction d as [|d IH]; intros i Hi.
  - assert (i = k') as -> by lia. lra.
  - specialize (IH (S i) ltac:(lia)).
    assert (parabola c (vat v (S i)) (INR q) <= parabola c (vat v i) (INR q))%R;
      [|lra].
    apply meet_right; [apply (si_sorted _ _ _ _ _ H); lia|].
    rewrite <- (si_meet _ _ _ _ _ H) by lia.
    specialize (Hz (S i) ltac:(lia)). lra.
Qed.

Lemma stack_min_up n K v (z : list R) q k' :
  stack_inv f n K v z -> k' <= K ->
  (INR q <= get z (S k'))%R ->
  forall d, k' + d <= K ->
    (parabola c (vat v k') (INR q) <= parabola c (vat v (k' + d)) (INR q))%R /\
    (k' + d < K -> (INR q <= get z (S (k' + d)))%R).
Proof.
  intros H Hk' Hz. induction d as [|d IH]; intros Hd.
  - rewrite Nat.add_0_r. split; [lra|done].
  - destruct IH as [IH1 IH2]; [lia|]. specialize (IH2 ltac:(lia)).
    replace (k' + S d) with (S (k' + d)) by lia. split.
    + assert (parabola c (vat v (k' + d)) (INR q)
              <= parabola c (vat v (S (k' + d))) (INR q))%R; [|lra].
      apply meet_left; [apply (si_sorted _ _ _ _ _ H); lia|].
      rewrite <- (si_meet _ _ _ _ _ H) by lia. done.
    + intros Hlt. pose proof (si_incr _ _ _ _ _ H (S (k' + d)) Hlt). lra.
Qed.

Lemma stack_min n K v (z : list R) q k' :
  stack_inv f n K v z -> k' <= K ->
  (forall i, 1 <= i <= k' -> (get z i < INR q)%R) ->
  (INR q <= get z (S k'))%R ->
  lower_env c n q (parabola c (vat v k') (INR q)).
Proof.
  intros H Hk' Hlo Hhi. split.
  - exists (vat v k'). split; [|done]. apply (si_below _ _ _ _ _ H). lia.
  - intros r Hr. destruct (si_cover _ _ _ _ _ H r q Hr) as (i & Hi & Hle).
    assert (parabola c (vat v k') (INR q) <= parabola c (vat v i) (INR q))%R;
      [|lra].
    destruct (decide (i <= k')) as [Hik|Hik].
    + apply (stack_min_down n K v z q k' H Hk' Hlo (k' - i) i). lia.
    + destruct (stack_min_up n K v z q k' H Hk' Hhi (i - k')) as [Hm _]; [lia|].
      replace (k' + (i - k')) with i in Hm by lia. done.
Qed.


Lemma INR_index_le q : q <= 2 ^ 16 -> (INR q <= 1e20)%R.
Proof.
  intros Hq. rewrite INR_IZR_INZ.
  apply Nat2Z.inj_le in Hq. rewrite Nat2Z.inj_pow in Hq.
  change (Z.of_nat 2 ^ Z.of_nat 16)%Z with 65536%Z in Hq.
  apply Rle_trans with (IZR 65536); [by apply IZR_le|lra].
Qed.

Lemma emit_exact n K v (z : list R) offset stride kc (grid : list R) q :
  stack_inv f n K v z -> q < n -> n <= 2 ^ 16 -> kc <= K ->
  (forall i, 1 <= i <= kc -> (get z i < INR q)%R) ->
  offset + q * stride < length grid ->
  (emit f v z offset stride (kc, grid) q).1 <= K /\
  (forall i, 1 <= i <= (emit f v z offset stride (kc, grid) q).1 ->
     (get z i < INR (S q))%R) /\
  (emit f v z offset stride (kc, grid) q).2 !! (offset + q * stride)
  = Some (dt c n q).
Proof.
  intros H Hq Hn Hkc Hlo Hin. unfold emit. cbn [fst snd].
  destruct (advance_exact z q kc K Hkc (si_lenz _ _ _ _ _ H)
              (si_top _ _ _ _ _ H) (INR_index_le q ltac:(lia)))
    as (Hk' & Hadv & Hhi).
  set (k' := advance z q kc) in *.
  assert (Hlo' : forall i, 1 <= i <= k' -> (get z i < INR q)%R).
  { intros i Hi.
    destruct (decide (i <= kc)); [apply Hlo; lia|apply Hadv; lia]. }
  split; [lia|]. split.
  - intros i Hi. specialize (Hlo' i Hi). rewrite S_INR. lra.
  - rewrite list_lookup_insert_eq by done. f_equal.
    rewrite (lookup_vat v k') by (pose proof (si_lenv _ _ _ _ _ H); lia).
    apply (lower_env_dt c n q).
    change (lower_env c n q (parabola c (vat v k') (INR q))).
    apply (stack_min n K v z q k'); [done|lia|done|done].
Qed.

Lemma emit_fold_exact n K v (z : list R) offset stride m :
  stack_inv f n K v z -> n <= 2 ^ 16 -> 0 < stride ->
  forall a kc (grid : list R),
  a + m <= n -> kc <= K ->
  (forall i, 1 <= i <= kc -> (get z i < INR a)%R) ->
  (forall q, q < n -> offset + q * stride < length grid) ->
  forall q, a <= q < a + m ->
  (foldl (emit f v z offset stride) (kc, grid) (seq a m)).2
    !! (offset + q * stride) = Some (dt c n q).
Proof.
  intros H Hn Hs. induction m as [|m IH]; intros a kc grid Ha Hkc Hlo Hin q Hq;
    [lia|].
  cbn [seq foldl].
  destruct (emit_exact n K v z offset stride kc grid a H ltac:(lia) Hn Hkc Hlo
              (Hin a ltac:(lia))) as (Hk1 & Hlo1 & Hval).
  pose proof (emit_length f v z offset stride (kc, grid) a) as Hlen.
  destruct (emit f v z offset stride (kc, grid) a) as [k1 g1].
  cbn [fst snd] in *.
  destruct (decide (q = a)) as [->|Hne].
  - rewrite emit_fold_frame; [done|].
    intros q' Hq'. apply elem_of_seq in Hq'. nia.
  - apply IH; try done; try lia.
    intros q' Hq'. rewrite Hlen. by apply Hin.
Qed.

End Envelope.

Lemma envelope_ext c1 c2 q n :
  (forall r, r <= n -> c1 r = c2 r) -> envelope c1 q n = envelope c2 q n.
Proof.
  induction n as [|n IH]; intros Hc; cbn [envelope]; unfold parabola.
  - by rewrite Hc.
  - rewrite IH, (Hc (S n)) by (intros; try apply Hc; lia). done.
Qed.

Lemma dt_ext c1 c2 n q :
  0 < n -> (forall r, r < n -> c1 r = c2 r) -> dt c1 n q = dt c2 n q.
Proof.
  intros Hn Hc. unfold dt. apply envelope_ext. intros r Hr. apply Hc. lia.
Qed.

Lemma copy_line_get (grid : list R) offset stride n (f : list R) r :
  r < n -> n <= length f ->
  get (copy_line grid offset stride n f) r = get grid (offset + r * stride).
Proof.
  intros Hr Hn. unfold get at 1. rewrite copy_line_lookup.
  rewrite decide_True by lia. done.
Qed.

(** A pass of [edt1d] in exact arithmetic stores, for every sample of the
    line, the minimum over the line of [cost + squared distance]. *)
Lemma edt1d_exact (grid : list R) offset stride n (f : list R) v (z : list R) :
  n <= 2 ^ 16 -> n <= length f -> n <= length v -> n < length z ->
  0 < stride -> (forall q, q < n -> offset + q * stride < length grid) ->
  forall q, q < n ->
    a_grid (edt1d grid offset stride n f v z) !! (offset + q * stride)
    = Some (dt (fun r => get grid (offset + r * stride)) n q).
Proof.
  intros Hn Hf Hv Hz Hs Hin q Hq. rewrite edt1d_unfold. cbv zeta. cbn [a_grid].
  set (f' := copy_line grid offset stride n f).
  pose proof (push_fold_exact f' n (n - 1) 1 0 (<[0:=0]> v)
                (<[1:=INF]> (<[0:=(- INF)%num]> z)) ltac:(lia) Hn
                ltac:(by rewrite length_insert)
                ltac:(by rewrite !length_insert)
                (stack_inv_init f' v z ltac:(lia) ltac:(lia))) as H.
  replace (1 + (n - 1)) with n in H by lia.
  destruct (foldl (push f') _ _) as [[K v1] z1]. cbn [fst snd] in *.
  rewrite (emit_fold_exact f' n K v1 z1 offset stride n H Hn Hs 0 0 grid);
    try done; try lia.
  f_equal. apply dt_ext; [lia|]. intros r Hr. by apply copy_line_get.
Qed.

Lemma scratch_fits_run {num} {N : Number num} n (a : arrays num) p :
  scratch_fits n (a_f a) (a_v a) (a_z a) ->
  scratch_fits n (a_f (run a p)) (a_v (run a p)) (a_z (run a p)).
Proof.
  intros H. destruct p as [[offset stride] len]. unfold run, scratch_fits in *.
  destruct (edt1d_length (a_grid a) offset stride len (a_f a) (a_v a) (a_z a))
    as (_ & -> & -> & ->). done.
Qed.

Lemma run_length {num} {N : Number num} (a : arrays num) p :
  length (a_grid (run a p)) = length (a_grid a).
Proof.
  destruct p as [[offset stride] len]. unfold run. apply edt1d_length.
Qed.

Section Separable.
Variables (g : list R) (width height : nat).
Hypothesis Hg : width * height <= length g.

Lemma column_passes_exact a (f : list R) v (z : list R) :
  a <= width -> scratch_fits height f v z ->
  let r := foldl (column_pass width height) (Arrays g f v z) (seq 0 a) in
  length (a_grid r) = length g /\
  scratch_fits height (a_f r) (a_v r) (a_z r) /\
  forall x y, x < width -> y < height ->
    a_grid r !! (y * width + x)
    = Some (if decide (x < a)
            then dt (fun y' => get g (y' * width + x)) height y
            else get g (y * width + x)).
Proof.
  intros Ha Hfit. induction a as [|a IH]; cbv zeta.
  - cbn [seq foldl a_grid a_f a_v a_z]. split; [done|]. split; [done|].
    intros x y Hx Hy. rewrite decide_False by lia.
    apply lookup_get. pose proof (cell_in_grid width height x y Hx Hy). lia.
  - rewrite seq_S, foldl_app. cbn [foldl]. change (0 + a) with a.
    destruct IH as (Hlen & Hfit' & Hcell); [lia|].
    set (r := foldl (column_pass width height) (Arrays g f v z) (seq 0 a)) in *.
    unfold column_pass at 1 2 3 4 5. split; [by rewrite run_length|].
    split; [by apply scratch_fits_run|].
    intros x y Hx Hy. unfold run.
    destruct Hfit' as (H16 & Hf & Hv & Hz).
    destruct (decide (x = a)) as [->|Hne].
    + rewrite decide_True by lia.
      replace (y * width + a) with (a + y * width) by lia.
      rewrite edt1d_exact; try done; try lia.
      * f_equal. apply dt_ext; [lia|]. intros y' Hy'. cbv beta.
        replace (a + y' * width) with (y' * width + a) by lia.
        unfold get at 1.
        rewrite Hcell by lia. rewrite decide_False by lia. done.
      * intros q Hq. rewrite Hlen.
        pose proof (cell_in_grid width height a q ltac:(lia) Hq). lia.
    + rewrite edt1d_frame_cell.
      * rewrite Hcell by done.
        destruct (decide (x < a)); [rewrite decide_True by lia|
                                    rewrite decide_False by lia]; done.
      * intros i Hi Heq.
        destruct (cell_unique width y x i a) as [_ ?]; [lia|lia|lia|lia].
Qed.

Lemma row_passes_exact b (f : list R) v (z : list R) :
  b <= height -> scratch_fits width f v z ->
  let r := foldl (row_pass width) (Arrays g f v z) (seq 0 b) in
  length (a_grid r) = length g /\
  scratch_fits width (a_f r) (a_v r) (a_z r) /\
  forall x y, x < width -> y < height ->
    a_grid r !! (y * width + x)
    = Some (if decide (y < b)
            then dt (fun x' => get g (y * width + x')) width x
            else get g (y * width + x)).
Proof.
  intros Hb Hfit. induction b as [|b IH]; cbv zeta.
  - cbn [seq foldl a_grid a_f a_v a_z]. split; [done|]. split; [done|].
    intros x y Hx Hy. rewrite decide_False by lia.
    apply lookup_get. pose proof (cell_in_grid width height x y Hx Hy). lia.
  - rewrite seq_S, foldl_app. cbn [foldl]. change (0 + b) with b.
    destruct IH as (Hlen & Hfit' & Hcell); [lia|].
    set (r := foldl (row_pass width) (Arrays g f v z) (seq 0 b)) in *.
    unfold row_pass at 1 2 3 4 5. split; [by rewrite run_length|].
    split; [by apply scratch_fits_run|].
    intros x y Hx Hy. unfold run.
    destruct Hfit' as (H16 & Hf & Hv & Hz).
    destruct (decide (y = b)) as [->|Hne].
    + rewrite decide_True by lia.
      replace (b * width + x) with (b * width + x * 1) by lia.
      rewrite edt1d_exact; try done; try lia.
      * f_equal. apply dt_ext; [lia|]. intros x' Hx'. cbv beta.
        replace (b * width + x' * 1) with (b * width + x') by lia.
        unfold get at 1.
        rewrite Hcell by lia. rewrite decide_False by lia. done.
      * intros q Hq. rewrite Hlen.
        pose proof (cell_in_grid width height q b Hq ltac:(lia)). lia.
    + rewrite edt1d_frame_cell.
      * rewrite Hcell by done.
        destruct (decide (y < b)); [rewrite decide_True by lia|
                                    rewrite decide_False by lia]; done.
      * intros i Hi Heq.
        destruct (cell_unique width y x b i) as [? _]; [lia|lia|lia|lia].
Qed.

End Separable.

Lemma scratch_fits_columns {num} {N : Number num} n width height xs
    (a : arrays num) :
  scratch_fits n (a_f a) (a_v a) (a_z a) ->
  scratch_fits n (a_f (foldl (column_pass width height) a xs))
                 (a_v (foldl (column_pass width height) a xs))
                 (a_z (foldl (column_pass width height) a xs)).
Proof.
  revert a. induction xs as [|x xs IH]; intros a Ha; [done|].
  cbn [foldl]. apply IH. unfold column_pass. by apply scratch_fits_run.
Qed.

(** [edt] in exact arithmetic. *)
Lemma edt_exact (g : list R) width height (f : list R) v (z : list R) :
  width * height <= length g ->
  scratch_fits width f v z -> scratch_fits height f v z ->
  length (a_grid (edt g width height f v z)) = length g /\
  forall x y, x < width -> y < height ->
    a_grid (edt g width height f v z) !! (y * width + x)
    = Some (dt2 g width height x y).
Proof.
  intros Hg Hw Hh. unfold edt. cbv zeta.
  destruct (column_passes_exact g width height Hg width f v z
              (Nat.le_refl _) Hh) as (Hlen1 & _ & Hcell1).
  pose proof (scratch_fits_columns width width height (seq 0 width)
                (Arrays g f v z) Hw) as Hw1.
  destruct (foldl (column_pass width height) _ _) as [g1 f1 v1 z1].
  cbn [a_grid a_f a_v a_z] in *.
  destruct (row_passes_exact g1 width height ltac:(lia) height f1 v1 z1
              (Nat.le_refl _) Hw1) as (Hlen2 & _ & Hcell2).
  split; [lia|]. intros x y Hx Hy.
  rewrite Hcell2 by done. rewrite decide_True by done. f_equal.
  unfold dt2. apply dt_ext; [lia|]. intros x' Hx'. cbv beta.
  unfold get at 1. rewrite Hcell1 by done. by rewrite decide_True.
Qed.

Section Envelope_facts.
Local Open Scope R_scope.

Lemma dt_le c n q : (q < n)%nat -> dt c n q <= c q.
Proof.
  intros Hq. destruct (dt_spec c n q ltac:(lia)) as [_ Hlow].
  specialize (Hlow q Hq). unfold parabola in Hlow. nra.
Qed.

Lemma dt_flip c n q :
  (q < n)%nat -> dt (fun r => c (n - 1 - r)%nat) n q = dt c n (n - 1 - q).
Proof.
  intros Hq. symmetry. apply lower_env_dt.
  destruct (dt_spec c n (n - 1 - q) ltac:(lia)) as [(r0 & Hr0 & Hm) Hlow].
  assert (Hflip : forall r, (r < n)%nat ->
            INR (n - 1 - q) - INR r = - (INR q - INR (n - 1 - r))).
  { intros r Hr. rewrite !minus_INR by lia. change (INR 1) with 1. lra. }
  split.
  - exists (n - 1 - r0)%nat. split; [lia|]. rewrite Hm. unfold parabola.
    replace (n - 1 - (n - 1 - r0))%nat with r0 by lia.
    rewrite (Hflip r0 Hr0). lra.
  - intros r Hr. specialize (Hlow (n - 1 - r)%nat ltac:(lia)).
    unfold parabola in *. rewrite (Hflip (n - 1 - r)%nat) in Hlow by lia.
    replace (n - 1 - (n - 1 - r))%nat with r in Hlow by lia. lra.
Qed.

End Envelope_facts.

Lemma scratch_fits_runs {num} {N : Number num} n ps (a : arrays num) :
  scratch_fits n (a_f a) (a_v a) (a_z a) ->
  scratch_fits n (a_f (foldl run a ps)) (a_v (foldl run a ps))
                 (a_z (foldl run a ps)).
Proof.
  revert a. induction ps as [|p ps IH]; intros a Ha; [exact Ha|].
  cbn [foldl]. apply IH. by apply scratch_fits_run.
Qed.

Lemma scratch_fits_edt {num} {N : Number num} n (g : list num) width height
    (f : list num) v (z : list num) :
  scratch_fits n f v z ->
  scratch_fits n (a_f (edt g width height f v z))
                 (a_v (edt g width height f v z))
                 (a_z (edt g width height f v z)).
Proof. intros H. rewrite edt_passes. by apply scratch_fits_runs. Qed.

Lemma dt2_le (g : list R) width height x y :
  x < width -> y < height ->
  (dt2 g width height x y <= get g (y * width + x))%R.
Proof.
  intros Hx Hy. unfold dt2.
  pose proof (dt_le (fun x' => dt (fun y' => get g (y' * width + x')) height y)
                width x Hx) as H1.
  pose proof (dt_le (fun y' => get g (y' * width + x)) height y Hy) as H2.
  cbv beta in *. lra.
Qed.

(** C5 (as amended): running [edt] a second time on the grid a first run
    produced, with the scratch arrays as the first run left them, is again
    a total computation, and in exact arithmetic the value of every cell
    after the second run is smaller than or equal to its value before. *)
Theorem edt_again_not_above (g : list R) width height
    (f : list R) v (z : list R) :
  width * height <= length g ->
  scratch_fits width f v z -> scratch_fits height f v z ->
  let first := edt g width height f v z in
  let second := edt (a_grid first) width height
                    (a_f first) (a_v first) (a_z first) in
  forall x y, x < width -> y < height ->
    exists m1 m2,
      a_grid first !! (y * width + x) = Some m1 /\
      a_grid second !! (y * width + x) = Some m2 /\
      (m2 <= m1)%R.
Proof.
  intros Hg Hw Hh first second x y Hx Hy.
  destruct (edt_exact g width height f v z Hg Hw Hh) as [Hlen1 Hcell1].
  fold first in Hlen1, Hcell1.
  destruct (edt_exact (a_grid first) width height (a_f first) (a_v first)
              (a_z first) ltac:(lia)
              (scratch_fits_edt width g width height f v z Hw)
              (scratch_fits_edt height g width height f v z Hh))
    as [_ Hcell2].
  fold second in Hcell2.
  exists (dt2 g width height x y), (dt2 (a_grid first) width height x y).
  split; [by apply Hcell1|]. split; [by apply Hcell2|].
  pose proof (dt2_le (a_grid first) width height x y Hx Hy) as Hle.
  assert (Heq : get (a_grid first) (y * width + x) = dt2 g width height x y).
  { unfold get. by rewrite Hcell1. }
  by rewrite Heq in Hle.
Qed.

Section Tables.
Context {A : Type}.

(** A row-major table of [h] rows of [w] cells. *)
Lemma table_length (F : nat -> nat -> A) w h :
  length (flat_map (fun y => map (F y) (seq 0 w)) (seq 0 h)) = h * w.
Proof.
  induction h as [|h IH]; [done|].
  rewrite seq_S, flat_map_app, length_app, IH. cbn [flat_map].
  rewrite app_nil_r, length_map, length_seq. lia.
Qed.

Lemma table_lookup (F : nat -> nat -> A) w h x y :
  x < w -> y < h ->
  flat_map (fun y => map (F y) (seq 0 w)) (seq 0 h) !! (y * w + x)
  = Some (F y x).
Proof.
  intros Hx. induction h as [|h IH]; intros Hy; [lia|].
  rewrite seq_S, flat_map_app. cbn [flat_map]. rewrite app_nil_r.
  destruct (decide (y = h)) as [->|Hne].
  - rewrite lookup_app_r; rewrite table_length; [|lia].
    replace (h * w + x - h * w) with x by lia.
    rewrite list_lookup_fmap, lookup_seq_lt by done. done.
  - rewrite lookup_app_l.
    + apply IH. lia.
    + rewrite table_length. nia.
Qed.

End Tables.

Lemma grid_eq (l1 l2 : list R) w h :
  length l1 = w * h -> length l2 = w * h ->
  (forall x y, x < w -> y < h -> l1 !! (y * w + x) = l2 !! (y * w + x)) ->
  l1 = l2.
Proof.
  intros H1 H2 Hc. apply list_eq. intros i.
  destruct (decide (i < w * h)) as [Hi|Hi].
  - assert (Hw : 0 < w) by nia.
    pose proof (Nat.div_mod_eq i w) as Hdm.
    pose proof (Nat.mod_upper_bound i w ltac:(lia)) as Hm.
    assert (Hy : i `div` w < h).
    { apply Nat.Div0.div_lt_upper_bound. lia. }
    specialize (Hc (i `mod` w) (i `div` w) Hm Hy).
    replace (i `div` w * w + i `mod` w) with i in Hc by lia. done.
  - rewrite !(proj2 (lookup_ge_None _ _)) by lia. done.
Qed.

Lemma dt2_hmirror (g : list R) width height x y :
  x < width -> y < height -> width * height <= length g ->
  dt2 (hmirror width height g) width height x y
  = dt2 g width height (width - 1 - x) y.
Proof.
  intros Hx Hy Hg. unfold dt2.
  rewrite <- (dt_flip
                (fun x' => dt (fun y' => get g (y' * width + x')) height y))
    by done.
  apply dt_ext; [lia|]. intros x' Hx'. cbv beta.
  apply dt_ext; [lia|]. intros y' Hy'. cbv beta.
  unfold hmirror, get at 1.
  rewrite (table_lookup (fun y x => get g (y * width + (width - 1 - x))))
    by done. done.
Qed.

Lemma dt2_vmirror (g : list R) width height x y :
  x < width -> y < height -> width * height <= length g ->
  dt2 (vmirror width height g) width height x y
  = dt2 g width height x (height - 1 - y).
Proof.
  intros Hx Hy Hg. unfold dt2.
  apply dt_ext; [lia|]. intros x' Hx'. cbv beta.
  rewrite <- (dt_flip (fun y' => get g (y' * width + x'))) by done.
  apply dt_ext; [lia|]. intros y' Hy'. cbv beta.
  unfold vmirror, get at 1.
  rewrite (table_lookup (fun y x => get g ((height - 1 - y) * width + x)))
    by done. done.
Qed.

(** C8 (as amended): in exact arithmetic, [edt] of the horizontal mirror
    image of a grid is the horizontal mirror image of [edt] of the grid, and
    likewise for the vertical mirror image. *)
Theorem edt_commutes_with_mirror_exact (g : list R) width height
    (f1 : list R) v1 (z1 : list R) (f2 : list R) v2 (z2 : list R) :
  width * height <= length g ->
  scratch_fits width f1 v1 z1 -> scratch_fits height f1 v1 z1 ->
  scratch_fits width f2 v2 z2 -> scratch_fits height f2 v2 z2 ->
  a_grid (edt (hmirror width height g) width height f1 v1 z1)
  = hmirror width height (a_grid (edt g width height f2 v2 z2)) /\
  a_grid (edt (vmirror width height g) width height f1 v1 z1)
  = vmirror width height (a_grid (edt g width height f2 v2 z2)).
Proof.
  intros Hg Hw1 Hh1 Hw2 Hh2.
  destruct (edt_exact g width height f2 v2 z2 Hg Hw2 Hh2) as [Hlen Hcell].
  assert (Hlh : length (hmirror width height g) = width * height).
  { unfold hmirror. rewrite table_length. lia. }
  assert (Hlv : length (vmirror width height g) = width * height).
  { unfold vmirror. rewrite table_length. lia. }
  destruct (edt_exact (hmirror width height g) width height f1 v1 z1
              ltac:(lia) Hw1 Hh1) as [Hlenh Hcellh].
  destruct (edt_exact (vmirror width height g) width height f1 v1 z1
              ltac:(lia) Hw1 Hh1) as [Hlenv Hcellv].
  split.
  - apply (grid_eq _ _ width height); [lia| |].
    { unfold hmirror. rewrite table_length. lia. }
    intros x y Hx Hy. rewrite Hcellh by done. unfold hmirror at 2.
    rewrite (table_lookup (fun y x => get _ (y * width + (width - 1 - x))))
      by done.
    unfold get. rewrite Hcell by lia. cbn [default].
    by rewrite dt2_hmirror.
  - apply (grid_eq _ _ width height); [lia| |].
    { unfold vmirror. rewrite table_length. lia. }
    intros x y Hx Hy. rewrite Hcellv by done. unfold vmirror at 2.
    rewrite (table_lookup (fun y x => get _ ((height - 1 - y) * width + x)))
      by done.
    unfold get. rewrite Hcell by lia. cbn [default].
    by rewrite dt2_vmirror.
Qed.

Section Single_zero.
Local Open Scope R_scope.






End Single_zero.

(** ** The order of the passes in exact arithmetic *)

Lemma scratch_fits_rows {num} {N : Number num} n width ys (a : arrays num) :
  scratch_fits n (a_f a) (a_v a) (a_z a) ->
  scratch_fits n (a_f (foldl (row_pass width) a ys))
                 (a_v (foldl (row_pass width) a ys))
                 (a_z (foldl (row_pass width) a ys)).
Proof.
  revert a. induction ys as [|y ys IH]; intros a Ha; [done|].
  cbn [foldl]. apply IH. unfold row_pass. by apply scratch_fits_run.
Qed.

Lemma edt_rows_first_exact (g : list R) width height
    (f : list R) v (z : list R) :
  width * height <= length g ->
  scratch_fits width f v z -> scratch_fits height f v z ->
  forall x y, x < width -> y < height ->
    a_grid (edt_rows_first g width height f v z) !! (y * width + x)
    = Some (dt2_rows_first g width height x y).
Proof.
  intros Hg Hw Hh. unfold edt_rows_first. cbv zeta.
  destruct (row_passes_exact g width height Hg height f v z
              (Nat.le_refl _) Hw) as (Hlen1 & _ & Hcell1).
  pose proof (scratch_fits_rows height width (seq 0 height)
                (Arrays g f v z) Hh) as Hh1.
  destruct (foldl (row_pass width) _ _) as [g1 f1 v1 z1].
  cbn [a_grid a_f a_v a_z] in *.
  destruct (column_passes_exact g1 width height ltac:(lia) width f1 v1 z1
              (Nat.le_refl _) Hh1) as (Hlen2 & _ & Hcell2).
  intros x y Hx Hy.
  rewrite Hcell2 by done. rewrite decide_True by done. f_equal.
  unfold dt2_rows_first. apply dt_ext; [lia|]. intros y' Hy'. cbv beta.
  unfold get at 1. rewrite Hcell1 by done. by rewrite decide_True.
Qed.

Section Order.
Local Open Scope R_scope.

Lemma lower_env2_unique g w h x y m1 m2 :
  lower_env2 g w h x y m1 -> lower_env2 g w h x y m2 -> m1 = m2.
Proof.
  intros [(x1 & y1 & Hx1 & Hy1 & E1) L1] [(x2 & y2 & Hx2 & Hy2 & E2) L2].
  specialize (L1 x2 y2 Hx2 Hy2). specialize (L2 x1 y1 Hx1 Hy1). lra.
Qed.

Lemma dt2_lower_env2 g w h x y :
  (x < w)%nat -> (y < h)%nat -> lower_env2 g w h x y (dt2 g w h x y).
Proof.
  intros Hx Hy. unfold dt2.
  destruct (dt_spec (fun x' => dt (fun y' => get g (y' * w + x')%nat) h y)
              w x ltac:(lia)) as [(x' & Hx' & E) L].
  unfold parabola in E, L.
  destruct (dt_spec (fun y' => get g (y' * w + x')%nat) h y ltac:(lia))
    as [(y' & Hy' & E') _].
  unfold parabola in E'. split.
  - exists x', y'. split; [done|]. split; [done|]. rewrite E, E'. lra.
  - intros x2 y2 Hx2 Hy2. specialize (L x2 Hx2).
    destruct (dt_spec (fun y' => get g (y' * w + x2)%nat) h y ltac:(lia))
      as [_ L']. specialize (L' y2 Hy2). unfold parabola in L'. lra.
Qed.

Lemma dt2_rows_first_lower_env2 g w h x y :
  (x < w)%nat -> (y < h)%nat ->
  lower_env2 g w h x y (dt2_rows_first g w h x y).
Proof.
  intros Hx Hy. unfold dt2_rows_first.
  destruct (dt_spec (fun y' => dt (fun x' => get g (y' * w + x')%nat) w x)
              h y ltac:(lia)) as [(y' & Hy' & E) L].
  unfold parabola in E, L.
  destruct (dt_spec (fun x' => get g (y' * w + x')%nat) w x ltac:(lia))
    as [(x' & Hx' & E') _].
  unfold parabola in E'. split.
  - exists x', y'. split; [done|]. split; [done|]. rewrite E, E'. lra.
  - intros x2 y2 Hx2 Hy2. specialize (L y2 Hy2).
    destruct (dt_spec (fun x' => get g (y2 * w + x')%nat) w x ltac:(lia))
      as [_ L']. specialize (L' x2 Hx2). unfold parabola in L'. lra.
Qed.

End Order.

(** In exact arithmetic the order of the passes does not show in the grid:
    either order leaves in each cell the least [cost + squared distance]
    over the grid. *)
Lemma edt_order_exact (g : list R) width height
    (f : list R) v (z : list R) x y :
  width * height <= length g ->
  scratch_fits width f v z -> scratch_fits height f v z ->
  x < width -> y < height ->
  a_grid (edt g width height f v z) !! (y * width + x)
  = a_grid (edt_rows_first g width height f v z) !! (y * width + x) /\
  exists m, a_grid (edt g width height f v z) !! (y * width + x) = Some m /\
            lower_env2 g width height x y m.
Proof.
  intros Hg Hw Hh Hx Hy.
  destruct (edt_exact g width height f v z Hg Hw Hh) as [_ Hcell].
  rewrite Hcell, edt_rows_first_exact by done. split.
  - f_equal. apply (lower_env2_unique g width height x y).
    + by apply dt2_lower_env2.
    + by apply dt2_rows_first_lower_env2.
  - eexists. split; [done|]. by apply dt2_lower_env2.
Qed.

(** ** Runs on binary64 *)




Example F64_single_zero_upto_8 : single_zero_upto 8 = true.
Proof. vm_compute. reflexivity. Qed.

Lemma single_zero_upto_spec n :
  single_zero_upto n = true ->
  forall w h x0 y0, 1 <= w <= n -> 1 <= h <= n -> x0 < w -> y0 < h ->
    single_zero_ok w h x0 y0 = true.
Proof.
  unfold single_zero_upto.
  intros H w h x0 y0 Hw Hh Hx0 Hy0. rewrite forallb_forall in H.
  specialize (H w ltac:(apply in_seq; lia)). rewrite forallb_forall in H.
  specialize (H h ltac:(apply in_seq; lia)). rewrite forallb_forall in H.
  specialize (H x0 ltac:(apply in_seq; lia)). rewrite forallb_forall in H.
  apply (H y0). apply in_seq. lia.
Qed.

(** On binary64, for every grid of at most 8 by 8 cells with one zero
    cell, [edt] gives the squared distances. *)
Lemma F64_single_zero_small w h x0 y0 :
  1 <= w <= 8 -> 1 <= h <= 8 -> x0 < w -> y0 < h ->
  single_zero_ok w h x0 y0 = true.
Proof. exact (single_zero_upto_spec 8 F64_single_zero_upto_8 w h x0 y0). Qed.

Example F64_edt_line :
  a_grid (edt [0; 1e20; 1e20]%float 3 1 [0; 0; 0]%float [0; 0; 0]
              [0; 0; 0; 0]%float)
  = [0; 1; 4]%float.
Proof. vm_compute. reflexivity. Qed.

(** C4 as worded fails: on a grid one cell wide and two high the scratch
    array [f] ends with the last row, [1; INF]; had the row passes run
    first it would end with the column, [0; INF]. *)
Lemma edt_not_rows_first :
  let a := edt [0; 1e20]%float 1 2 [0; 0]%float [0; 0] [0; 0; 0]%float in
  let b := edt_rows_first [0; 1e20]%float 1 2 [0; 0]%float [0; 0]
                          [0; 0; 0]%float in
  a_f a = [1; 1e20]%float /\ a_f b = [0; 1e20]%float /\ a <> b.
Proof.
  split; [vm_compute; reflexivity|]. split; [vm_compute; reflexivity|].
  intros H.
  apply (f_equal (fun a => match a_f a with
                           | x :: _ => PrimFloat.eqb x 1
                           | [] => false
                           end)) in H.
  vm_compute in H. discriminate.
Qed.

(** The order also shows in the grid: one pixel of alpha 4/255 on a 2 by 3
    canvas, last cell. *)
Example edt_order_shows_in_grid :
  let g := [faint; 1e20; 1e20; 1e20; 1e20; 1e20]%float in
  get (a_grid (edt g 2 3 [0; 0; 0]%float [0; 0; 0] [0; 0; 0; 0]%float)) 5
  = 0x1.4f03070b0f131p+2%float /\
  get (a_grid (edt_rows_first g 2 3 [0; 0; 0]%float [0; 0; 0]
                              [0; 0; 0; 0]%float)) 5
  = 0x1.4f03070b0f132p+2%float.
Proof. vm_compute. split; reflexivity. Qed.

(** C5 as worded fails: on the row [0; INF; INF] the first run gives
    [0; 1; 4] and the second run gives [0; 1; 2]: the last cell goes down
    from 4 to 2. *)
Lemma edt_again_lowers_a_cell :
  let first := edt [0; 1e20; 1e20]%float 3 1 [0; 0; 0]%float [0; 0; 0]
                   [0; 0; 0; 0]%float in
  let second := edt (a_grid first) 3 1 (a_f first) (a_v first) (a_z first) in
  a_grid first = [0; 1; 4]%float /\
  a_grid second = [0; 1; 2]%float /\
  (get (a_grid second) 2 <? get (a_grid first) 2)%float = true.
Proof. vm_compute. repeat split; reflexivity. Qed.

(** C6 as worded fails: for a space, whose metrics have no glyph but a
    canvas of 6 by 6, the data buffer holds 36 bytes; and for metrics with
    [glyphWidth = 0] only, the glyph returned keeps its [glyphHeight]. *)
Lemma draw_empty_glyph_not_empty :
  (glyphWidth space_metrics = 0 /\ glyphHeight space_metrics = 0 /\
   data (draw sdf24 " " space_metrics []).1 = replicate 36 0 /\
   data (draw sdf24 " " space_metrics []).1 <> []) /\
  (glyphWidth bar_metrics = 0 /\
   glyphHeight (glyph_metrics (draw sdf24 "|" bar_metrics []).1) = 5).
Proof.
  split.
  - split; [reflexivity|]. split; [reflexivity|].
    split; [vm_compute; reflexivity|]. vm_compute. discriminate.
  - split; reflexivity.
Qed.

(** C8 as worded fails on binary64: on the row [0; 1 - 2^-53] the sum
    [f[1] + 1] rounds to 2, the two parabolas meet at 1 and cell 1 takes the
    value 1 from cell 0; on the mirrored row no rounding occurs and the
    cell keeps [1 - 2^-53]. *)
Lemma edt_mirror_rounding :
  let g := [0; 0x1.fffffffffffffp-1]%float in
  a_grid (edt (hmirror 2 1 g) 2 1 [0; 0]%float [0; 0] [0; 0; 0]%float)
  = [0x1.fffffffffffffp-1; 0]%float /\
  hmirror 2 1 (a_grid (edt g 2 1 [0; 0]%float [0; 0] [0; 0; 0]%float))
  = [1; 0]%float /\
  a_grid (edt (hmirror 2 1 g) 2 1 [0; 0]%float [0; 0] [0; 0; 0]%float)
  <> hmirror 2 1 (a_grid (edt g 2 1 [0; 0]%float [0; 0] [0; 0; 0]%float)).
Proof.
  split; [vm_compute; reflexivity|]. split; [vm_compute; reflexivity|].
  intros H.
  apply (f_equal (fun l => match l with
                           | x :: _ => PrimFloat.eqb x 1
                           | [] => false
                           end)) in H.
  vm_compute in H. discriminate.
Qed.

(** The same with seeds [draw] produces: three pixels of alpha 4/255 on a
    4 by 3 canvas. *)
Example edt_mirror_rounding_seeds :
  let i := 1e20%float in
  let g := [i; i; i; i; faint; faint; i; i; i; i; faint; i] in
  let f0 := [0; 0; 0; 0]%float in
  let z0 := [0; 0; 0; 0; 0]%float in
  get (a_grid (edt (hmirror 4 3 g) 4 3 f0 [0; 0; 0; 0] z0)) 0
  = 0x1.4f03070b0f131p+2%float /\
  get (hmirror 4 3 (a_grid (edt g 4 3 f0 [0; 0; 0; 0] z0))) 0
  = 0x1.4f03070b0f132p+2%float.
Proof. vm_compute. split; reflexivity. Qed.

(** ** The theorems at concrete inputs *)

Lemma scratch_fits_small {num} n (f : list num) v (z : list num) :
  (n <=? 2 ^ 16) && (n <=? length f) && (n <=? length v) && (n <? length z)
  = true ->
  scratch_fits n f v z.
Proof.
  intros H. repeat (apply andb_prop in H as [H ?]).
  unfold scratch_fits.
  repeat split; try (by apply Nat.leb_le); by apply Nat.ltb_lt.
Qed.




Lemma edt_again_not_above_witness :
  exists m1 m2 : R,
    a_grid (edt [0; INF; INF]%R 3 1 [0; 0; 0]%R [0; 0; 0] [0; 0; 0; 0]%R)
      !! (0 * 3 + 2) = Some m1 /\
    a_grid (let first := edt [0; INF; INF]%R 3 1 [0; 0; 0]%R [0; 0; 0]
                             [0; 0; 0; 0]%R in
            edt (a_grid first) 3 1 (a_f first) (a_v first) (a_z first))
      !! (0 * 3 + 2) = Some m2 /\
    (m2 <= m1)%R.
Proof.
  apply (edt_again_not_above [0; INF; INF]%R 3 1 [0; 0; 0]%R [0; 0; 0]
           [0; 0; 0; 0]%R); try (cbn; lia).
  - apply scratch_fits_small. reflexivity.
  - apply scratch_fits_small. reflexivity.
Defined.

Lemma draw_empty_glyph_witness :
  glyphWidth space_metrics = 0 /\
  draw sdf24 " " space_metrics []
  = (Glyph (replicate 36 0) space_metrics, sdf24).
Proof.
  split; [reflexivity|].
  apply (draw_empty_glyph sdf24 " " space_metrics []). left. reflexivity.
Defined.

Lemma edt_commutes_with_mirror_exact_witness :
  a_grid (edt (hmirror 2 2 [0; 1; 4; 9]%R) 2 2 [0; 0]%R [0; 0] [0; 0; 0]%R)
  = hmirror 2 2 (a_grid (edt [0; 1; 4; 9]%R 2 2 [5; 5]%R [1; 1]
                             [7; 7; 7]%R)).
Proof.
  apply (edt_commutes_with_mirror_exact [0; 1; 4; 9]%R 2 2
           [0; 0]%R [0; 0] [0; 0; 0]%R [5; 5]%R [1; 1] [7; 7; 7]%R);
    try (cbn; lia); apply scratch_fits_small; reflexivity.
Defined.

Lemma sentinel_covers_3 : sentinel_covers (N := F64) 3.
Proof.
  intros q Hq. destruct q as [|[|[|q]]]; try lia; vm_compute; reflexivity.
Defined.

Lemma scratch_independence_witness :
  sentinel_covers (N := F64) 3 /\
  a_grid (edt1d [0; 1e20; 1e20]%float 0 1 3 [7; 7; 7]%float [9; 9; 9]
                [5; 5; 5; 5]%float)
  = a_grid (edt1d [0; 1e20; 1e20]%float 0 1 3 [0; 0; 0]%float [0; 0; 0]
                  [0; 0; 0; 0]%float).
Proof.
  split; [exact sentinel_covers_3|].
  apply (proj1 (scratch_independence 3 sentinel_covers_3)); [lia|reflexivity..].
Defined.

Lemma edt1d_frame_witness :
  a_grid (edt1d [1; 2; 3; 4]%float 0 2 2 [0; 0]%float [0; 0] [0; 0; 0]%float)
    !! 1
  = [1; 2; 3; 4]%float !! 1.
Proof.
  apply (proj1 (edt1d_frame [1; 2; 3; 4]%float [0; 0]%float [0; 0]
                  [0; 0; 0]%float)).
  intros i Hi. lia.
Defined.

(** * Further properties of the code

    What follows goes beyond the claims of the specification: what a pass
    and a transform compute, what they leave alone, how [getMetrics],
    the constructor, [draw] and [edt] fit together. *)

(** ** What a pass and a transform compute, in exact arithmetic *)
(** X1: in exact arithmetic a call of [edt1d] on a line of [n] samples,
    with a positive stride, a line that lies inside the grid and scratch
    arrays that hold it, leaves in every sample [q] of the line the least
    value of [grid[offset + r * stride] + (q - r)^2] over the samples [r]
    of the line as it was before the call: the value is reached at some
    [r], and no [r] gives less. *)
Theorem edt1d_lower_envelope (grid : list R) offset stride n
    (f : list R) v (z : list R) q :
  scratch_fits n f v z -> 0 < stride ->
  (forall r, r < n -> offset + r * stride < length grid) ->
  q < n ->
  exists m,
    a_grid (edt1d grid offset stride n f v z) !! (offset + q * stride)
    = Some m /\
    (exists r, r < n /\
       m = (get grid (offset + r * stride)
            + (INR q - INR r) * (INR q - INR r))%R) /\
    (forall r, r < n ->
       (m <= get grid (offset + r * stride)
             + (INR q - INR r) * (INR q - INR r))%R).
Proof.
  intros (Hn & Hf & Hv & Hz) Hs Hin Hq.
  exists (dt (fun r => get grid (offset + r * stride)) n q). split.
  - by apply edt1d_exact.
  - destruct (dt_spec (fun r => get grid (offset + r * stride)) n q
                ltac:(lia)) as [Hex Hlow].
    unfold parabola in Hex, Hlow. split; [exact Hex|exact Hlow].
Qed.

(** X2: in exact arithmetic [edt] leaves in every cell (x, y) of a [width]
    by [height] grid the least value of
    [data[y' * width + x'] + (x - x')^2 + (y - y')^2] over the cells
    (x', y') of the grid as it was before the call: the squared Euclidean
    distance transform of the costs. *)
Theorem edt_least_cost (g : list R) width height (f : list R) v (z : list R)
    x y :
  width * height <= length g ->
  scratch_fits width f v z -> scratch_fits height f v z ->
  x < width -> y < height ->
  exists m,
    a_grid (edt g width height f v z) !! (y * width + x) = Some m /\
    lower_env2 g width height x y m.
Proof.
  intros Hg Hw Hh Hx Hy.
  destruct (edt_exact g width height f v z Hg Hw Hh) as [_ Hcell].
  exists (dt2 g width height x y). split; [by apply Hcell|].
  by apply dt2_lower_env2.
Qed.

Lemma get_cell_le (g1 g2 : list R) w h x y :
  (forall i, i < w * h -> (get g1 i <= get g2 i)%R) ->
  x < w -> y < h -> (get g1 (y * w + x) <= get g2 (y * w + x))%R.
Proof. intros H Hx Hy. apply H. by apply cell_in_grid. Qed.

(** X3: in exact arithmetic [edt] is monotone: if no cell of one grid is
    above the same cell of another, then after the transform no cell of
    the first is above the same cell of the second, whatever the scratch
    arrays of the two calls hold. *)
Theorem edt_monotone (g1 g2 : list R) width height
    (f1 : list R) v1 (z1 : list R) (f2 : list R) v2 (z2 : list R) :
  width * height <= length g1 -> width * height <= length g2 ->
  scratch_fits width f1 v1 z1 -> scratch_fits height f1 v1 z1 ->
  scratch_fits width f2 v2 z2 -> scratch_fits height f2 v2 z2 ->
  (forall i, i < width * height -> (get g1 i <= get g2 i)%R) ->
  forall x y, x < width -> y < height ->
    exists m1 m2,
      a_grid (edt g1 width height f1 v1 z1) !! (y * width + x) = Some m1 /\
      a_grid (edt g2 width height f2 v2 z2) !! (y * width + x) = Some m2 /\
      (m1 <= m2)%R.
Proof.
  intros Hg1 Hg2 Hw1 Hh1 Hw2 Hh2 Hle x y Hx Hy.
  destruct (edt_exact g1 width height f1 v1 z1 Hg1 Hw1 Hh1) as [_ Hc1].
  destruct (edt_exact g2 width height f2 v2 z2 Hg2 Hw2 Hh2) as [_ Hc2].
  exists (dt2 g1 width height x y), (dt2 g2 width height x y).
  split; [by apply Hc1|]. split; [by apply Hc2|].
  destruct (dt2_lower_env2 g1 width height x y Hx Hy) as [_ Hlow].
  destruct (dt2_lower_env2 g2 width height x y Hx Hy)
    as [(x' & y' & Hx' & Hy' & ->) _].
  specialize (Hlow x' y' Hx' Hy').
  pose proof (get_cell_le g1 g2 width height x' y' Hle Hx' Hy'). lra.
Qed.

(** X4: in exact arithmetic, on a grid whose costs are not negative, [edt]
    leaves every cell between 0 and the cost it held: the transform never
    raises a cell, and a cell that held 0 still holds 0. *)
Theorem edt_between (g : list R) width height (f : list R) v (z : list R) :
  width * height <= length g ->
  scratch_fits width f v z -> scratch_fits height f v z ->
  (forall i, i < width * height -> (0 <= get g i)%R) ->
  forall x y, x < width -> y < height ->
    exists m,
      a_grid (edt g width height f v z) !! (y * width + x) = Some m /\
      (0 <= m <= get g (y * width + x))%R.
Proof.
  intros Hg Hw Hh Hpos x y Hx Hy.
  destruct (edt_exact g width height f v z Hg Hw Hh) as [_ Hc].
  exists (dt2 g width height x y). split; [by apply Hc|]. split.
  - destruct (dt2_lower_env2 g width height x y Hx Hy)
      as [(x' & y' & Hx' & Hy' & ->) _].
    pose proof (Hpos (y' * width + x') (cell_in_grid _ _ _ _ Hx' Hy')).
    pose proof (Rle_0_sqr (INR x - INR x')) as H1.
    pose proof (Rle_0_sqr (INR y - INR y')) as H2.
    unfold Rsqr in H1, H2. lra.
  - by apply dt2_le.
Qed.

(** X5: in exact arithmetic [edt] commutes with adding a constant to every
    cost: the transform of the grid with [c] added to every cell is the
    transform of the grid, with [c] added to every cell. *)
Theorem edt_add_constant (c : R) (g : list R) width height
    (f : list R) v (z : list R) (f' : list R) v' (z' : list R) :
  width * height <= length g ->
  scratch_fits width f v z -> scratch_fits height f v z ->
  scratch_fits width f' v' z' -> scratch_fits height f' v' z' ->
  forall x y, x < width -> y < height ->
    a_grid (edt (map (fun a => (a + c)%R) g) width height f' v' z')
      !! (y * width + x)
    = (fun a => (a + c)%R)
        <$> a_grid (edt g width height f v z) !! (y * width + x).
Proof.
  intros Hg Hw Hh Hw' Hh' x y Hx Hy.
  destruct (edt_exact g width height f v z Hg Hw Hh) as [_ Hc].
  destruct (edt_exact (map (fun a => (a + c)%R) g) width height f' v' z'
              ltac:(by rewrite length_map) Hw' Hh') as [_ Hc'].
  rewrite Hc, Hc' by done. cbn [fmap option_fmap option_map]. f_equal.
  assert (Hget : forall x' y', x' < width -> y' < height ->
            get (map (fun a => (a + c)%R) g) (y' * width + x')
            = (get g (y' * width + x') + c)%R).
  { intros x' y' Hx' Hy'. unfold get. rewrite list_lookup_fmap.
    pose proof (cell_in_grid _ _ _ _ Hx' Hy').
    destruct (lookup_lt_is_Some_2 g (y' * width + x') ltac:(lia)) as [a ->].
    done. }
  apply (lower_env2_unique (map (fun a => (a + c)%R) g) width height x y).
  - by apply dt2_lower_env2.
  - destruct (dt2_lower_env2 g width height x y Hx Hy)
      as [(x' & y' & Hx' & Hy' & E) Hlow]. split.
    + exists x', y'. split; [done|]. split; [done|].
      rewrite Hget by done. rewrite E. lra.
    + intros x2 y2 Hx2 Hy2. rewrite Hget by done.
      specialize (Hlow x2 y2 Hx2 Hy2). lra.
Qed.

(** ** What a pass and a transform store, on any carrier

    The next theorems hold for every [Number], hence for binary64 with its
    rounding and its NaN. *)

Section Samples.
Context {num : Type} {N : Number num}.
Implicit Types (grid f z : list num) (v : list nat).

(** After the third loop has run over the samples [a .. a + m - 1], each of
    their cells holds the parabola of an index the stack holds. *)
Lemma emit_fold_pick n f v z offset stride K m :
  closed K z -> stack_below n K v -> K < length v -> 0 < stride ->
  forall a k grid,
    (forall q, a <= q < a + m -> nlt INF (idx q) = false) ->
    k <= K ->
    (foldl (emit f v z offset stride) (k, grid) (seq a m)).1 <= K /\
    forall q, a <= q < a + m -> offset + q * stride < length grid ->
      exists r, r < n /\
        (foldl (emit f v z offset stride) (k, grid) (seq a m)).2
          !! (offset + q * stride)
        = Some (get f r + (idx q - idx r) * (idx q - idx r))%num.
Proof.
  intros Hc Hb HK Hs. induction m as [|m IH]; intros a k grid Hinf Hk.
  { split; [done|]. intros q Hq. lia. }
  rewrite seq_S, foldl_app. cbn [foldl].
  destruct (IH a k grid ltac:(intros; apply Hinf; lia) Hk) as [Hk' Hcells].
  pose proof (emit_fold_length f v z offset stride (seq a m) (k, grid)) as Hlen.
  destruct (foldl (emit f v z offset stride) (k, grid) (seq a m))
    as [k' grid'].
  cbn [fst snd] in *. unfold emit.
  pose proof (advance_le z (a + m) k' K Hk' Hc (Hinf (a + m) ltac:(lia)))
    as Hadv.
  set (k2 := advance z (a + m) k') in *. cbn [fst snd].
  split; [lia|]. intros q Hq Hcell.
  destruct (decide (q = a + m)) as [->|Hne].
  - destruct (lookup_lt_is_Some_2 v k2 ltac:(lia)) as [r Hr].
    exists r. split; [apply (Hb k2 r); [lia|done]|].
    rewrite Hr. cbn [get_at num_at].
    apply list_lookup_insert_eq. lia.
  - rewrite list_lookup_insert_ne by nia.
    apply Hcells; [lia|done].
Qed.

End Samples.

(** Every value a pass stores is the parabola of a sample of the line. *)
Lemma edt1d_pick {num : Type} {N : Number num}
    (grid : list num) offset stride n (f : list num) v (z : list num) q :
  sentinel_covers n -> n <= length f -> n <= length v -> 0 < stride ->
  q < n -> offset + q * stride < length grid ->
  exists r, r < n /\
    a_grid (edt1d grid offset stride n f v z) !! (offset + q * stride)
    = Some (get grid (offset + r * stride)
            + (idx q - idx r) * (idx q - idx r))%num.
Proof.
  intros Hinf Hf Hv Hs Hq Hcell. rewrite edt1d_unfold. cbv zeta. cbn [a_grid].
  set (f' := copy_line grid offset stride n f).
  pose proof (push_fold_inv f' (n - 1) 1 0 (<[0:=0]> v)
                (<[1:=INF]> (<[0:=(- INF)%num]> z))
                (stack_below_init v) (closed_init z)) as (HK & Hb & Hc).
  pose proof (push_fold_length f' (seq 1 (n - 1))
                (0, <[0:=0]> v, <[1:=INF]> (<[0:=(- INF)%num]> z)))
    as [Hlv _].
  destruct (foldl (push f') _ _) as [[K v1] z1]. cbn [fst snd] in *.
  rewrite length_insert in Hlv.
  replace (1 + (n - 1)) with n in Hb by lia.
  destruct (emit_fold_pick n f' v1 z1 offset stride K n Hc Hb ltac:(lia) Hs
              0 0 grid ltac:(intros; apply Hinf; lia) ltac:(lia))
    as [_ Hcells].
  destruct (Hcells q ltac:(lia) Hcell) as (r & Hr & E).
  exists r. split; [done|]. rewrite E. do 2 f_equal.
  unfold get at 1. unfold f'. rewrite copy_line_lookup.
  rewrite decide_True by lia. done.
Qed.

(** X6: on any carrier, a call of [edt1d] on a line of [n] samples stores
    in every sample [q] that lies inside the grid the value
    [f[r] + (q - r) * (q - r)] computed for some sample [r] of the line as
    it was before the call; it never stores anything else.  The scratch
    arrays [f] and [v] hold the line, the stride is positive and no index
    of the line is above the sentinel. *)
Theorem edt1d_picks_sample {num : Type} {N : Number num}
    (grid : list num) offset stride n (f : list num) v (z : list num) q :
  sentinel_covers n -> n <= length f -> n <= length v -> 0 < stride ->
  q < n -> offset + q * stride < length grid ->
  exists r, r < n /\
    a_grid (edt1d grid offset stride n f v z) !! (offset + q * stride)
    = Some (get grid (offset + r * stride)
            + (idx q - idx r) * (idx q - idx r))%num.
Proof. apply edt1d_pick. Qed.

Section Picks.
Context {num : Type} {N : Number num}.
Variables (g : list num) (width height : nat).
Hypothesis Hg : width * height <= length g.

Lemma column_passes_pick a (f : list num) v (z : list num) :
  sentinel_covers height -> height <= length f -> height <= length v ->
  a <= width ->
  let r := foldl (column_pass width height) (Arrays g f v z) (seq 0 a) in
  length (a_grid r) = length g /\
  length (a_f r) = length f /\ length (a_v r) = length v /\
  forall x y, x < width -> y < height ->
    if decide (x < a)
    then exists y', y' < height /\
           a_grid r !! (y * width + x)
           = Some (get g (y' * width + x)
                   + (idx y - idx y') * (idx y - idx y'))%num
    else a_grid r !! (y * width + x) = g !! (y * width + x).
Proof.
  intros Hinf Hf Hv Ha. induction a as [|a IH]; cbv zeta.
  - cbn [seq foldl a_grid a_f a_v a_z]. split; [done|]. split; [done|].
    split; [done|]. intros x y Hx Hy. by rewrite decide_False by lia.
  - rewrite seq_S, foldl_app. cbn [foldl]. change (0 + a) with a.
    destruct IH as (Hlen & Hlf & Hlv & Hcell); [lia|].
    set (r := foldl (column_pass width height) (Arrays g f v z) (seq 0 a)) in *.
    unfold column_pass at 1 2 3 4 5. unfold run.
    destruct (edt1d_length (a_grid r) a width height (a_f r) (a_v r) (a_z r))
      as (E1 & E2 & E3 & _).
    split; [lia|]. split; [lia|]. split; [lia|].
    intros x y Hx Hy.
    destruct (decide (x = a)) as [->|Hne].
    + rewrite decide_True by lia.
      destruct (edt1d_pick (a_grid r) a width height (a_f r) (a_v r) (a_z r) y)
        as (y' & Hy' & E); try done; try lia.
      { pose proof (cell_in_grid width height a y ltac:(lia) Hy). lia. }
      exists y'. split; [done|].
      replace (y * width + a) with (a + y * width) by lia. rewrite E.
      do 2 f_equal. unfold get.
      specialize (Hcell a y' ltac:(lia) Hy'). rewrite decide_False in Hcell by lia.
      replace (a + y' * width) with (y' * width + a) by lia. by rewrite Hcell.
    + assert (Hfr : a_grid (edt1d (a_grid r) a width height (a_f r) (a_v r)
                              (a_z r)) !! (y * width + x)
                    = a_grid r !! (y * width + x)).
      { apply edt1d_frame_cell. intros i Hi Heq.
        destruct (cell_unique width y x i a) as [_ ?]; [lia|lia|lia|lia]. }
      rewrite Hfr. specialize (Hcell x y Hx Hy).
      destruct (decide (x < a)); [rewrite decide_True by lia|
                                  rewrite decide_False by lia]; done.
Qed.

Lemma row_passes_pick b (f : list num) v (z : list num) :
  sentinel_covers width -> width <= length f -> width <= length v ->
  b <= height ->
  let r := foldl (row_pass width) (Arrays g f v z) (seq 0 b) in
  length (a_grid r) = length g /\
  length (a_f r) = length f /\ length (a_v r) = length v /\
  forall x y, x < width -> y < height ->
    if decide (y < b)
    then exists x', x' < width /\
           a_grid r !! (y * width + x)
           = Some (get g (y * width + x')
                   + (idx x - idx x') * (idx x - idx x'))%num
    else a_grid r !! (y * width + x) = g !! (y * width + x).
Proof.
  intros Hinf Hf Hv Hb. induction b as [|b IH]; cbv zeta.
  - cbn [seq foldl a_grid a_f a_v a_z]. split; [done|]. split; [done|].
    split; [done|]. intros x y Hx Hy. by rewrite decide_False by lia.
  - rewrite seq_S, foldl_app. cbn [foldl]. change (0 + b) with b.
    destruct IH as (Hlen & Hlf & Hlv & Hcell); [lia|].
    set (r := foldl (row_pass width) (Arrays g f v z) (seq 0 b)) in *.
    unfold row_pass at 1 2 3 4 5. unfold run.
    destruct (edt1d_length (a_grid r) (b * width) 1 width (a_f r) (a_v r)
                (a_z r)) as (E1 & E2 & E3 & _).
    split; [lia|]. split; [lia|]. split; [lia|].
    intros x y Hx Hy.
    destruct (decide (y = b)) as [->|Hne].
    + rewrite decide_True by lia.
      destruct (edt1d_pick (a_grid r) (b * width) 1 width (a_f r) (a_v r)
                  (a_z r) x) as (x' & Hx' & E); try done; try lia.
      { pose proof (cell_in_grid width height x b Hx ltac:(lia)). lia. }
      exists x'. split; [done|].
      replace (b * width + x) with (b * width + x * 1) by lia. rewrite E.
      do 2 f_equal. unfold get.
      specialize (Hcell x' b Hx' ltac:(lia)).
      rewrite decide_False in Hcell by lia.
      replace (b * width + x' * 1) with (b * width + x') by lia.
      by rewrite Hcell.
    + assert (Hfr : a_grid (edt1d (a_grid r) (b * width) 1 width (a_f r)
                              (a_v r) (a_z r)) !! (y * width + x)
                    = a_grid r !! (y * width + x)).
      { apply edt1d_frame_cell. intros i Hi Heq.
        destruct (cell_unique width y x b i) as [? _]; [lia|lia|lia|lia]. }
      rewrite Hfr. specialize (Hcell x y Hx Hy).
      destruct (decide (y < b)); [rewrite decide_True by lia|
                                  rewrite decide_False by lia]; done.
Qed.

End Picks.

(** X7: on any carrier, [edt] stores in every cell (x, y) of the grid the
    cost some cell (x', y') held before the call, with [(y - y')^2] added
    by the pass over the column and then [(x - x')^2] by the pass over the
    row, each sum and product as the carrier computes it. *)
Theorem edt_picks_cell {num : Type} {N : Number num}
    (g : list num) width height (f : list num) v (z : list num) x y :
  sentinel_covers width -> sentinel_covers height ->
  width <= length f -> height <= length f ->
  width <= length v -> height <= length v ->
  width * height <= length g ->
  x < width -> y < height ->
  exists x' y', x' < width /\ y' < height /\
    a_grid (edt g width height f v z) !! (y * width + x)
    = Some (get g (y' * width + x')
            + (idx y - idx y') * (idx y - idx y')
            + (idx x - idx x') * (idx x - idx x'))%num.
Proof.
  intros Hiw Hih Hfw Hfh Hvw Hvh Hg Hx Hy. unfold edt. cbv zeta.
  destruct (column_passes_pick g width height Hg width f v z Hih Hfh Hvh
              (Nat.le_refl _)) as (Hl & Hlf & Hlv & Hcol).
  destruct (foldl (column_pass width height) _ _) as [g1 f1 v1 z1].
  cbn [a_grid a_f a_v a_z] in *.
  destruct (row_passes_pick g1 width height ltac:(lia) height f1 v1 z1 Hiw
              ltac:(lia) ltac:(lia) (Nat.le_refl _)) as (_ & _ & _ & Hrow).
  specialize (Hrow x y Hx Hy). rewrite decide_True in Hrow by done.
  destruct Hrow as (x' & Hx' & E).
  specialize (Hcol x' y Hx' Hy). rewrite decide_True in Hcol by done.
  destruct Hcol as (y' & Hy' & E').
  exists x', y'. split; [done|]. split; [done|].
  rewrite E. unfold get at 1. by rewrite E'.
Qed.

Section Edt_frame.
Context {num : Type} {N : Number num}.

Lemma run_fold_frame ps (a : arrays num) j :
  (forall offset stride n i, (offset, stride, n) ∈ ps -> i < n ->
     j <> offset + i * stride) ->
  a_grid (foldl run a ps) !! j = a_grid a !! j.
Proof.
  revert a. induction ps as [|[[offset stride] n] ps IH]; intros a Hps;
    [done|].
  cbn [foldl]. rewrite IH.
  - unfold run. apply edt1d_frame_cell. intros i Hi.
    apply (Hps offset stride n i); [left|done].
  - intros o s n' i Hin Hi. apply (Hps o s n' i); [by right|done].
Qed.

Lemma run_fold_length ps (a : arrays num) :
  length (a_grid (foldl run a ps)) = length (a_grid a).
Proof.
  revert a. induction ps as [|p ps IH]; intros a; [done|].
  cbn [foldl]. rewrite IH. apply run_length.
Qed.

End Edt_frame.

(** X8: [edt] keeps the length of the grid and changes no element at an
    index from [width * height] on: what the array holds past the grid of
    the glyph is left as it was. *)
Theorem edt_frame {num : Type} {N : Number num}
    (data : list num) width height (f : list num) v (z : list num) :
  length (a_grid (edt data width height f v z)) = length data /\
  forall j, width * height <= j ->
    a_grid (edt data width height f v z) !! j = data !! j.
Proof.
  rewrite edt_passes. split; [apply run_fold_length|].
  intros j Hj. rewrite run_fold_frame; [done|].
  intros offset stride n i Hin Hi.
  apply elem_of_app in Hin as [Hin|Hin];
    apply list_elem_of_fmap in Hin as (c & Heq & Hc);
    injection Heq as -> -> ->; apply elem_of_seq in Hc.
  - pose proof (cell_in_grid width height c i ltac:(lia) Hi). lia.
  - pose proof (cell_in_grid width height i c Hi ltac:(lia)). lia.
Qed.

(** X9: with [width = 0] or [height = 0] the loops of [edt] run no pass
    over a sample, and the grid is returned as it was. *)
Theorem edt_empty_grid {num : Type} {N : Number num}
    (data : list num) width height (f : list num) v (z : list num) :
  width = 0 \/ height = 0 ->
  a_grid (edt data width height f v z) = data.
Proof.
  intros H. apply list_eq. intros j.
  rewrite edt_passes. rewrite run_fold_frame; [done|].
  intros offset stride n i Hin Hi.
  apply elem_of_app in Hin as [Hin|Hin];
    apply list_elem_of_fmap in Hin as (c & Heq & Hc);
    injection Heq as -> -> ->; apply elem_of_seq in Hc; lia.
Qed.

(** ** binary64: zero, NaN and the seeds *)

Lemma f64_add_zero (x : float) : x <> (-0)%float -> (x + 0)%float = x.
Proof.
  intros Hx. apply Prim2SF_inj. rewrite add_spec.
  change (Prim2SF 0) with (S754_zero false).
  destruct (Prim2SF x) as [[|]| | |] eqn:E; try reflexivity.
  exfalso. apply Hx. apply Prim2SF_inj. rewrite E. reflexivity.
Qed.

Lemma f64_nan_sub_l (y : float) : (nan - y)%float = nan.
Proof. apply Prim2SF_inj. rewrite sub_spec. reflexivity. Qed.

Lemma f64_nan_sub_r (x : float) : (x - nan)%float = nan.
Proof.
  apply Prim2SF_inj. rewrite sub_spec.
  change (Prim2SF nan) with S754_nan. by destruct (Prim2SF x).
Qed.

Lemma f64_nan_div_l (y : float) : (nan / y)%float = nan.
Proof. apply Prim2SF_inj. rewrite div_spec. reflexivity. Qed.

Lemma f64_nan_add_l (y : float) : (nan + y)%float = nan.
Proof. apply Prim2SF_inj. rewrite add_spec. reflexivity. Qed.

(** The byte of a cell one of whose grids has no such cell. *)
Lemma quantize_nan (radius cutoff : float) gO gI i :
  length gO <= i \/ length gI <= i ->
  quantize radius cutoff gO gI i = 0.
Proof.
  intros H. unfold quantize.
  assert ((Math_sqrt (get gO i) - Math_sqrt (get gI i))%num = nan) as ->.
  { destruct H as [H|H]; unfold get; rewrite (lookup_ge_None_2 _ _ H).
    - apply f64_nan_sub_l.
    - apply f64_nan_sub_r. }
  change (nan / radius)%num with (nan / radius)%float.
  rewrite f64_nan_div_l.
  change (nan + cutoff)%num with (nan + cutoff)%float.
  rewrite f64_nan_add_l. vm_compute. reflexivity.
Qed.

Section Lengths.
Context {num : Type} {N : Number num}.

Lemma set_at_length (a : list num) j x : length (set_at a j x) = length a.
Proof. unfold set_at. destruct (j <? 0)%Z; [done|apply length_insert]. Qed.

Lemma seed_cell_fold_length imgData width gw (offset : Z)
    ps (g : list num * list num) :
  length (foldl (fun g p => seed_cell imgData width gw offset p.2 g p.1)
                g ps).1 = length g.1 /\
  length (foldl (fun g p => seed_cell imgData width gw offset p.2 g p.1)
                g ps).2 = length g.2.
Proof.
  revert g. induction ps as [|p ps IH]; intros g; [done|].
  cbn [foldl]. destruct (IH (seed_cell imgData width gw offset p.2 g p.1))
    as [-> ->].
  unfold seed_cell. cbn [fst snd]. by rewrite !set_at_length.
Qed.

Lemma seed_length gridOuter gridInner imgData width height gw gh :
  length (seed gridOuter gridInner imgData width height gw gh).1
  = length gridOuter /\
  length (seed gridOuter gridInner imgData width height gw gh).2
  = length gridInner.
Proof.
  unfold seed. rewrite nested_fold.
  destruct (seed_cell_fold_length imgData width gw (centre width gw)
              (flat_map (fun y => map (fun x => (x, y)) (seq 0 gw))
                        (seq 0 gh))
              (fill gridOuter INF (width * height),
               fill gridInner (idx 0) (width * height))) as [-> ->].
  cbn [fst snd]. by rewrite !fill_length.
Qed.

Lemma run_fold_lengths ps (a : arrays num) :
  length (a_grid (foldl run a ps)) = length (a_grid a) /\
  length (a_f (foldl run a ps)) = length (a_f a) /\
  length (a_v (foldl run a ps)) = length (a_v a) /\
  length (a_z (foldl run a ps)) = length (a_z a).
Proof.
  revert a. induction ps as [|[[o s] n] ps IH]; intros a; [done|].
  cbn [foldl]. destruct (IH (run a (o, s, n))) as (-> & -> & -> & ->).
  unfold run. apply edt1d_length.
Qed.

Lemma edt_length (data : list num) width height f v z :
  length (a_grid (edt data width height f v z)) = length data /\
  length (a_f (edt data width height f v z)) = length f /\
  length (a_v (edt data width height f v z)) = length v /\
  length (a_z (edt data width height f v z)) = length z.
Proof. rewrite edt_passes. apply (run_fold_lengths _ (Arrays data f v z)). Qed.

(** [draw] keeps the length of every array of the instance. *)
Lemma draw_lengths this char m imgData :
  let this' := (draw this char m imgData).2 in
  length (gridOuter this') = length (gridOuter this) /\
  length (gridInner this') = length (gridInner this) /\
  length (f this') = length (f this) /\
  length (v this') = length (v this) /\
  length (z this') = length (z this).
Proof.
  unfold draw. destruct ((glyphWidth m =? 0) || (glyphHeight m =? 0)); [done|].
  pose proof (seed_length (gridOuter this) (gridInner this) imgData (width m)
                (height m) (glyphWidth m) (glyphHeight m)) as [HO HI].
  destruct (seed _ _ _ _ _ _ _) as [gO gI]. cbn [fst snd] in *.
  cbn [gridOuter gridInner f v z].
  destruct (edt_length gO (width m) (height m) (f this) (v this) (z this))
    as (E1 & E2 & E3 & E4).
  destruct (edt_length gI (width m) (height m)
              (a_f (edt gO (width m) (height m) (f this) (v this) (z this)))
              (a_v (edt gO (width m) (height m) (f this) (v this) (z this)))
              (a_z (edt gO (width m) (height m) (f this) (v this) (z this))))
    as (E5 & E6 & E7 & E8).
  rewrite E5, E6, E7, E8, E1, E2, E3, E4. done.
Qed.

End Lengths.

(** X10: on binary64 a call of [edt1d] on a line of one sample leaves the
    grid as it was, except that a sample holding -0 becomes +0 (the pass
    stores [f[0] + 0]); the scratch arrays [f] and [v] are not empty. *)
Theorem edt1d_one_sample (grid f : list float) v (z : list float)
    offset stride x :
  f <> [] -> v <> [] -> grid !! offset = Some x ->
  a_grid (edt1d grid offset stride 1 f v z)
  = if Leibniz.eqb x (-0)%float then <[offset := 0%float]> grid else grid.
Proof.
  intros Hf Hv Hx. rewrite edt1d_unfold. cbv zeta.
  change (seq 1 (1 - 1)) with (@nil nat). cbn [a_grid seq foldl fst snd].
  unfold emit. cbn [snd].
  pose proof (advance_le (<[1:=INF]> (<[0:=(- INF)%num]> z)) 0 0 0
                (Nat.le_refl 0) (closed_init z) eq_refl) as Hk.
  assert (advance (<[1:=INF]> (<[0:=(- INF)%num]> z)) 0 0 = 0) as -> by lia.
  rewrite list_lookup_insert_eq by (destruct v; [done|cbn; lia]).
  cbn [get_at num_at]. unfold get. rewrite copy_line_lookup.
  rewrite decide_True by (destruct f; [done|cbn; lia]).
  rewrite Nat.mul_0_l, Nat.add_0_r. unfold get. rewrite Hx.
  change (default NaN (Some (default NaN (Some x)))) with x.
  change ((idx 0 - idx 0) * (idx 0 - idx 0))%num with 0%float.
  change (@nadd float F64) with PrimFloat.add.
  destruct (Leibniz.eqb x (-0)%float) eqn:E.
  - apply Leibniz.eqb_spec in E. subst x. reflexivity.
  - assert (Hne : x <> (-0)%float).
    { intros Hx0. subst x. vm_compute in E. discriminate. }
    rewrite (f64_add_zero x Hne). by apply list_insert_id.
Qed.

Lemma pixel_seeds_all : forallb pixel_seeds_ok (seq 0 256) = true.
Proof. vm_compute. reflexivity. Qed.

(** X11: on binary64, for every alpha byte [b] that [getImageData] can
    answer, the two seeds [draw] computes from [a = b / 255] put the pixel
    on one side of the edge: below 128 the inner seed is +0 and the outer
    seed is positive, from 128 on the outer seed is +0 and the inner seed
    is positive; the outer seed is the sentinel for [b = 0] only and the
    inner seed for [b = 255] only, and every other seed is below 1/4. *)
Theorem seeds_classify_pixel (imgData : list nat) (glyphWidth x y b : nat) :
  imgData !! (4 * (y * glyphWidth + x) + 3) = Some b -> b <= 255 ->
  let a := alpha imgData glyphWidth x y in
  (if b <? 128
   then inner_seed a = 0%float /\ (0 <? outer_seed a)%float = true
   else outer_seed a = 0%float /\ (0 <? inner_seed a)%float = true) /\
  (if b =? 0 then outer_seed a = 1e20%float
   else (outer_seed a <? 0.25)%float = true) /\
  (if b =? 255 then inner_seed a = 1e20%float
   else (inner_seed a <? 0.25)%float = true).
Proof.
  intros Hb Hle a.
  assert (Ha : a = (idx b / idx 255)%num).
  { unfold a, alpha. rewrite Hb. reflexivity. }
  rewrite Ha. clear a Ha Hb.
  pose proof pixel_seeds_all as H. rewrite forallb_forall in H.
  specialize (H b ltac:(apply in_seq; lia)). unfold pixel_seeds_ok in H.
  cbv zeta in H.
  apply andb_prop in H as [H H3]. apply andb_prop in H as [H1 H2].
  split; [|split].
  - destruct (b <? 128); apply andb_prop in H1 as [E L];
      apply Leibniz.eqb_spec in E; done.
  - destruct (b =? 0); [by apply Leibniz.eqb_spec|done].
  - destruct (b =? 255); [by apply Leibniz.eqb_spec|done].
Qed.

(** X12: on binary64, when the metrics ask for more cells than a grid of
    the instance has, [draw] stores the byte 0 for every cell past the
    end of [gridOuter] or of [gridInner]: the read of the grid is
    [undefined], the distance is NaN, and NaN is stored as 0. *)
Theorem draw_beyond_grids (this : TinySDF float) char m imgData i :
  glyphWidth m <> 0 -> glyphHeight m <> 0 -> i < width m * height m ->
  length (gridOuter this) <= i \/ length (gridInner this) <= i ->
  data (draw this char m imgData).1 !! i = Some 0.
Proof.
  intros Hw Hh Hi Hlen. rewrite draw_data_lookup by done. f_equal.
  apply quantize_nan.
  destruct (draw_lengths this char m imgData) as (-> & -> & _). done.
Qed.

(** ** getMetrics *)

Section Metrics_exact.
Local Open Scope R_scope.

Lemma R_floor_spec x : IZR (R_floor x) <= x < IZR (R_floor x) + 1.
Proof.
  unfold R_floor. rewrite minus_IZR. destruct (archimed x). lra.
Qed.

Lemma R_ceil_spec x : x <= IZR (R_ceil x) < x + 1.
Proof.
  unfold R_ceil. rewrite opp_IZR. pose proof (R_floor_spec (- x)). lra.
Qed.

Lemma R_ceil_nonneg x : 0 <= x -> (0 <= R_ceil x)%Z.
Proof.
  intros Hx. apply le_IZR. pose proof (R_ceil_spec x). lra.
Qed.

Lemma idz_IZR (t : Z) : idz (N := Exact) t = IZR t.
Proof.
  unfold idz. cbn [idx nneg Exact]. destruct (Z.ltb_spec t 0).
  - rewrite INR_IZR_INZ, Z2Nat.id by lia. rewrite opp_IZR. lra.
  - rewrite INR_IZR_INZ, Z2Nat.id by lia. done.
Qed.

(** The clipped size of the glyph: the least natural number that covers
    the measured extent [e], or the bound [a] if that is smaller. *)
Lemma clip_exact (a : nat) (e : R) :
  0 <= e ->
  Rmin (INR a) (IZR (R_ceil e)) = INR (Nat.min a (Z.to_nat (R_ceil e))).
Proof.
  intros He. pose proof (R_ceil_nonneg e He) as Hc.
  assert (Hz : IZR (R_ceil e) = INR (Z.to_nat (R_ceil e))).
  { by rewrite INR_IZR_INZ, Z2Nat.id. }
  rewrite Hz.
  destruct (Nat.le_gt_cases a (Z.to_nat (R_ceil e))) as [Hle|Hgt].
  - rewrite Nat.min_l by done. apply Rmin_left. by apply le_INR.
  - rewrite Nat.min_r by lia. apply Rmin_right. apply le_INR. lia.
Qed.

Lemma R_floor_le x y : x <= y -> (R_floor x <= R_floor y)%Z.
Proof.
  intros H. pose proof (R_floor_spec x). pose proof (R_floor_spec y).
  apply Z.lt_succ_r. apply lt_IZR. rewrite succ_IZR. lra.
Qed.

Lemma R_floor_IZR n : R_floor (IZR n) = n.
Proof.
  pose proof (R_floor_spec (IZR n)) as [H1 H2].
  apply le_IZR in H1. rewrite <- succ_IZR in H2. apply lt_IZR in H2. lia.
Qed.

Lemma R_ceil_IZR n : R_ceil (IZR n) = n.
Proof. unfold R_ceil. rewrite <- opp_IZR, R_floor_IZR. lia. Qed.

End Metrics_exact.

(** In exact arithmetic, for a measured box that is not negative, the
    numbers [getMetrics] returns are those of these metrics. *)
Lemma getMetrics_metrics (this : TinySDF R) (tm : TextMetrics R) :
  buffer this <= size this ->
  (0 <= actualBoundingBoxRight tm - actualBoundingBoxLeft tm)%R ->
  (0 <= actualBoundingBoxAscent tm + actualBoundingBoxDescent tm)%R ->
  let gw := Nat.min (size this - buffer this)
              (Z.to_nat (R_ceil (actualBoundingBoxRight tm
                                 - actualBoundingBoxLeft tm))) in
  let gh := Nat.min (size this - buffer this)
              (Z.to_nat (R_ceil (actualBoundingBoxAscent tm
                                 + actualBoundingBoxDescent tm))) in
  represents (getMetrics this tm)
    (Metrics (gw + 2 * buffer this) (gh + 2 * buffer this) gw gh
             (R_floor (actualBoundingBoxAscent tm)) 0 (tm_width tm)).
Proof.
  intros Hb Hw Hh gw gh.
  assert (HW : m_glyphWidth (getMetrics this tm) = INR gw).
  { unfold getMetrics. cbn [m_glyphWidth Math_min Math_ceil Exact_rounding].
    cbn [idx nsub Exact]. rewrite <- minus_INR by done.
    by apply clip_exact. }
  assert (HH : m_glyphHeight (getMetrics this tm) = INR gh).
  { unfold getMetrics. cbn [m_glyphHeight Math_min Math_ceil Exact_rounding].
    cbn [idx nsub nadd Exact]. rewrite <- minus_INR by done.
    by apply clip_exact. }
  unfold represents.
  cbn [width height glyphWidth glyphHeight glyphTop glyphLeft glyphAdvance].
  rewrite HW, HH. split_and!; try done.
  - change (m_width (getMetrics this tm))
      with (m_glyphWidth (getMetrics this tm)
            + INR 2 * INR (buffer this))%R.
    rewrite HW. cbn [idx Exact]. by rewrite plus_INR, mult_INR.
  - change (m_height (getMetrics this tm))
      with (m_glyphHeight (getMetrics this tm)
            + INR 2 * INR (buffer this))%R.
    rewrite HH. cbn [idx Exact]. by rewrite plus_INR, mult_INR.
  - by rewrite idz_IZR.
Qed.

(** X13: in exact arithmetic, for a measured box that is not negative,
    [getMetrics] returns natural numbers: [glyphWidth] and [glyphHeight] are
    the least integers that cover the measured box, unless that is more
    than [size - buffer], where they are clipped; [width] and [height] add
    [2 * buffer] to them, so they reach [size + buffer] for a clipped
    glyph; [glyphTop] is the integer part of the ascent, [glyphLeft] is 0
    and [glyphAdvance] is the measured advance. *)
Theorem getMetrics_exact (this : TinySDF R) (tm : TextMetrics R) :
  buffer this <= size this ->
  (0 <= actualBoundingBoxRight tm - actualBoundingBoxLeft tm)%R ->
  (0 <= actualBoundingBoxAscent tm + actualBoundingBoxDescent tm)%R ->
  exists m : metrics R,
    represents (getMetrics this tm) m /\
    glyphWidth m <= size this - buffer this /\
    glyphHeight m <= size this - buffer this /\
    (glyphWidth m = size this - buffer this \/
     (actualBoundingBoxRight tm - actualBoundingBoxLeft tm
      <= INR (glyphWidth m)
      < actualBoundingBoxRight tm - actualBoundingBoxLeft tm + 1)%R) /\
    (glyphHeight m = size this - buffer this \/
     (actualBoundingBoxAscent tm + actualBoundingBoxDescent tm
      <= INR (glyphHeight m)
      < actualBoundingBoxAscent tm + actualBoundingBoxDescent tm + 1)%R) /\
    width m = glyphWidth m + 2 * buffer this /\
    height m = glyphHeight m + 2 * buffer this /\
    (IZR (glyphTop m) <= actualBoundingBoxAscent tm
     < IZR (glyphTop m) + 1)%R /\
    glyphLeft m = 0%Z /\
    glyphAdvance m = tm_width tm.
Proof.
  intros Hb Hw Hh.
  pose proof (getMetrics_metrics this tm Hb Hw Hh) as Hrep. cbv zeta in Hrep.
  set (ew := (actualBoundingBoxRight tm - actualBoundingBoxLeft tm)%R) in *.
  set (eh := (actualBoundingBoxAscent tm + actualBoundingBoxDescent tm)%R)
    in *.
  set (gw := Nat.min (size this - buffer this) (Z.to_nat (R_ceil ew))) in *.
  set (gh := Nat.min (size this - buffer this) (Z.to_nat (R_ceil eh))) in *.
  eexists. split; [exact Hrep|].
  cbn [width height glyphWidth glyphHeight glyphTop glyphLeft glyphAdvance].
  split; [unfold gw; lia|]. split; [unfold gh; lia|].
  split; [|split].
  - destruct (Nat.le_gt_cases (size this - buffer this)
                (Z.to_nat (R_ceil ew))) as [Hle|Hgt].
    + left. unfold gw. lia.
    + right. unfold gw. rewrite Nat.min_r by lia.
      rewrite INR_IZR_INZ, Z2Nat.id by (by apply R_ceil_nonneg).
      apply R_ceil_spec.
  - destruct (Nat.le_gt_cases (size this - buffer this)
                (Z.to_nat (R_ceil eh))) as [Hle|Hgt].
    + left. unfold gh. lia.
    + right. unfold gh. rewrite Nat.min_r by lia.
      rewrite INR_IZR_INZ, Z2Nat.id by (by apply R_ceil_nonneg).
      apply R_ceil_spec.
  - split; [done|]. split; [done|]. split; [apply R_floor_spec|done].
Qed.

(** X14: in exact arithmetic, when [draw] is passed the metrics
    [getMetrics] returned, [width] is [glyphWidth + 2 * buffer] and [height]
    is [glyphHeight + 2 * buffer], so the offset
    [(width - glyphWidth) >> 1] is [buffer]: the loops of [draw] seed the
    pixel (x, y) of the glyph in the cell (x + buffer, y + buffer), the
    place of the canvas that [getImageData] read it from. *)
Theorem getMetrics_places_glyph (this : TinySDF R) (tm : TextMetrics R)
    (m : metrics R) (imgData : list nat) :
  represents (getMetrics this tm) m ->
  (Z.of_nat (width m) < 2 ^ 31)%Z ->
  width m * height m <= length (gridOuter this) ->
  width m * height m <= length (gridInner this) ->
  width m = glyphWidth m + 2 * buffer this /\
  height m = glyphHeight m + 2 * buffer this /\
  centre (width m) (glyphWidth m) = Z.of_nat (buffer this) /\
  forall x y, x < glyphWidth m -> y < glyphHeight m ->
    let g := seed (gridOuter this) (gridInner this) imgData
                  (width m) (height m) (glyphWidth m) (glyphHeight m) in
    let j := (y + buffer this) * width m + (x + buffer this) in
    g.1 !! j = Some (outer_seed (alpha imgData (glyphWidth m) x y)) /\
    g.2 !! j = Some (inner_seed (alpha imgData (glyphWidth m) x y)).
Proof.
  intros (Hw & Hh & Hgw & Hgh & _) H31 HlO HlI.
  assert (Ew : width m = glyphWidth m + 2 * buffer this).
  { apply INR_eq. rewrite plus_INR, mult_INR.
    change (INR (width m)) with (idx (width m)). rewrite <- Hw.
    change (INR (glyphWidth m)) with (idx (glyphWidth m)). rewrite <- Hgw.
    reflexivity. }
  assert (Eh : height m = glyphHeight m + 2 * buffer this).
  { apply INR_eq. rewrite plus_INR, mult_INR.
    change (INR (height m)) with (idx (height m)). rewrite <- Hh.
    change (INR (glyphHeight m)) with (idx (glyphHeight m)). rewrite <- Hgh.
    reflexivity. }
  assert (Ec : centre (width m) (glyphWidth m) = Z.of_nat (buffer this)).
  { rewrite centre_nat by lia. f_equal.
    replace (width m - glyphWidth m) with (buffer this * 2) by lia.
    by rewrite Nat.div_mul. }
  split; [done|]. split; [done|]. split; [done|].
  intros x y Hx Hy g j. subst g. unfold seed. rewrite Ec.
  rewrite nested_fold, seed_cell_fold. cbn [fst snd].
  set (b := buffer this) in *. set (w := width m) in *.
  set (ps := flat_map _ _).
  assert (Hj : j < w * height m).
  { unfold j. apply cell_in_grid; lia. }
  assert (Hps : forall p, p ∈ ps -> cell_index w b p = j -> p = (x, y)).
  { intros [px py] Hp Hc. apply elem_of_pairs in Hp as [Hpx Hpy].
    apply elem_of_seq in Hpx, Hpy. unfold cell_index, j in Hc.
    cbn [fst snd] in *.
    destruct (cell_unique w (py + b) (px + b) (y + b) (x + b));
      [lia|lia|lia|]. f_equal; lia. }
  assert (Hin : (x, y) ∈ ps /\ cell_index w b (x, y) = j).
  { split; [apply elem_of_pairs; rewrite !elem_of_seq; lia|].
    unfold cell_index, j. cbn [fst snd]. lia. }
  split.
  - apply foldl_insert_value.
    + rewrite fill_length. lia.
    + intros p Hp Hc. by rewrite (Hps p Hp Hc).
    + right. by exists (x, y).
  - apply foldl_insert_value.
    + rewrite fill_length. lia.
    + intros p Hp Hc. by rewrite (Hps p Hp Hc).
    + right. by exists (x, y).
Qed.

(** ** binary64: the order of two numbers *)

Lemma SFcompare_antisym x y :
  SFcompare y x = option_map CompOpp (SFcompare x y).
Proof.
  destruct x as [sx|sx| |sx mx ex], y as [sy|sy| |sy my ey]; cbn;
    try reflexivity; try (by destruct sx); try (by destruct sy);
    try (by destruct sx, sy).
  destruct sx, sy; try reflexivity; f_equal.
  - rewrite (Z.compare_antisym ex ey).
    destruct (ex ?= ey)%Z; cbn; try reflexivity.
    by rewrite (Pos.compare_cont_antisym mx my Eq).
  - rewrite (Z.compare_antisym ex ey).
    destruct (ex ?= ey)%Z; cbn; try reflexivity.
    by rewrite (Pos.compare_cont_antisym mx my Eq).
Qed.

Lemma SFcompare_some x y :
  SFeqb x x = true -> SFeqb y y = true -> SFcompare x y <> None.
Proof.
  destruct x as [sx|sx| |sx mx ex], y as [sy|sy| |sy my ey]; cbn; done.
Qed.

Lemma SFleb_refl x : SFeqb x x = true -> SFleb x x = true.
Proof. unfold SFeqb, SFleb. by destruct (SFcompare x x) as [[| |]|]. Qed.

Lemma f64_min_le (a b : float) :
  f64_min a b = nan \/
  ((f64_min a b = a \/ f64_min a b = b) /\
   (f64_min a b <=? a)%float = true /\ (f64_min a b <=? b)%float = true).
Proof.
  unfold f64_min.
  destruct (is_nan a) eqn:Ha; [by left|].
  destruct (is_nan b) eqn:Hb; [by left|]. cbn [orb]. right.
  unfold is_nan in Ha, Hb. apply negb_false_iff in Ha, Hb.
  rewrite FloatAxioms.eqb_spec in Ha, Hb.
  pose proof (SFcompare_some _ _ Ha Hb) as Hab.
  pose proof (SFcompare_antisym (Prim2SF a) (Prim2SF b)) as Hba.
  pose proof (SFleb_refl _ Ha) as Haa. pose proof (SFleb_refl _ Hb) as Hbb.
  rewrite !FloatAxioms.ltb_spec. unfold SFltb. rewrite Hba.
  destruct (SFcompare (Prim2SF a) (Prim2SF b)) as [[| |]|] eqn:E; [| | |done];
    cbn [option_map CompOpp].
  - assert (SFleb (Prim2SF a) (Prim2SF b) = true)
      by (unfold SFleb; by rewrite E).
    assert (SFleb (Prim2SF b) (Prim2SF a) = true)
      by (unfold SFleb; by rewrite Hba).
    destruct (get_sign a); rewrite !FloatAxioms.leb_spec;
      (split; [by (left + right)|done]).
  - rewrite !FloatAxioms.leb_spec. split; [by left|].
    split; [done|]. unfold SFleb. by rewrite E.
  - rewrite !FloatAxioms.leb_spec. split; [by right|].
    split; [|done]. unfold SFleb. by rewrite Hba.
Qed.

Lemma f64_nan_add_r (x : float) : (x + nan)%float = nan.
Proof.
  apply Prim2SF_inj. rewrite add_spec.
  change (Prim2SF nan) with S754_nan. by destruct (Prim2SF x) as [[|]|[|]| |].
Qed.

Lemma f64_min_nan_r (a : float) : f64_min a nan = nan.
Proof.
  unfold f64_min. change (is_nan nan) with true. by rewrite orb_true_r.
Qed.

(** X15: on binary64, whatever [measureText] answers, the [glyphWidth] that
    [getMetrics] returns is NaN, or it is one of [this.size - this.buffer]
    and the rounded-up width of the box and is not above either; the same
    holds for [glyphHeight] and the height of the box. *)
Theorem getMetrics_clips (this : TinySDF float) (tm : TextMetrics float) :
  let r := getMetrics this tm in
  let bound := (idx (size this) - idx (buffer this))%float in
  let w := f64_ceil (actualBoundingBoxRight tm
                     - actualBoundingBoxLeft tm)%float in
  let h := f64_ceil (actualBoundingBoxAscent tm
                     + actualBoundingBoxDescent tm)%float in
  (m_glyphWidth r = nan \/
   ((m_glyphWidth r = bound \/ m_glyphWidth r = w) /\
    (m_glyphWidth r <=? bound)%float = true /\
    (m_glyphWidth r <=? w)%float = true)) /\
  (m_glyphHeight r = nan \/
   ((m_glyphHeight r = bound \/ m_glyphHeight r = h) /\
    (m_glyphHeight r <=? bound)%float = true /\
    (m_glyphHeight r <=? h)%float = true)).
Proof.
  intros r bound w h. split.
  - apply (f64_min_le bound w).
  - apply (f64_min_le bound h).
Qed.

(** X19: on binary64, when [measureText] answers no bounding box (the
    fields are [undefined], NaN in arithmetic), [getMetrics] returns NaN:
    without the left or the right side, [glyphWidth] and [width] are NaN;
    without the ascent or the descent, [glyphHeight] and [height] are NaN;
    without the ascent, [glyphTop] is NaN. *)
Theorem getMetrics_without_box (this : TinySDF float)
    (tm : TextMetrics float) :
  let r := getMetrics this tm in
  (actualBoundingBoxRight tm = nan \/ actualBoundingBoxLeft tm = nan ->
   m_glyphWidth r = nan /\ m_width r = nan) /\
  (actualBoundingBoxAscent tm = nan \/ actualBoundingBoxDescent tm = nan ->
   m_glyphHeight r = nan /\ m_height r = nan) /\
  (actualBoundingBoxAscent tm = nan -> m_glyphTop r = nan).
Proof.
  intros r. split; [|split].
  - intros H.
    assert (Hw : m_glyphWidth r = nan).
    { unfold r, getMetrics. cbn [m_glyphWidth Math_min Math_ceil F64_rounding].
      assert ((actualBoundingBoxRight tm - actualBoundingBoxLeft tm)%num = nan)
        as ->.
      { destruct H as [-> | ->];
          [apply f64_nan_sub_l|apply f64_nan_sub_r]. }
      change (f64_ceil nan) with nan. apply f64_min_nan_r. }
    split; [done|].
    change (m_width r)
      with (m_glyphWidth r + idx 2 * idx (buffer this))%num.
    rewrite Hw. apply f64_nan_add_l.
  - intros H.
    assert (Hh : m_glyphHeight r = nan).
    { unfold r, getMetrics.
      cbn [m_glyphHeight Math_min Math_ceil F64_rounding].
      assert ((actualBoundingBoxAscent tm + actualBoundingBoxDescent tm)%num
              = nan) as ->.
      { destruct H as [-> | ->];
          [apply f64_nan_add_l|apply f64_nan_add_r]. }
      change (f64_ceil nan) with nan. apply f64_min_nan_r. }
    split; [done|].
    change (m_height r)
      with (m_glyphHeight r + idx 2 * idx (buffer this))%num.
    rewrite Hh. apply f64_nan_add_l.
  - intros H. unfold r, getMetrics. cbn [m_glyphTop Math_floor F64_rounding].
    rewrite H. reflexivity.
Qed.

(** A glyph wider than the canvas, on binary64: the box is clipped to 33,
    and the canvas asked for is 39 wide where the grids are 36. *)
Example getMetrics_wide_glyph :
  let r := getMetrics sdf24 (mkTextMetrics 40 30 10 0 40)%float in
  (m_glyphWidth r, m_width r, m_glyphTop r) = (33, 39, 30)%float.
Proof. vm_compute. reflexivity. Qed.

(** ** An instance over its life *)

Section Life.
Context {num : Type} {N : Number num}.

Lemma draws_lengths (this : TinySDF num) calls :
  length (gridOuter (draws this calls)) = length (gridOuter this) /\
  length (gridInner (draws this calls)) = length (gridInner this) /\
  length (f (draws this calls)) = length (f this) /\
  length (v (draws this calls)) = length (v this) /\
  length (z (draws this calls)) = length (z this).
Proof.
  revert this. induction calls as [|c calls IH]; intros this; [done|].
  unfold draws. cbn [foldl]. fold (draws (draw this c.1.1 c.1.2 c.2).2 calls).
  destruct (IH (draw this c.1.1 c.1.2 c.2).2) as (-> & -> & -> & -> & ->).
  apply draw_lengths.
Qed.

Lemma draw_fields (this : TinySDF num) char m imgData :
  buffer (draw this char m imgData).2 = buffer this /\
  cutoff (draw this char m imgData).2 = cutoff this /\
  radius (draw this char m imgData).2 = radius this /\
  size (draw this char m imgData).2 = size this.
Proof.
  unfold draw. destruct ((glyphWidth m =? 0) || (glyphHeight m =? 0)); [done|].
  by destruct (seed _ _ _ _ _ _ _).
Qed.

Lemma draws_fields (this : TinySDF num) calls :
  buffer (draws this calls) = buffer this /\
  cutoff (draws this calls) = cutoff this /\
  radius (draws this calls) = radius this /\
  size (draws this calls) = size this.
Proof.
  revert this. induction calls as [|c calls IH]; intros this; [done|].
  unfold draws. cbn [foldl]. fold (draws (draw this c.1.1 c.1.2 c.2).2 calls).
  destruct (IH (draw this c.1.1 c.1.2 c.2).2) as (-> & -> & -> & ->).
  apply draw_fields.
Qed.

(** An instance the constructor made, after any calls of [draw], has grids
    of [size * size] cells and scratch arrays that hold a line of [size]
    samples. *)
Lemma instance_fits fontSize buffer0 (radius0 cutoff0 : num) calls n n' :
  let this := draws (new_TinySDF fontSize buffer0 radius0 cutoff0) calls in
  fontSize + buffer0 * 4 <= 2 ^ 16 ->
  n <= size this -> n' <= size this ->
  size this = fontSize + buffer0 * 4 /\
  radius this = radius0 /\ cutoff this = cutoff0 /\
  n * n' <= length (gridOuter this) /\
  n * n' <= length (gridInner this) /\
  scratch_fits n (f this) (v this) (z this).
Proof.
  intros this H16 Hn Hn'.
  destruct (draws_fields (new_TinySDF fontSize buffer0 radius0 cutoff0) calls)
    as (_ & Hc & Hr & Hs).
  destruct (draws_lengths (new_TinySDF fontSize buffer0 radius0 cutoff0) calls)
    as (HO & HI & Hf & Hv & Hz).
  fold this in Hc, Hr, Hs, HO, HI, Hf, Hv, Hz.
  cbn [new_TinySDF size radius cutoff gridOuter gridInner f v z] in *.
  rewrite length_replicate in HO. rewrite length_replicate in HI.
  rewrite length_replicate in Hf. rewrite length_replicate in Hv.
  rewrite length_replicate in Hz.
  rewrite Hs in Hn, Hn'. unfold scratch_fits.
  rewrite HO, HI, Hf, Hv, Hz.
  split; [done|]. split; [done|]. split; [done|].
  split; [nia|]. split; [nia|]. lia.
Qed.

End Life.

(** The whole of [draw] in exact arithmetic, for an instance the
    constructor made. *)
Lemma draw_cell_exact fontSize buffer0 (radius0 cutoff0 : R) calls
    char (m : metrics R) imgData x y :
  let this := draws (new_TinySDF fontSize buffer0 radius0 cutoff0) calls in
  fontSize + buffer0 * 4 <= 2 ^ 16 ->
  glyphWidth m <> 0 -> glyphHeight m <> 0 ->
  width m <= size this -> height m <= size this ->
  x < width m -> y < height m ->
  let g := seed (gridOuter this) (gridInner this) imgData
                (width m) (height m) (glyphWidth m) (glyphHeight m) in
  exists o i : R,
    lower_env2 g.1 (width m) (height m) x y o /\
    lower_env2 g.2 (width m) (height m) x y i /\
    gridOuter (draw this char m imgData).2 !! (y * width m + x) = Some o /\
    gridInner (draw this char m imgData).2 !! (y * width m + x) = Some i /\
    data (draw this char m imgData).1 !! (y * width m + x)
    = Some (ToUint8Clamp
              (Math_round
                 (idx 255 - idx 255 * ((Math_sqrt o - Math_sqrt i) / radius0
                                       + cutoff0))%num)).
Proof.
  intros this H16 Hgw Hgh Hw Hh Hx Hy g.
  destruct (instance_fits fontSize buffer0 radius0 cutoff0 calls
              (width m) (height m) H16 Hw Hh)
    as (_ & Hr & Hc & HO & HI & Hfw).
  destruct (instance_fits fontSize buffer0 radius0 cutoff0 calls
              (height m) (width m) H16 Hh Hw)
    as (_ & _ & _ & _ & _ & Hfh).
  fold this in Hr, Hc, HO, HI, Hfw, Hfh.
  destruct (seed_length (gridOuter this) (gridInner this) imgData (width m)
              (height m) (glyphWidth m) (glyphHeight m)) as [HlO HlI].
  fold g in HlO, HlI.
  destruct (draw_grids this char m imgData Hgw Hgh) as [EO EI].
  cbv zeta in EO, EI. fold g in EO, EI.
  set (o := edt g.1 (width m) (height m) (f this) (v this) (z this)) in *.
  destruct (edt_exact g.1 (width m) (height m) (f this) (v this) (z this)
              ltac:(lia) Hfw Hfh) as [_ HcO].
  fold o in HcO.
  destruct (edt_exact g.2 (width m) (height m) (a_f o) (a_v o) (a_z o)
              ltac:(lia)
              (scratch_fits_edt _ g.1 (width m) (height m) _ _ _ Hfw)
              (scratch_fits_edt _ g.1 (width m) (height m) _ _ _ Hfh))
    as [_ HcI].
  exists (dt2 g.1 (width m) (height m) x y), (dt2 g.2 (width m) (height m) x y).
  split; [by apply dt2_lower_env2|]. split; [by apply dt2_lower_env2|].
  split; [rewrite EO; by apply HcO|]. split; [rewrite EI; by apply HcI|].
  rewrite draw_data_lookup by (try done; by apply cell_in_grid).
  f_equal. unfold quantize. rewrite EO, EI. unfold get.
  rewrite HcO, HcI by done. rewrite Hr, Hc. reflexivity.
Qed.

(** X16: in exact arithmetic, on an instance the constructor made (of a
    size up to 2^16) and after any calls of [draw], a call of [draw] for a
    glyph that is not empty and whose canvas fits ([width] and [height] up
    to [size]) leaves in every cell of [gridOuter] and of [gridInner] the
    least [seed + squared distance] over the seeded grid, and stores for
    the cell the byte [round(255 - 255 * (d / radius + cutoff))] clamped,
    [d] being the difference of the square roots of the two. *)
Theorem draw_exact fontSize buffer0 (radius0 cutoff0 : R) calls
    char (m : metrics R) imgData x y :
  let this := draws (new_TinySDF fontSize buffer0 radius0 cutoff0) calls in
  fontSize + buffer0 * 4 <= 2 ^ 16 ->
  glyphWidth m <> 0 -> glyphHeight m <> 0 ->
  width m <= size this -> height m <= size this ->
  x < width m -> y < height m ->
  let g := seed (gridOuter this) (gridInner this) imgData
                (width m) (height m) (glyphWidth m) (glyphHeight m) in
  exists o i : R,
    lower_env2 g.1 (width m) (height m) x y o /\
    lower_env2 g.2 (width m) (height m) x y i /\
    gridOuter (draw this char m imgData).2 !! (y * width m + x) = Some o /\
    gridInner (draw this char m imgData).2 !! (y * width m + x) = Some i /\
    data (draw this char m imgData).1 !! (y * width m + x)
    = Some (ToUint8Clamp
              (Math_round
                 (idx 255 - idx 255 * ((Math_sqrt o - Math_sqrt i) / radius0
                                       + cutoff0))%num)).
Proof. apply draw_cell_exact. Qed.

(** ** The sign of the distance, in exact arithmetic *)

Section Sign.
Local Open Scope R_scope.

Lemma R_to_uint8_clamp_IZR n : R_to_uint8_clamp (IZR n) = clamp_byte n.
Proof.
  unfold R_to_uint8_clamp. rewrite R_floor_IZR.
  destruct (Rlt_dec (IZR n + / 2) (IZR n)) as [H|_]; [lra|].
  destruct (Rlt_dec (IZR n) (IZR n + / 2)) as [_|H]; [done|lra].
Qed.

(** The byte of a cell goes down as the distance goes up. *)
Lemma quantize_antitone (k radius0 cutoff0 d1 d2 : R) :
  0 <= k -> 0 < radius0 -> d1 <= d2 ->
  (R_to_uint8_clamp (R_round (k - k * (d2 / radius0 + cutoff0)))
   <= R_to_uint8_clamp (R_round (k - k * (d1 / radius0 + cutoff0))))%nat.
Proof.
  intros Hk Hr Hd. unfold R_round. rewrite !R_to_uint8_clamp_IZR.
  assert (d1 / radius0 <= d2 / radius0).
  { unfold Rdiv. apply Rmult_le_compat_r; [|done].
    apply Rlt_le. by apply Rinv_0_lt_compat. }
  assert (k * (d1 / radius0 + cutoff0) <= k * (d2 / radius0 + cutoff0)).
  { apply Rmult_le_compat_l; [done|lra]. }
  assert (Hfl : (R_floor (k - k * (d2 / radius0 + cutoff0) + / 2)
                 <= R_floor (k - k * (d1 / radius0 + cutoff0) + / 2))%Z).
  { apply R_floor_le. lra. }
  unfold clamp_byte. lia.
Qed.

Lemma get_set_at (l : list R) (j : Z) (a : R) i :
  get (set_at l j a) i = get l i \/ get (set_at l j a) i = a.
Proof.
  unfold set_at. destruct (j <? 0)%Z; [by left|]. unfold get.
  destruct (decide (Z.to_nat j = i)) as [<-|Hne].
  - destruct (decide (Z.to_nat j < length l)%nat).
    + right. by rewrite list_lookup_insert_eq.
    + left. by rewrite list_insert_ge by lia.
  - left. by rewrite list_lookup_insert_ne.
Qed.

Lemma outer_seed_nonneg (a : R) : 0 <= outer_seed a.
Proof.
  unfold outer_seed, Math_pow2. cbn [nseq idx INF nmul Exact].
  destruct (R_eq a (INR 1)); [cbn; lra|].
  destruct (R_eq a (INR 0)); [lra|]. apply Rle_0_sqr.
Qed.

Lemma inner_seed_nonneg (a : R) : 0 <= inner_seed a.
Proof.
  unfold inner_seed, Math_pow2. cbn [nseq idx INF nmul Exact].
  destruct (R_eq a (INR 1)); [lra|].
  destruct (R_eq a (INR 0)); [cbn; lra|]. apply Rle_0_sqr.
Qed.

Lemma seed_cells_nonneg imgData width gw (offset : Z) (n : nat) ps
    (g : list R * list R) :
  (forall i, (i < n)%nat -> 0 <= get g.1 i) ->
  (forall i, (i < n)%nat -> 0 <= get g.2 i) ->
  (forall i, (i < n)%nat ->
     0 <= get (foldl (fun g p => seed_cell imgData width gw offset p.2 g p.1)
                     g ps).1 i) /\
  (forall i, (i < n)%nat ->
     0 <= get (foldl (fun g p => seed_cell imgData width gw offset p.2 g p.1)
                     g ps).2 i).
Proof.
  revert g. induction ps as [|p ps IH]; intros g H1 H2; [done|].
  cbn [foldl]. apply IH; intros i Hi; unfold seed_cell; cbn [fst snd].
  - destruct (get_set_at g.1
                ((Z.of_nat p.2 + offset) * Z.of_nat width + Z.of_nat p.1
                 + offset)%Z
                (outer_seed (alpha imgData gw p.1 p.2)) i) as [-> | ->];
      [by apply H1|apply outer_seed_nonneg].
  - destruct (get_set_at g.2
                ((Z.of_nat p.2 + offset) * Z.of_nat width + Z.of_nat p.1
                 + offset)%Z
                (inner_seed (alpha imgData gw p.1 p.2)) i) as [-> | ->];
      [by apply H2|apply inner_seed_nonneg].
Qed.

Lemma get_fill_nonneg (l : list R) (a : R) n i :
  0 <= a -> (i < n)%nat -> 0 <= get (fill l a n) i.
Proof.
  intros Ha Hi. unfold get.
  destruct (decide (i < length l)%nat).
  - by rewrite fill_lookup.
  - rewrite lookup_ge_None_2; [cbn; lra|]. rewrite fill_length. lia.
Qed.

Lemma seed_nonneg (gridOuter gridInner : list R) imgData width height gw gh i :
  (i < width * height)%nat ->
  0 <= get (seed gridOuter gridInner imgData width height gw gh).1 i /\
  0 <= get (seed gridOuter gridInner imgData width height gw gh).2 i.
Proof.
  intros Hi. unfold seed. rewrite nested_fold.
  destruct (seed_cells_nonneg imgData width gw (centre width gw)
              (width * height)
              (flat_map (fun y => map (fun x => (x, y)) (seq 0 gw)) (seq 0 gh))
              (fill gridOuter INF (width * height),
               fill gridInner (idx 0) (width * height))) as [H1 H2].
  - intros j Hj. cbn [fst]. apply get_fill_nonneg; [|done].
    cbn [INF Exact]. lra.
  - intros j Hj. cbn [snd]. apply get_fill_nonneg; [|done].
    cbn [idx Exact INR]. lra.
  - split; [by apply H1|by apply H2].
Qed.

(** The least cost over a grid of non-negative costs is 0 at a cell whose
    own cost is 0. *)
Lemma lower_env2_zero (g : list R) w h x y m :
  (forall i, (i < w * h)%nat -> 0 <= get g i) ->
  (x < w)%nat -> (y < h)%nat -> get g (y * w + x) = 0 ->
  lower_env2 g w h x y m -> m = 0.
Proof.
  intros Hpos Hx Hy H0 [(x' & y' & Hx' & Hy' & E) Hlow].
  specialize (Hlow x y Hx Hy). rewrite H0 in Hlow.
  pose proof (Hpos (y' * w + x')%nat (cell_in_grid _ _ _ _ Hx' Hy')).
  pose proof (Rle_0_sqr (INR x - INR x')) as S1.
  pose proof (Rle_0_sqr (INR y - INR y')) as S2.
  unfold Rsqr in S1, S2. lra.
Qed.

End Sign.

(** X17: in exact arithmetic, for a positive [radius] and under the
    conditions of X16, the byte [draw] stores for a cell tells the side of
    the edge: a cell whose outer seed is 0 (alpha at least one half) gets
    at least the byte of distance 0, [round(255 - 255 * cutoff)] clamped,
    and a cell whose inner seed is 0 (alpha at most one half, or outside
    the glyph) gets at most that byte. *)
Theorem draw_sign_exact fontSize buffer0 (radius0 cutoff0 : R) calls
    char (m : metrics R) imgData x y :
  let this := draws (new_TinySDF fontSize buffer0 radius0 cutoff0) calls in
  fontSize + buffer0 * 4 <= 2 ^ 16 -> (0 < radius0)%R ->
  glyphWidth m <> 0 -> glyphHeight m <> 0 ->
  width m <= size this -> height m <= size this ->
  x < width m -> y < height m ->
  let g := seed (gridOuter this) (gridInner this) imgData
                (width m) (height m) (glyphWidth m) (glyphHeight m) in
  let edge := ToUint8Clamp (Math_round (idx 255 - idx 255 * cutoff0)%num) in
  exists byte,
    data (draw this char m imgData).1 !! (y * width m + x) = Some byte /\
    (get g.1 (y * width m + x) = 0%R -> edge <= byte) /\
    (get g.2 (y * width m + x) = 0%R -> byte <= edge).
Proof.
  intros this H16 Hr Hgw Hgh Hw Hh Hx Hy g edge.
  destruct (draw_cell_exact fontSize buffer0 radius0 cutoff0 calls char m
              imgData x y H16 Hgw Hgh Hw Hh Hx Hy)
    as (o & i & HO & HI & _ & _ & Hbyte).
  fold this in HO, HI, Hbyte. fold g in HO, HI.
  eexists. split; [exact Hbyte|].
  assert (Hedge : edge
                  = R_to_uint8_clamp
                      (R_round (INR 255 - INR 255 * (0 / radius0 + cutoff0))%R)).
  { unfold edge. cbn [ToUint8Clamp Math_round idx nsub nmul Exact].
    do 2 f_equal. unfold Rdiv. lra. }
  assert (Hpos1 : forall j, j < width m * height m -> (0 <= get g.1 j)%R).
  { intros j Hj. by apply seed_nonneg. }
  assert (Hpos2 : forall j, j < width m * height m -> (0 <= get g.2 j)%R).
  { intros j Hj. by apply seed_nonneg. }
  cbn [ToUint8Clamp Math_round Math_sqrt idx nsub nmul nadd ndiv Exact].
  pose proof (pos_INR 255) as H255.
  split; intros H0; rewrite Hedge.
  - rewrite (lower_env2_zero g.1 _ _ x y o Hpos1 Hx Hy H0 HO).
    apply quantize_antitone; [done|done|].
    rewrite sqrt_0. pose proof (sqrt_pos i). lra.
  - rewrite (lower_env2_zero g.2 _ _ x y i Hpos2 Hx Hy H0 HI).
    apply quantize_antitone; [done|done|].
    rewrite sqrt_0. pose proof (sqrt_pos o). lra.
Qed.

(** ** What a glyph depends on *)

Section History.
Context {num : Type} {N : Number num}.
Implicit Types (grid f z : list num) (v : list nat).

Lemma emit_fold_grids f v z offset stride n qs k grid1 grid2 :
  same_upto n grid1 grid2 ->
  (foldl (emit f v z offset stride) (k, grid1) qs).1
  = (foldl (emit f v z offset stride) (k, grid2) qs).1 /\
  same_upto n (foldl (emit f v z offset stride) (k, grid1) qs).2
              (foldl (emit f v z offset stride) (k, grid2) qs).2.
Proof.
  revert k grid1 grid2. induction qs as [|q qs IH]; intros k grid1 grid2 Hg;
    [done|].
  cbn [foldl]. unfold emit at 2 4 6 8. apply IH.
  apply (same_upto_insert n); [done|]. intros j Hj. by left.
Qed.

(** A pass on two grids that agree below [n], where the line lies, with
    the same scratch arrays. *)
Lemma edt1d_grids n grid1 grid2 offset stride len f v z :
  same_upto n grid1 grid2 ->
  (forall q, q < len -> offset + q * stride < n) ->
  same_upto n (a_grid (edt1d grid1 offset stride len f v z))
              (a_grid (edt1d grid2 offset stride len f v z)) /\
  a_f (edt1d grid1 offset stride len f v z)
  = a_f (edt1d grid2 offset stride len f v z) /\
  a_v (edt1d grid1 offset stride len f v z)
  = a_v (edt1d grid2 offset stride len f v z) /\
  a_z (edt1d grid1 offset stride len f v z)
  = a_z (edt1d grid2 offset stride len f v z).
Proof.
  intros Hg Hline. rewrite !edt1d_unfold. cbv zeta. cbn [a_grid a_f a_v a_z].
  assert (Hf : copy_line grid1 offset stride len f
               = copy_line grid2 offset stride len f).
  { apply list_eq. intros q. rewrite !copy_line_lookup.
    case_decide as Hq; [|done]. f_equal.
    apply (same_upto_get n); [done|]. apply Hline. lia. }
  rewrite Hf.
  destruct (emit_fold_grids (copy_line grid2 offset stride len f)
              (foldl (push (copy_line grid2 offset stride len f))
                     (0, <[0:=0]> v, <[1:=INF]> (<[0:=(- INF)%num]> z))
                     (seq 1 (len - 1))).1.2
              (foldl (push (copy_line grid2 offset stride len f))
                     (0, <[0:=0]> v, <[1:=INF]> (<[0:=(- INF)%num]> z))
                     (seq 1 (len - 1))).2
              offset stride n (seq 0 len) 0 grid1 grid2 Hg) as [_ H].
  done.
Qed.

Lemma run_fold_grids n ps (a1 a2 : arrays num) :
  (forall offset stride len q, (offset, stride, len) ∈ ps -> q < len ->
     offset + q * stride < n) ->
  same_upto n (a_grid a1) (a_grid a2) ->
  a_f a1 = a_f a2 -> a_v a1 = a_v a2 -> a_z a1 = a_z a2 ->
  same_upto n (a_grid (foldl run a1 ps)) (a_grid (foldl run a2 ps)).
Proof.
  revert a1 a2. induction ps as [|[[offset stride] len] ps IH];
    intros a1 a2 Hps Hg Hf Hv Hz; [done|].
  cbn [foldl].
  assert (Hline : forall q, q < len -> offset + q * stride < n).
  { intros q Hq. apply (Hps offset stride len q); [left|done]. }
  destruct (edt1d_grids n (a_grid a1) (a_grid a2) offset stride len
              (a_f a2) (a_v a2) (a_z a2) Hg Hline) as (Hg' & Hf' & Hv' & Hz').
  apply IH.
  - intros o s l q Hin Hq. apply (Hps o s l q); [by right|done].
  - unfold run. by rewrite Hf, Hv, Hz.
  - unfold run. by rewrite Hf, Hv, Hz.
  - unfold run. by rewrite Hf, Hv, Hz.
  - unfold run. by rewrite Hf, Hv, Hz.
Qed.

(** [edt] on two grids that agree on the cells of the canvas, with scratch
    arrays of the same lengths. *)
Lemma edt_grids n g1 g2 width height f1 v1 z1 f2 v2 z2 :
  sentinel_covers n -> width <= n -> height <= n ->
  same_upto (width * height) g1 g2 ->
  length f1 = length f2 -> length v1 = length v2 -> length z1 = length z2 ->
  same_upto (width * height) (a_grid (edt g1 width height f1 v1 z1))
                             (a_grid (edt g2 width height f2 v2 z2)).
Proof.
  intros Hs Hw Hh Hg Hf Hv Hz.
  destruct (edt_scratch n g1 width height f1 v1 z1 f2 v2 z2 Hs Hw Hh Hf Hv Hz)
    as (-> & _).
  rewrite !edt_passes. apply run_fold_grids; try done.
  intros offset stride len q Hin Hq.
  apply elem_of_app in Hin as [Hin|Hin];
    apply list_elem_of_fmap in Hin as (c & Heq & Hc);
    injection Heq as -> -> ->; apply elem_of_seq in Hc.
  - pose proof (cell_in_grid width height c q ltac:(lia) Hq). lia.
  - pose proof (cell_in_grid width height q c Hq ltac:(lia)). lia.
Qed.

Lemma fill_grids (l1 l2 : list num) x n :
  length l1 = length l2 -> same_upto n (fill l1 x n) (fill l2 x n).
Proof.
  intros Hlen. split; [by rewrite !fill_length|].
  intros i Hi. destruct (decide (i < length l1)).
  - rewrite !fill_lookup by lia. done.
  - rewrite !lookup_ge_None_2; [done| |]; rewrite fill_length; lia.
Qed.

Lemma set_at_grids n (l1 l2 : list num) j x :
  same_upto n l1 l2 -> same_upto n (set_at l1 j x) (set_at l2 j x).
Proof.
  intros H. unfold set_at. destruct (j <? 0)%Z; [done|].
  apply (same_upto_insert n); [done|]. intros i Hi. by left.
Qed.

Lemma seed_grids gO1 gI1 gO2 gI2 imgData width height gw gh :
  length gO1 = length gO2 -> length gI1 = length gI2 ->
  same_upto (width * height)
    (seed gO1 gI1 imgData width height gw gh).1
    (seed gO2 gI2 imgData width height gw gh).1 /\
  same_upto (width * height)
    (seed gO1 gI1 imgData width height gw gh).2
    (seed gO2 gI2 imgData width height gw gh).2.
Proof.
  intros HO HI. unfold seed. rewrite !nested_fold.
  pose proof (fill_grids gO1 gO2 INF (width * height) HO) as H1.
  pose proof (fill_grids gI1 gI2 (idx 0) (width * height) HI) as H2.
  revert H1 H2.
  generalize (fill gO1 INF (width * height)) (fill gO2 INF (width * height))
             (fill gI1 (idx 0) (width * height))
             (fill gI2 (idx 0) (width * height)).
  generalize (flat_map (fun y => map (fun x => (x, y)) (seq 0 gw)) (seq 0 gh)).
  intros ps. induction ps as [|p ps IH]; intros a1 a2 b1 b2 H1 H2; [done|].
  cbn [foldl]. unfold seed_cell at 2 4 6 8. cbn [fst snd].
  apply IH; by apply set_at_grids.
Qed.

(** The glyph [draw] returns depends on the instance through [radius],
    [cutoff] and the lengths of its five arrays only. *)
Lemma draw_instances n (t1 t2 : TinySDF num) char m imgData :
  sentinel_covers n -> width m <= n -> height m <= n ->
  radius t1 = radius t2 -> cutoff t1 = cutoff t2 ->
  length (gridOuter t1) = length (gridOuter t2) ->
  length (gridInner t1) = length (gridInner t2) ->
  length (f t1) = length (f t2) -> length (v t1) = length (v t2) ->
  length (z t1) = length (z t2) ->
  (draw t1 char m imgData).1 = (draw t2 char m imgData).1.
Proof.
  intros Hs Hw Hh Hr Hc HO HI Hf Hv Hz. unfold draw.
  destruct ((glyphWidth m =? 0) || (glyphHeight m =? 0)); [done|].
  destruct (seed_grids (gridOuter t1) (gridInner t1) (gridOuter t2)
              (gridInner t2) imgData (width m) (height m) (glyphWidth m)
              (glyphHeight m) HO HI) as [H1 H2].
  destruct (seed (gridOuter t1) _ _ _ _ _ _) as [gO1 gI1].
  destruct (seed (gridOuter t2) _ _ _ _ _ _) as [gO2 gI2].
  cbn [fst snd] in *.
  pose proof (edt_grids n gO1 gO2 (width m) (height m) (f t1) (v t1) (z t1)
                (f t2) (v t2) (z t2) Hs Hw Hh H1 Hf Hv Hz) as HgO.
  set (o1 := edt gO1 (width m) (height m) (f t1) (v t1) (z t1)) in *.
  set (o2 := edt gO2 (width m) (height m) (f t2) (v t2) (z t2)) in *.
  assert (Hlen : length (a_f o1) = length (a_f o2) /\
                 length (a_v o1) = length (a_v o2) /\
                 length (a_z o1) = length (a_z o2)).
  { unfold o1, o2.
    destruct (edt_length gO1 (width m) (height m) (f t1) (v t1) (z t1))
      as (_ & -> & -> & ->).
    destruct (edt_length gO2 (width m) (height m) (f t2) (v t2) (z t2))
      as (_ & -> & -> & ->). done. }
  destruct Hlen as (Lf & Lv & Lz).
  pose proof (edt_grids n gI1 gI2 (width m) (height m) (a_f o1) (a_v o1)
                (a_z o1) (a_f o2) (a_v o2) (a_z o2) Hs Hw Hh H2 Lf Lv Lz)
    as HgI.
  cbn [fst data]. f_equal. apply list_eq. intros j.
  rewrite !(foldl_insert_seq_lookup (fun j => quantize _ _ _ _ j)).
  rewrite length_replicate. case_decide as Hj; [|done].
  f_equal. unfold quantize. rewrite Hr, Hc.
  rewrite (same_upto_get _ _ _ j HgO) by lia.
  rewrite (same_upto_get _ _ _ j HgI) by lia. done.
Qed.

End History.

(** X18: the glyph [draw] returns does not depend on the calls of [draw]
    made on the instance before: the contents the earlier glyphs left in
    the two grids and in the scratch arrays do not show in it.  On any
    carrier, for a canvas of at most [n] by [n] cells where no index below
    [n] is above the sentinel. *)
Theorem draw_forgets_history {num : Type} {N : Number num} (n : nat)
    (this : TinySDF num) calls char (m : metrics num) imgData :
  sentinel_covers n -> width m <= n -> height m <= n ->
  (draw (draws this calls) char m imgData).1 = (draw this char m imgData).1.
Proof.
  intros Hs Hw Hh.
  destruct (draws_fields this calls) as (_ & Hc & Hr & _).
  destruct (draws_lengths this calls) as (HO & HI & Hf & Hv & Hz).
  by apply (draw_instances n).
Qed.

(** ** Every access inside its array *)

Section In_bounds.
Context {num : Type} {N : Number num}.
Implicit Types (grid f z : list num) (v : list nat).

Lemma store_Some {A} (a : list A) i x :
  i < length a -> store a i x = Some (<[i := x]> a).
Proof. intros H. unfold store. by rewrite decide_True. Qed.

Lemma pop_strict_ok f v z q k :
  k < length v -> k < length z -> q < length f ->
  (forall i r, i <= k -> v !! i = Some r -> r < length f) ->
  pop_strict f v z q k = Some (pop f v z q k).
Proof.
  intros Hv Hz Hq. induction k as [|k IH]; intros Hr.
  - cbn [pop_strict pop].
    destruct (lookup_lt_is_Some_2 v 0 Hv) as [r Er].
    destruct (lookup_lt_is_Some_2 z 0 Hz) as [zk Ez].
    destruct (lookup_lt_is_Some_2 f q Hq) as [fq Eq].
    destruct (lookup_lt_is_Some_2 f r (Hr 0 r (Nat.le_refl _) Er)) as [fr Efr].
    rewrite Er, Ez, Eq, Efr. unfold intersection, get. rewrite Eq.
    cbn [get_at num_at le_at]. unfold get. rewrite Efr.
    change (default NaN (Some fq)) with fq.
    change (default NaN (Some fr)) with fr.
    by destruct (nle _ zk).
  - cbn [pop_strict pop].
    destruct (lookup_lt_is_Some_2 v (S k) Hv) as [r Er].
    destruct (lookup_lt_is_Some_2 z (S k) Hz) as [zk Ez].
    destruct (lookup_lt_is_Some_2 f q Hq) as [fq Eq].
    destruct (lookup_lt_is_Some_2 f r (Hr (S k) r (Nat.le_refl _) Er))
      as [fr Efr].
    rewrite Er, Ez, Eq, Efr. unfold intersection, get. rewrite Eq.
    cbn [get_at num_at le_at]. unfold get. rewrite Efr.
    change (default NaN (Some fq)) with fq.
    change (default NaN (Some fr)) with fr.
    destruct (nle _ zk); [|done].
    apply IH; [lia|lia|]. intros i r' Hi. apply Hr. lia.
Qed.

Lemma push_strict_ok f q k v z :
  k < q -> q < length f -> q < length v -> S q < length z ->
  (forall i r, i <= k -> v !! i = Some r -> r < length f) ->
  push_strict f (Some (k, v, z)) q = Some (push f (k, v, z) q).
Proof.
  intros Hk Hf Hv Hz Hr. unfold push_strict, push.
  rewrite pop_strict_ok by (try done; lia).
  pose proof (pop_range f v z q k) as Hrange.
  destruct (pop f v z q k) as [k' s]. cbn [fst] in Hrange.
  rewrite store_Some by lia. rewrite store_Some by lia.
  rewrite store_Some by (rewrite length_insert; lia). done.
Qed.

Lemma push_strict_fold_ok f n m a k v z :
  a + m <= n -> n <= length f -> n <= length v -> n < length z ->
  k < a -> stack_below a k v ->
  foldl (push_strict f) (Some (k, v, z)) (seq a m)
  = Some (foldl (push f) (k, v, z) (seq a m)).
Proof.
  intros Ham Hf Hv Hz. revert a k v z Ham Hv Hz.
  induction m as [|m IH]; intros a k v z Ham Hv Hz Hk Hb; [done|].
  cbn [seq foldl]. rewrite push_strict_ok; try lia.
  - destruct (push_inv f a k v z Hb) as (Hk' & Hb' & _).
    destruct (push_length f (k, v, z) a) as [Lv Lz]. cbn [fst snd] in Lv, Lz.
    destruct (push f (k, v, z) a) as [[k1 v1] z1] eqn:E.
    cbn [fst snd] in *. apply IH; try lia; done.
  - intros i r Hi Er. pose proof (Hb i r Hi Er). lia.
Qed.

Lemma advance_strict_ok z q k K fuel :
  k <= K -> z !! S K = Some INF -> nlt INF (idx q) = false ->
  K - k < fuel ->
  advance_strict fuel z q k = Some (advance z q k).
Proof.
  intros Hk Htop Hq. revert k Hk.
  induction fuel as [|fuel IH]; intros k Hk Hfuel; [lia|].
  cbn [advance_strict]. rewrite (advance_unfold z q k).
  destruct (decide (k = K)) as [->|Hne].
  - rewrite Htop, Hq. done.
  - assert (S k < length z).
    { apply lookup_lt_Some in Htop. lia. }
    destruct (lookup_lt_is_Some_2 z (S k) ltac:(lia)) as [zk ->].
    destruct (nlt zk (idx q)); [|done]. apply IH; lia.
Qed.

Lemma emit_strict_fold_ok n f v z offset stride K qs k grid :
  K < length v -> S K < length z -> closed K z -> stack_below n K v ->
  n <= length f ->
  (forall q, q ∈ qs ->
     nlt INF (idx q) = false /\ offset + q * stride < length grid) ->
  k <= K ->
  foldl (emit_strict f v z offset stride) (Some (k, grid)) qs
  = Some (foldl (emit f v z offset stride) (k, grid) qs).
Proof.
  intros HK Hz Hc Hb Hf. revert k grid.
  induction qs as [|q qs IH]; intros k grid Hqs Hk; [done|].
  destruct (Hqs q) as [Hinf Hcell]; [left|].
  assert (Htop : z !! S K = Some INF).
  { destruct Hc as [H|H]; [done|]. apply lookup_ge_None in H. lia. }
  cbn [foldl]. unfold emit_strict at 2, emit at 2.
  rewrite (advance_strict_ok z q k K) by (try done; lia).
  pose proof (advance_le z q k K Hk Hc Hinf) as Hadv.
  set (k' := advance z q k) in *.
  destruct (lookup_lt_is_Some_2 v k' ltac:(lia)) as [r Er]. rewrite Er.
  pose proof (Hb k' r ltac:(lia) Er) as Hr.
  destruct (lookup_lt_is_Some_2 f r ltac:(lia)) as [fr Efr]. rewrite Efr.
  rewrite store_Some by done. cbn [get_at num_at]. unfold get.
  rewrite Efr. change (default NaN (Some fr)) with fr. apply IH; [|lia].
  intros q' Hq'. rewrite length_insert. apply Hqs. by right.
Qed.

Lemma copy_strict_fold_ok grid offset stride f qs :
  (forall q, q ∈ qs -> q < length f /\ offset + q * stride < length grid) ->
  foldl (copy_strict grid offset stride) (Some f) qs
  = Some (foldl (fun f q => <[q := get grid (offset + q * stride)]> f) f qs).
Proof.
  revert f. induction qs as [|q qs IH]; intros f Hqs; [done|].
  destruct (Hqs q) as [Hq Hcell]; [left|].
  cbn [foldl]. unfold copy_strict at 2.
  destruct (lookup_lt_is_Some_2 grid _ Hcell) as [x Ex]. rewrite Ex.
  rewrite store_Some by done. unfold get. rewrite Ex.
  change (default NaN (Some x)) with x.
  apply IH. intros q' Hq'. rewrite length_insert. apply Hqs. by right.
Qed.

(** A pass within the capacity of its arrays makes no access outside
    them. *)
Lemma edt1d_strict_ok grid offset stride n f v z :
  sentinel_covers n -> 0 < length v -> 1 < length z ->
  n <= length f -> n <= length v -> n < length z ->
  (forall q, q < n -> offset + q * stride < length grid) ->
  edt1d_strict grid offset stride n f v z
  = Some (edt1d grid offset stride n f v z).
Proof.
  intros Hs Hv0 Hz1 Hf Hv Hz Hline. unfold edt1d_strict.
  rewrite !store_Some by (rewrite ?length_insert; lia).
  rewrite copy_strict_fold_ok.
  2:{ intros q Hq. apply elem_of_seq in Hq. split; [lia|]. apply Hline. lia. }
  fold (copy_line grid offset stride n f). rewrite edt1d_unfold. cbv zeta.
  set (f' := copy_line grid offset stride n f).
  assert (Hf' : n <= length f') by (unfold f'; by rewrite copy_line_length).
  destruct n as [|n]; [done|].
  rewrite (push_strict_fold_ok f' (S n) (S n - 1) 1 0);
    [| lia | done | by rewrite length_insert | by rewrite !length_insert
     | lia | apply stack_below_init].
  pose proof (push_fold_inv f' (S n - 1) 1 0 (<[0:=0]> v)
                (<[1:=INF]> (<[0:=(- INF)%num]> z))
                (stack_below_init v) (closed_init z)) as (HK & Hb & Hc).
  pose proof (push_fold_length f' (seq 1 (S n - 1))
                (0, <[0:=0]> v, <[1:=INF]> (<[0:=(- INF)%num]> z)))
    as [Lv Lz].
  destruct (foldl (push f') _ _) as [[K v1] z1]. cbn [fst snd] in *.
  rewrite length_insert in Lv. rewrite !length_insert in Lz.
  replace (1 + (S n - 1)) with (S n) in Hb by lia.
  rewrite (emit_strict_fold_ok (S n) f' v1 z1 offset stride K);
    try done; try lia.
  - by destruct (foldl (emit f' v1 z1 offset stride) _ _).
  - intros q Hq. apply elem_of_seq in Hq. split; [apply Hs|apply Hline]; lia.
Qed.

Lemma run_strict_fold_ok n ps (a : arrays num) :
  sentinel_covers n -> 0 < n ->
  n <= length (a_f a) -> n <= length (a_v a) -> n < length (a_z a) ->
  (forall offset stride len, (offset, stride, len) ∈ ps ->
     len <= n /\
     forall q, q < len -> offset + q * stride < length (a_grid a)) ->
  foldl run_strict (Some a) ps = Some (foldl run a ps).
Proof.
  intros Hs Hn. revert a. induction ps as [|[[offset stride] len] ps IH];
    intros a Hf Hv Hz Hps; [done|].
  destruct (Hps offset stride len) as [Hlen Hline]; [left|].
  cbn [foldl]. unfold run_strict at 2.
  rewrite edt1d_strict_ok; try done; try lia.
  2:{ by apply (sentinel_covers_le n). }
  fold (run a (offset, stride, len)).
  destruct (edt1d_length (a_grid a) offset stride len (a_f a) (a_v a) (a_z a))
    as (Lg & Lf & Lv & Lz).
  apply IH; unfold run; try lia.
  intros o s l Hin. rewrite Lg. apply Hps. by right.
Qed.

End In_bounds.

(** X20: on any carrier, a call of [edt1d] on a line of at least one
    sample that lies inside the grid, with [f] and [v] of at least [n]
    elements and [z] of more than [n], reads and writes no array outside
    its bounds: the run in which such an access is a fault returns what
    [edt1d] returns.  No index of the line is above the sentinel. *)
Theorem edt1d_in_bounds {num : Type} {N : Number num}
    (grid : list num) offset stride n (f : list num) v (z : list num) :
  sentinel_covers n -> 0 < n ->
  n <= length f -> n <= length v -> n < length z ->
  (forall q, q < n -> offset + q * stride < length grid) ->
  edt1d_strict grid offset stride n f v z
  = Some (edt1d grid offset stride n f v z).
Proof. intros Hs Hn Hf Hv Hz. apply edt1d_strict_ok; try done; lia. Qed.

Lemma edt_strict_ok {num : Type} {N : Number num} (n : nat)
    (data : list num) width height (f : list num) v (z : list num) :
  sentinel_covers n -> 0 < n -> width <= n -> height <= n ->
  n <= length f -> n <= length v -> n < length z ->
  width * height <= length data ->
  edt_strict data width height f v z = Some (edt data width height f v z).
Proof.
  intros Hs Hn Hw Hh Hf Hv Hz Hg. unfold edt_strict. cbv zeta.
  pose proof (run_strict_fold_ok n
                (map (fun x => (x, width, height)) (seq 0 width)
                 ++ map (fun y => (y * width, 1, width)) (seq 0 height))
                (Arrays data f v z) Hs Hn Hf Hv Hz) as H.
  rewrite foldl_app, !foldl_fmap in H. rewrite edt_passes. apply H.
  intros offset stride len Hin. cbn [a_grid].
  apply elem_of_app in Hin as [Hin|Hin];
    apply list_elem_of_fmap in Hin as (c & Heq & Hc);
    injection Heq as -> -> ->; apply elem_of_seq in Hc.
  - split; [lia|]. intros q Hq.
    pose proof (cell_in_grid width height c q ltac:(lia) Hq). lia.
  - split; [lia|]. intros q Hq.
    pose proof (cell_in_grid width height q c Hq ltac:(lia)). lia.
Qed.

(** X21: on any carrier, [edt] on a grid array that holds the
    [width * height] cells, with [f] and [v] of at least [n] elements and
    [z] of more than [n] for an [n] that [width] and [height] do not
    exceed, reads and writes no array outside its bounds. *)
Theorem edt_in_bounds {num : Type} {N : Number num} (n : nat)
    (data : list num) width height (f : list num) v (z : list num) :
  sentinel_covers n -> 0 < n -> width <= n -> height <= n ->
  n <= length f -> n <= length v -> n < length z ->
  width * height <= length data ->
  edt_strict data width height f v z = Some (edt data width height f v z).
Proof. apply edt_strict_ok. Qed.

Section Overrun.
Context {num : Type} {N : Number num}.

Lemma foldl_None {A B} (step : option A -> B -> option A) qs :
  (forall q, step None q = None) -> foldl step None qs = None.
Proof.
  intros H. induction qs as [|q qs IH]; [done|]. cbn [foldl]. by rewrite H.
Qed.

(** The first loop on a line longer than [f] writes past the end of
    [f]. *)
Lemma copy_strict_overrun (grid : list num) offset stride (f : list num) a m :
  a <= length f < a + m ->
  foldl (copy_strict grid offset stride) (Some f) (seq a m) = None.
Proof.
  revert a f. induction m as [|m IH]; intros a f Hlen; [lia|].
  cbn [seq foldl]. unfold copy_strict at 2.
  destruct (grid !! (offset + a * stride)) as [x|]; [|by apply foldl_None].
  unfold store. case_decide as Ha; [|by apply foldl_None].
  apply IH. rewrite length_insert. lia.
Qed.

Lemma edt1d_strict_overrun (grid : list num) offset stride n
    (f : list num) v (z : list num) :
  length f < n -> edt1d_strict grid offset stride n f v z = None.
Proof.
  intros Hlen. unfold edt1d_strict.
  destruct (store v 0 0) as [v'|]; [|done].
  destruct (store z 0 (- INF)%num) as [z'|]; [|done].
  destruct (store z' 1 INF) as [z''|]; [|done].
  rewrite copy_strict_overrun by lia. done.
Qed.

Lemma copy_strict_length (grid : list num) offset stride qs
    (f f' : list num) :
  foldl (copy_strict grid offset stride) (Some f) qs = Some f' ->
  length f' = length f.
Proof.
  revert f. induction qs as [|q qs IH]; intros f H.
  { injection H as <-. done. }
  cbn [foldl] in H. unfold copy_strict at 2 in H.
  destruct (grid !! (offset + q * stride)) as [x|];
    [|by rewrite foldl_None in H].
  unfold store in H. case_decide as Hq; [|by rewrite foldl_None in H].
  rewrite (IH _ H). apply length_insert.
Qed.

Lemma edt1d_strict_length (grid : list num) offset stride n
    (f : list num) v (z : list num) a :
  edt1d_strict grid offset stride n f v z = Some a ->
  length (a_f a) = length f.
Proof.
  unfold edt1d_strict. intros H.
  destruct (store v 0 0) as [v'|]; [|done].
  destruct (store z 0 (- INF)%num) as [z'|]; [|done].
  destruct (store z' 1 INF) as [z''|]; [|done].
  destruct (foldl (copy_strict grid offset stride) (Some f) (seq 0 n))
    as [f'|] eqn:Ef; [|done].
  destruct (foldl (push_strict f') _ _) as [[[k v1] z1]|]; [|done].
  destruct (foldl (emit_strict f' v1 z1 offset stride) _ _) as [[k' g]|];
    [|done].
  injection H as <-. cbn [a_f]. by apply (copy_strict_length _ _ _ _ _ _ Ef).
Qed.

(** Passes on lines longer than [f], after any other passes. *)
Lemma run_strict_overrun ps1 p ps2 (a : arrays num) :
  length (a_f a) < p.2 ->
  foldl run_strict (Some a) (ps1 ++ p :: ps2) = None.
Proof.
  intros Hlen. rewrite foldl_app. cbn [foldl].
  assert (Hpre : foldl run_strict (Some a) ps1 = None \/
                 exists a', foldl run_strict (Some a) ps1 = Some a' /\
                            length (a_f a') = length (a_f a)).
  { clear Hlen. revert a. induction ps1 as [|[[o s] l] ps1 IH]; intros a.
    - right. by exists a.
    - cbn [foldl]. unfold run_strict at 2 4.
      destruct (edt1d_strict (a_grid a) o s l (a_f a) (a_v a) (a_z a))
        as [a1|] eqn:E.
      + destruct (IH a1) as [H|(a' & H & L)]; [by left|right].
        exists a'. split; [done|].
        rewrite L. by apply (edt1d_strict_length _ _ _ _ _ _ _ _ E).
      + left. apply foldl_None. done. }
  destruct Hpre as [-> | (a' & -> & L)].
  - cbn [run_strict]. by apply foldl_None.
  - destruct p as [[o s] l]. cbn [snd] in Hlen. unfold run_strict at 2.
    rewrite edt1d_strict_overrun by lia. by apply foldl_None.
Qed.

End Overrun.

Lemma edt_strict_passes {num : Type} {N : Number num}
    (data : list num) width height (f : list num) v (z : list num) :
  edt_strict data width height f v z
  = foldl run_strict (Some (Arrays data f v z))
      (map (fun x => (x, width, height)) (seq 0 width)
       ++ map (fun y => (y * width, 1, width)) (seq 0 height)).
Proof.
  unfold edt_strict. cbv zeta. rewrite foldl_app, !foldl_fmap. reflexivity.
Qed.

Lemma edt_strict_overrun {num : Type} {N : Number num}
    (data : list num) width height (f : list num) v (z : list num) :
  0 < width -> 0 < height ->
  length f < width \/ length f < height ->
  edt_strict data width height f v z = None.
Proof.
  intros Hw Hh Hlen. rewrite edt_strict_passes.
  destruct width as [|w]; [lia|]. destruct height as [|h]; [lia|].
  destruct (decide (length f < S h)) as [Hcol|Hcol].
  - cbn [seq map app].
    apply (run_strict_overrun [] (0, S w, S h)). cbn [a_f snd]. lia.
  - cbn [seq map].
    apply (run_strict_overrun _ (0 * S w, 1, S w)). cbn [a_f snd]. lia.
Qed.

(** X22: a call of [edt1d] on a line longer than [f] has an access outside
    an array (at the latest the store [f[q] = ...] at [q = f.length]), and
    so has [edt] on a canvas, not empty, whose width or height exceeds the
    length of [f]. *)
Theorem edt_overruns_f {num : Type} {N : Number num} :
  (forall (grid : list num) offset stride n (f : list num) v (z : list num),
     length f < n -> edt1d_strict grid offset stride n f v z = None) /\
  (forall (data : list num) width height (f : list num) v (z : list num),
     0 < width -> 0 < height ->
     length f < width \/ length f < height ->
     edt_strict data width height f v z = None).
Proof.
  split; [intros; by apply edt1d_strict_overrun|].
  intros. by apply edt_strict_overrun.
Qed.

(** X23: on an instance the constructor made, after any calls of [draw],
    the two transforms [draw] runs stay inside the arrays when [width] and
    [height] are at most [size] (no index below [size] being above the
    sentinel); when the canvas of the metrics is wider or higher than
    [size], the first of them has an access outside an array. *)
Theorem draw_transforms_bounds {num : Type} {N : Number num}
    fontSize buffer0 (radius0 cutoff0 : num) calls (m : metrics num)
    imgData :
  let this := draws (new_TinySDF fontSize buffer0 radius0 cutoff0) calls in
  let g := seed (gridOuter this) (gridInner this) imgData
                (width m) (height m) (glyphWidth m) (glyphHeight m) in
  let o := edt g.1 (width m) (height m) (f this) (v this) (z this) in
  (sentinel_covers (size this) -> 0 < size this ->
   width m <= size this -> height m <= size this ->
   edt_strict g.1 (width m) (height m) (f this) (v this) (z this) = Some o /\
   edt_strict g.2 (width m) (height m) (a_f o) (a_v o) (a_z o)
   = Some (edt g.2 (width m) (height m) (a_f o) (a_v o) (a_z o))) /\
  (0 < width m -> 0 < height m ->
   size this < width m \/ size this < height m ->
   edt_strict g.1 (width m) (height m) (f this) (v this) (z this) = None).
Proof.
  intros this g o.
  destruct (draws_fields (new_TinySDF fontSize buffer0 radius0 cutoff0) calls)
    as (_ & _ & _ & Hs).
  destruct (draws_lengths (new_TinySDF fontSize buffer0 radius0 cutoff0) calls)
    as (HO & HI & Hf & Hv & Hz).
  fold this in Hs, HO, HI, Hf, Hv, Hz.
  cbn [new_TinySDF size gridOuter gridInner f v z] in Hs, HO, HI, Hf, Hv, Hz.
  rewrite length_replicate in HO. rewrite length_replicate in HI.
  rewrite length_replicate in Hf. rewrite length_replicate in Hv.
  rewrite length_replicate in Hz.
  destruct (seed_length (gridOuter this) (gridInner this) imgData (width m)
              (height m) (glyphWidth m) (glyphHeight m)) as [LO LI].
  fold g in LO, LI.
  split.
  - intros Hcov Hpos Hw Hh. rewrite Hs in Hw, Hh, Hpos.
    destruct (edt_length g.1 (width m) (height m) (f this) (v this) (z this))
      as (_ & Lf & Lv & Lz). fold o in Lf, Lv, Lz.
    split.
    + apply (edt_strict_ok (size this)); try done; try lia. nia.
    + apply (edt_strict_ok (size this)); try done; try lia. nia.
  - intros Hw Hh Hlen. apply edt_strict_overrun; try done. lia.
Qed.

(** ** The further properties at concrete inputs *)

Lemma edt1d_lower_envelope_witness :
  exists m : R,
    a_grid (edt1d [0; INF; INF]%R 0 1 3 [0; 0; 0]%R [0; 0; 0] [0; 0; 0; 0]%R)
      !! (0 + 2 * 1) = Some m /\
    (exists r, r < 3 /\
       m = (get [0; INF; INF]%R (0 + r * 1)
            + (INR 2 - INR r) * (INR 2 - INR r))%R) /\
    (forall r, r < 3 ->
       (m <= get [0; INF; INF]%R (0 + r * 1)
             + (INR 2 - INR r) * (INR 2 - INR r))%R).
Proof.
  apply (edt1d_lower_envelope [0; INF; INF]%R 0 1 3 [0; 0; 0]%R [0; 0; 0]
           [0; 0; 0; 0]%R 2); try (cbn; lia).
  apply scratch_fits_small. reflexivity.
Defined.

Lemma edt_least_cost_witness :
  exists m : R,
    a_grid (edt [INF; 0; INF; INF]%R 2 2 [0; 0]%R [0; 0] [0; 0; 0]%R)
      !! (1 * 2 + 0) = Some m /\
    lower_env2 [INF; 0; INF; INF]%R 2 2 0 1 m.
Proof.
  apply (edt_least_cost [INF; 0; INF; INF]%R 2 2 [0; 0]%R [0; 0]
           [0; 0; 0]%R 0 1); try (cbn; lia);
    apply scratch_fits_small; reflexivity.
Defined.

Lemma edt_monotone_witness :
  exists m1 m2 : R,
    a_grid (edt [0; 1; 2; 3]%R 2 2 [0; 0]%R [0; 0] [0; 0; 0]%R)
      !! (1 * 2 + 1) = Some m1 /\
    a_grid (edt [0; 1; 4; 9]%R 2 2 [5; 5]%R [1; 1] [7; 7; 7]%R)
      !! (1 * 2 + 1) = Some m2 /\
    (m1 <= m2)%R.
Proof.
  apply (edt_monotone [0; 1; 2; 3]%R [0; 1; 4; 9]%R 2 2
           [0; 0]%R [0; 0] [0; 0; 0]%R [5; 5]%R [1; 1] [7; 7; 7]%R);
    try (cbn; lia); try (apply scratch_fits_small; reflexivity).
  intros i Hi.
  destruct i as [|[|[|[|i]]]]; cbn in Hi; try lia;
    unfold get; simpl; lra.
Defined.

Lemma edt_between_witness :
  exists m : R,
    a_grid (edt [0; 1; 4; 9]%R 2 2 [0; 0]%R [0; 0] [0; 0; 0]%R)
      !! (1 * 2 + 1) = Some m /\
    (0 <= m <= get [0; 1; 4; 9]%R (1 * 2 + 1))%R.
Proof.
  apply (edt_between [0; 1; 4; 9]%R 2 2 [0; 0]%R [0; 0] [0; 0; 0]%R);
    try (cbn; lia); try (apply scratch_fits_small; reflexivity).
  intros i Hi.
  destruct i as [|[|[|[|i]]]]; cbn in Hi; try lia;
    unfold get; simpl; lra.
Defined.

Lemma edt_add_constant_witness :
  a_grid (edt (map (fun a => (a + 5)%R) [0; 1; 4; 9]%R) 2 2
              [5; 5]%R [1; 1] [7; 7; 7]%R) !! (1 * 2 + 1)
  = (fun a => (a + 5)%R)
      <$> a_grid (edt [0; 1; 4; 9]%R 2 2 [0; 0]%R [0; 0] [0; 0; 0]%R)
            !! (1 * 2 + 1).
Proof.
  apply (edt_add_constant 5 [0; 1; 4; 9]%R 2 2 [0; 0]%R [0; 0] [0; 0; 0]%R
           [5; 5]%R [1; 1] [7; 7; 7]%R);
    try (cbn; lia); apply scratch_fits_small; reflexivity.
Defined.

Lemma edt1d_picks_sample_witness :
  exists r, r < 3 /\
    a_grid (edt1d [0; 1e20; 1e20]%float 0 1 3 [0; 0; 0]%float [0; 0; 0]
                  [0; 0; 0; 0]%float) !! (0 + 2 * 1)
    = Some (get [0; 1e20; 1e20]%float (0 + r * 1)
            + (idx 2 - idx r) * (idx 2 - idx r))%num.
Proof.
  apply (edt1d_picks_sample [0; 1e20; 1e20]%float 0 1 3 [0; 0; 0]%float
           [0; 0; 0] [0; 0; 0; 0]%float 2 sentinel_covers_3);
    cbn; lia.
Defined.

Lemma edt_picks_cell_witness :
  exists x' y', x' < 3 /\ y' < 3 /\
    a_grid (edt [1e20; 1e20; 1e20; 1e20; 0; 1e20; 1e20; 1e20; 1e20]%float
                3 3 [0; 0; 0]%float [0; 0; 0] [0; 0; 0; 0]%float)
      !! (2 * 3 + 0)
    = Some (get [1e20; 1e20; 1e20; 1e20; 0; 1e20; 1e20; 1e20; 1e20]%float
                (y' * 3 + x')
            + (idx 2 - idx y') * (idx 2 - idx y')
            + (idx 0 - idx x') * (idx 0 - idx x'))%num.
Proof.
  apply (edt_picks_cell
           [1e20; 1e20; 1e20; 1e20; 0; 1e20; 1e20; 1e20; 1e20]%float 3 3
           [0; 0; 0]%float [0; 0; 0] [0; 0; 0; 0]%float 0 2
           sentinel_covers_3 sentinel_covers_3);
    cbn; lia.
Defined.

Lemma edt_frame_witness :
  a_grid (edt [1; 2; 3; 4; 5]%float 2 2 [0; 0]%float [0; 0] [0; 0; 0]%float)
    !! 4
  = [1; 2; 3; 4; 5]%float !! 4.
Proof.
  apply (proj2 (edt_frame [1; 2; 3; 4; 5]%float 2 2 [0; 0]%float [0; 0]
                  [0; 0; 0]%float)).
  lia.
Defined.

Lemma edt_empty_grid_witness :
  a_grid (edt [1; 2; 3]%float 3 0 [0; 0; 0]%float [0; 0; 0]
              [0; 0; 0; 0]%float)
  = [1; 2; 3]%float.
Proof.
  apply (edt_empty_grid [1; 2; 3]%float 3 0 [0; 0; 0]%float [0; 0; 0]
           [0; 0; 0; 0]%float).
  right. reflexivity.
Defined.

Lemma edt1d_one_sample_witness :
  a_grid (edt1d [1; 2; 3; 4]%float 2 1 1 [0]%float [0] [0; 0]%float)
  = if Leibniz.eqb 3%float (-0)%float
    then <[2 := 0%float]> [1; 2; 3; 4]%float
    else [1; 2; 3; 4]%float.
Proof.
  apply (edt1d_one_sample [1; 2; 3; 4]%float [0]%float [0] [0; 0]%float
           2 1 3%float); [discriminate|discriminate|reflexivity].
Defined.

Lemma seeds_classify_pixel_witness :
  outer_seed (alpha [0; 0; 0; 200] 1 0 0) = 0%float /\
  PrimFloat.ltb 0%float (inner_seed (alpha [0; 0; 0; 200] 1 0 0)) = true.
Proof.
  exact (proj1 (seeds_classify_pixel [0; 0; 0; 200] 1 0 0 200 eq_refl
                  ltac:(lia))).
Defined.

Lemma draw_beyond_grids_witness :
  data (draw (new_TinySDF 1 0 8%float 0.25%float) "."
             (Metrics 2 1 1 1 0 0 1%float) [0; 0; 0; 255]).1 !! 1
  = Some 0.
Proof.
  apply (draw_beyond_grids (new_TinySDF 1 0 8%float 0.25%float) "."
           (Metrics 2 1 1 1 0 0 1%float) [0; 0; 0; 255] 1);
    cbn; lia.
Defined.

Lemma getMetrics_exact_witness :
  exists m : metrics R,
    represents (getMetrics sdf24_exact box_4_by_6) m /\
    glyphWidth m <= 36 - 3 /\ width m = glyphWidth m + 2 * 3.
Proof.
  destruct (getMetrics_exact sdf24_exact box_4_by_6)
    as (m & Hrep & Hgw & _ & _ & _ & Hw & _).
  - cbn. lia.
  - cbn. lra.
  - cbn. lra.
  - exists m. split; [exact Hrep|]. split; [exact Hgw|exact Hw].
Defined.

Lemma box_4_by_6_metrics :
  represents (getMetrics sdf24_exact box_4_by_6)
             (Metrics 10 12 4 6 5 0 10%R).
Proof.
  pose proof (getMetrics_metrics sdf24_exact box_4_by_6 ltac:(cbn; lia)
                ltac:(cbn; lra) ltac:(cbn; lra)) as H.
  cbv zeta in H.
  cbn [box_4_by_6 tm_width actualBoundingBoxAscent actualBoundingBoxDescent
       actualBoundingBoxLeft actualBoundingBoxRight] in H.
  replace (4 - 0)%R with (IZR 4) in H by lra.
  replace (5 + 1)%R with (IZR 6) in H by lra.
  rewrite !R_ceil_IZR, R_floor_IZR in H. exact H.
Defined.

Lemma getMetrics_places_glyph_witness :
  centre 10 4 = 3%Z /\
  (seed (gridOuter sdf24_exact) (gridInner sdf24_exact) [0; 0; 0; 255]
        10 12 4 6).1 !! ((0 + 3) * 10 + (0 + 3))
  = Some (outer_seed (alpha [0; 0; 0; 255] 4 0 0)).
Proof.
  destruct (getMetrics_places_glyph sdf24_exact box_4_by_6
              (Metrics 10 12 4 6 5 0 10%R) [0; 0; 0; 255]
              box_4_by_6_metrics)
    as (_ & _ & Hc & Hseed).
  - cbn. lia.
  - cbn [width height gridOuter sdf24_exact new_TinySDF].
    rewrite length_replicate. lia.
  - cbn [width height gridInner sdf24_exact new_TinySDF].
    rewrite length_replicate. lia.
  - split; [exact Hc|].
    exact (proj1 (Hseed 0 0 ltac:(cbn; lia) ltac:(cbn; lia))).
Defined.

Lemma draw_exact_witness :
  exists o i : R,
    gridOuter (draw (new_TinySDF 1 1 8%R (/ 4)%R) "."
                    (Metrics 3 3 1 1 0 0 0%R) [0; 0; 0; 255]).2
      !! (1 * 3 + 1) = Some o /\
    gridInner (draw (new_TinySDF 1 1 8%R (/ 4)%R) "."
                    (Metrics 3 3 1 1 0 0 0%R) [0; 0; 0; 255]).2
      !! (1 * 3 + 1) = Some i.
Proof.
  destruct (draw_exact 1 1 8%R (/ 4)%R [] "." (Metrics 3 3 1 1 0 0 0%R)
              [0; 0; 0; 255] 1 1 ltac:(apply Nat.leb_le; reflexivity))
    as (o & i & _ & _ & HO & HI & _); try (cbn; lia).
  exists o, i. split; [exact HO|exact HI].
Defined.

Lemma draw_sign_exact_witness :
  exists byte,
    data (draw (new_TinySDF 1 1 8%R (/ 4)%R) "."
               (Metrics 3 3 1 1 0 0 0%R) [0; 0; 0; 255]).1
      !! (0 * 3 + 0) = Some byte.
Proof.
  destruct (draw_sign_exact 1 1 8%R (/ 4)%R [] "." (Metrics 3 3 1 1 0 0 0%R)
              [0; 0; 0; 255] 0 0 ltac:(apply Nat.leb_le; reflexivity)
              ltac:(lra))
    as (byte & Hb & _); try (cbn; lia).
  exists byte. exact Hb.
Defined.

Lemma draw_forgets_history_witness :
  (draw (draws (new_TinySDF 3 0 8%float 0.25%float)
               [("."%string, Metrics 3 3 1 1 0 0 1%float, [0; 0; 0; 255])])
        "x" (Metrics 3 3 1 1 0 0 1%float) [0; 0; 0; 128]).1
  = (draw (new_TinySDF 3 0 8%float 0.25%float)
          "x" (Metrics 3 3 1 1 0 0 1%float) [0; 0; 0; 128]).1.
Proof.
  apply (draw_forgets_history 3 (new_TinySDF 3 0 8%float 0.25%float)
           [("."%string, Metrics 3 3 1 1 0 0 1%float, [0; 0; 0; 255])]
           "x" (Metrics 3 3 1 1 0 0 1%float) [0; 0; 0; 128]
           sentinel_covers_3); cbn; lia.
Defined.

Lemma getMetrics_without_box_witness :
  m_glyphWidth (getMetrics sdf24 (mkTextMetrics 10 nan nan nan nan)%float)
  = nan /\
  m_width (getMetrics sdf24 (mkTextMetrics 10 nan nan nan nan)%float) = nan.
Proof.
  apply (proj1 (getMetrics_without_box sdf24
                  (mkTextMetrics 10 nan nan nan nan)%float)).
  left. reflexivity.
Defined.

Lemma edt1d_in_bounds_witness :
  edt1d_strict [0; 1e20; 1e20]%float 0 1 3 [0; 0; 0]%float [0; 0; 0]
               [0; 0; 0; 0]%float
  = Some (edt1d [0; 1e20; 1e20]%float 0 1 3 [0; 0; 0]%float [0; 0; 0]
                [0; 0; 0; 0]%float).
Proof.
  apply (edt1d_in_bounds [0; 1e20; 1e20]%float 0 1 3 [0; 0; 0]%float
           [0; 0; 0] [0; 0; 0; 0]%float sentinel_covers_3); cbn; lia.
Defined.

Lemma edt_in_bounds_witness :
  edt_strict [0; 1e20; 1e20; 1e20; 1e20; 1e20]%float 3 2 [0; 0; 0]%float
             [0; 0; 0] [0; 0; 0; 0]%float
  = Some (edt [0; 1e20; 1e20; 1e20; 1e20; 1e20]%float 3 2 [0; 0; 0]%float
              [0; 0; 0] [0; 0; 0; 0]%float).
Proof.
  apply (edt_in_bounds 3 [0; 1e20; 1e20; 1e20; 1e20; 1e20]%float 3 2
           [0; 0; 0]%float [0; 0; 0] [0; 0; 0; 0]%float sentinel_covers_3);
    cbn; lia.
Defined.

Lemma edt_overruns_f_witness :
  edt_strict [0; 1e20; 1e20]%float 3 1 [0; 0]%float [0; 0] [0; 0; 0]%float
  = None.
Proof.
  apply (proj2 edt_overruns_f [0; 1e20; 1e20]%float 3 1 [0; 0]%float [0; 0]
           [0; 0; 0]%float); [lia|lia|].
  left. cbn. lia.
Defined.

Lemma draw_transforms_bounds_witness :
  exists a,
    edt_strict
      (seed (gridOuter (new_TinySDF 3 0 8%float 0.25%float))
            (gridInner (new_TinySDF 3 0 8%float 0.25%float))
            [0; 0; 0; 255] 3 3 1 1).1 3 3
      (f (new_TinySDF 3 0 8%float 0.25%float))
      (v (new_TinySDF 3 0 8%float 0.25%float))
      (z (new_TinySDF 3 0 8%float 0.25%float))
    = Some a.
Proof.
  destruct (proj1 (draw_transforms_bounds 3 0 8%float 0.25%float []
                     (Metrics 3 3 1 1 0 0 1%float) [0; 0; 0; 255])
              sentinel_covers_3 ltac:(cbn; lia) ltac:(cbn; lia)
              ltac:(cbn; lia)) as [H _].
  eexists. exact H.
Defined.
